(** * Queue persistence and mutation engine

    A shallow embedding of [QueueSaver], [DefaultQueueStore] and [Queue]
    (the queue module shipped next to [myCustomWatcher.ts]) together with
    the [StoredQueue] / [ManagerQueueOptions] / [QueueChangesWatcher]
    declarations of [Types/Queue].

    Conventions of the embedding:
    - JavaScript arrays have identity: they live in an arena ([w_heap]) and
      are referred to by location, because [DefaultQueueStore.get] hands out
      the very arrays it stores and [Queue] mutates them in place.
    - The [MiniMap] of [DefaultQueueStore] is a [gmap string _].
    - [async] methods are sequential code in a state-and-exception monad
      [M]; an uncaught exception leaves the world as it was when thrown.
    - Indices, counts and the retention cap are integers ([Z]); durations
      are integers or [NaN].  [Math.random] returns rationals.
    - Track objects are never mutated by the queue and are plain values. *)

From Stdlib Require Import ZArith QArith Qround Permutation Lia.
From stdpp Require Import base option list strings gmap.

Close Scope Q_scope.

(** ** Tracks *)

(** A JavaScript [number] as used for [info.duration]. *)
Inductive JSNumber :=
| NaN
| Num (z : Z).

Record TrackInfo := {
  identifier : option string;
  uri : option string;
  title : option string;
  isrc : option string;
  artworkUrl : option string;
  duration : option JSNumber
}.

(** Modelled from the spec: [ManagerUtils.isTrack] and
    [ManagerUtils.isUnresolvedTrack] live in [./Utils], a module that is not
    embedded here.  The spec calls [Track] and [UnresolvedTrack] "a
    tagged union distinguished by a capability predicate"; the tag is the
    field [capability], and [Foreign] is an object that satisfies neither
    predicate. *)
Inductive Capability :=
| Resolved
| Unresolved
| Foreign.

Record Track := {
  capability : Capability;
  encoded : option string;
  info : option TrackInfo
}.

(** Modelled from the spec: [ManagerUtils.isTrack], the capability test
    for a resolved track. *)
Definition isTrack (t : Track) : bool :=
  match capability t with Resolved => true | _ => false end.

(** Modelled from the spec: [ManagerUtils.isUnresolvedTrack], the capability
    test for an unresolved track. *)
Definition isUnresolvedTrack (t : Track) : bool :=
  match capability t with Unresolved => true | _ => false end.

(** What [add] and [splice] may receive at run time: a track-like object or
    an array, arbitrarily nested. *)
#[warnings="-register-all"]
Inductive Value :=
| VTrack (t : Track)
| VArray (vs : list Value).

(** ** Arena, store and world *)

Definition loc := nat.

Record StoredQueue := {
  sq_current : option Track;
  sq_previous : loc;
  sq_tracks : loc
}.

(** [Partial<StoredQueue>]: a list field is [None] when it is missing or not
    an array. *)
Record PartialStoredQueue := {
  p_current : option Track;
  p_previous : option loc;
  p_tracks : option loc
}.

Inductive Position :=
| PosIndex (i : Z)
| PosIndices (l : list Z).

(** The calls a [QueueChangesWatcher] receives from the queue. *)
Inductive Notification :=
| Shuffled (guildId : string) (oldStoredQueue : option StoredQueue)
    (newStoredQueue : StoredQueue)
| TracksAdd (guildId : string) (tracks : list Track) (position : Z)
    (oldStoredQueue : option StoredQueue) (newStoredQueue : StoredQueue)
| TracksRemoved (guildId : string) (tracks : list Track) (position : Position)
    (oldStoredQueue : option StoredQueue) (newStoredQueue : StoredQueue).

Inductive Error :=
| TypeError
| WatcherError
| NoDataError.

Inductive Completion :=
| Normal
| Abrupt (e : Error).

(** A callback is [None] when [typeof watcher.cb !== "function"]. *)
Record QueueChangesWatcher := {
  tracksAdd : option (Notification → Completion);
  tracksRemoved : option (Notification → Completion);
  shuffled : option (Notification → Completion)
}.

(** Ghost trace: what reached the store through [set] and what was sent to
    the watcher, oldest first. *)
Inductive Event :=
| EvSet (guildId : string) (stored : StoredQueue)
| EvNotify (n : Notification).

Record World := {
  w_heap : list (list Track);
  w_data : gmap string PartialStoredQueue;
  w_random : nat → Q;
  w_draws : nat;
  w_trace : list Event
}.

(** ** The monad *)

Inductive Outcome (A : Type) :=
| Ret (a : A)
| Throw (e : Error).
Arguments Ret {A} a.
Arguments Throw {A} e.

Definition M (A : Type) : Type := World → Outcome A * World.

Definition ret {A} (a : A) : M A := fun w => (Ret a, w).
Definition throw {A} (e : Error) : M A := fun w => (Throw e, w).
Definition bind {A B} (c : M A) (k : A → M B) : M B :=
  fun w => match c w with
           | (Ret a, w') => k a w'
           | (Throw e, w') => (Throw e, w')
           end.

Declare Scope queue_scope.
Delimit Scope queue_scope with queue.
Notation "x <- c ;; k" := (bind c (fun x => k))
  (at level 100, c at next level, right associativity) : queue_scope.
Notation "c ;;; k" := (bind c (fun _ => k))
  (at level 100, right associativity) : queue_scope.
Open Scope queue_scope.

(** [try { c } catch { }] *)
Definition try_catch (c : M unit) : M unit :=
  fun w => match c w with
           | (Ret _, w') => (Ret tt, w')
           | (Throw _, w') => (Ret tt, w')
           end.

Definition when (b : bool) (c : M unit) : M unit :=
  if b then c else ret tt.

(** ** Arrays *)

(** [a[i]] for an integer [i]; [None] is [undefined]. *)
Definition at_index {A} (a : list A) (i : Z) : option A :=
  if (i <? 0)%Z then None else a !! Z.to_nat i.

(** [a[i] = x].  Every call site checks [0 <= i < a.length] first, so the
    array never has to grow. *)
Definition set_index {A} (a : list A) (i : Z) (x : A) : list A :=
  if (i <? 0)%Z then a else <[Z.to_nat i := x]> a.

(** [[a[i], a[j]] = [a[j], a[i]]]: the right-hand side is read first, then
    [a[i]] and [a[j]] are assigned in that order.  Both reads are of
    positions inside the array at every call site ([swapTracks] checks its
    indices, [shuffle] draws [j] from [0..i]). *)
Definition swap_index {A} (a : list A) (i j : Z) : list A :=
  match at_index a j, at_index a i with
  | Some aj, Some ai => set_index (set_index a i aj) j ai
  | _, _ => a
  end.

(** [Array.prototype.splice]: clamping of [start] and [deleteCount]. *)
Definition splice_start (len start : Z) : Z :=
  if (start <? 0)%Z then Z.max (len + start) 0 else Z.min start len.

Definition splice_count (len actualStart deleteCount : Z) : Z :=
  Z.min (Z.max deleteCount 0) (len - actualStart).

(** [a.splice(start, deleteCount, ...items)]: the removed elements and the
    array afterwards. *)
Definition js_splice {A} (a : list A) (start deleteCount : Z) (items : list A)
  : list A * list A :=
  let len := Z.of_nat (length a) in
  let s := splice_start len start in
  let d := splice_count len s deleteCount in
  (take (Z.to_nat d) (drop (Z.to_nat s) a),
   take (Z.to_nat s) a ++ items ++ drop (Z.to_nat s + Z.to_nat d) a).

(** [a.findIndex(p)], [-1] when nothing satisfies [p]. *)
Fixpoint findIndex {A} (p : A → bool) (a : list A) : Z :=
  match a with
  | [] => (-1)%Z
  | x :: rest =>
      if p x then 0%Z
      else let k := findIndex p rest in
           if (k <? 0)%Z then (-1)%Z else (k + 1)%Z
  end.

(** [vs.flat(depth)] *)
Fixpoint flat (depth : nat) (vs : list Value) : list Value :=
  match depth with
  | O => vs
  | S d =>
      flat_map (fun v => match v with
                         | VArray inner => flat d inner
                         | VTrack _ => [v]
                         end) vs
  end.

(** ** World access *)

Definition with_heap (f : list (list Track) → list (list Track)) (w : World)
  : World :=
  {| w_heap := f (w_heap w); w_data := w_data w; w_random := w_random w;
     w_draws := w_draws w; w_trace := w_trace w |}.

Definition with_data
  (f : gmap string PartialStoredQueue → gmap string PartialStoredQueue)
  (w : World) : World :=
  {| w_heap := w_heap w; w_data := f (w_data w); w_random := w_random w;
     w_draws := w_draws w; w_trace := w_trace w |}.

Definition log (e : Event) (w : World) : World :=
  {| w_heap := w_heap w; w_data := w_data w; w_random := w_random w;
     w_draws := w_draws w; w_trace := w_trace w ++ [e] |}.

(** The contents of the array at [l]. *)
Definition read (l : loc) : M (list Track) :=
  fun w => (Ret (default [] (w_heap w !! l)), w).

Definition write (l : loc) (a : list Track) : M unit :=
  fun w => (Ret tt, with_heap (fun h => <[l := a]> h) w).

(** An array literal or copy: a new array, distinct from all others. *)
Definition alloc (a : list Track) : M loc :=
  fun w => (Ret (length (w_heap w)), with_heap (fun h => h ++ [a]) w).

Definition array_length (l : loc) : M nat :=
  a <- read l ;; ret (length a).

(** [array.splice(start, deleteCount, ...items)] in place; the removed
    elements are returned. *)
Definition array_splice (l : loc) (start deleteCount : Z) (items : list Track)
  : M (list Track) :=
  a <- read l ;;
  let '(removed, a') := js_splice a start deleteCount items in
  write l a' ;;;
  ret removed.

Definition array_swap (l : loc) (i j : Z) : M unit :=
  a <- read l ;; write l (swap_index a i j).

(** [array.push(...items)] and [array.unshift(item)] *)
Definition array_push (l : loc) (items : list Track) : M unit :=
  a <- read l ;; write l (a ++ items).

Definition array_unshift (l : loc) (item : Track) : M unit :=
  a <- read l ;; write l (item :: a).

(** [array.shift()] *)
Definition array_shift (l : loc) : M (option Track) :=
  a <- read l ;;
  match a with
  | x :: rest => write l rest ;;; ret (Some x)
  | [] => ret None
  end.

(** [Math.random()]: the next number of the world's supply. *)
Definition Math_random : M Q :=
  fun w => (Ret (w_random w (w_draws w)),
            {| w_heap := w_heap w; w_data := w_data w;
               w_random := w_random w; w_draws := S (w_draws w);
               w_trace := w_trace w |}).

Definition Math_floor (x : Q) : Z := Qfloor x.

(** ** QueueSaver and DefaultQueueStore *)

(** [ManagerQueueOptions]; [queueStore] is left out: the store is always the
    [DefaultQueueStore] a [QueueSaver] creates for itself. *)
Record ManagerQueueOptions := {
  maxPreviousTracks : option Z;
  queueChangesWatcher : option QueueChangesWatcher
}.

Record QueueSaver := {
  saver_maxPreviousTracks : Z
}.

(** [x || 25] on a number: [0] is falsy. *)
Definition or_default (x : option Z) (d : Z) : Z :=
  match x with
  | Some n => if (n =? 0)%Z then d else n
  | None => d
  end.

Definition QueueSaver_new (options : option ManagerQueueOptions) : QueueSaver :=
  {| saver_maxPreviousTracks := or_default (options ≫= maxPreviousTracks) 25 |}.

Definition stored_document (stored : StoredQueue) : PartialStoredQueue :=
  {| p_current := sq_current stored;
     p_previous := Some (sq_previous stored);
     p_tracks := Some (sq_tracks stored) |}.

Definition DefaultQueueStore_get (guildId : string)
  : M (option PartialStoredQueue) :=
  fun w => (Ret (w_data w !! guildId), w).

Definition DefaultQueueStore_set (guildId : string) (value : StoredQueue)
  : M bool :=
  fun w => (Ret true,
            log (EvSet guildId value)
              (with_data (fun d => <[guildId := stored_document value]> d) w)).

Definition DefaultQueueStore_delete (guildId : string) : M bool :=
  fun w => (Ret (bool_decide (is_Some (w_data w !! guildId))),
            with_data (fun d => delete guildId d) w).

Definition DefaultQueueStore_stringify (value : StoredQueue) : StoredQueue :=
  value.

Definition DefaultQueueStore_parse (value : option PartialStoredQueue)
  : option PartialStoredQueue := value.

Definition QueueSaver_get (guildId : string) : M (option PartialStoredQueue) :=
  raw <- DefaultQueueStore_get guildId ;;
  ret (DefaultQueueStore_parse raw).

Definition QueueSaver_set (guildId : string) (valueToStringify : StoredQueue)
  : M bool :=
  DefaultQueueStore_set guildId (DefaultQueueStore_stringify valueToStringify).

Definition QueueSaver_delete (guildId : string) : M bool :=
  DefaultQueueStore_delete guildId.

(** ** Queue *)

Record Queue := {
  q_current : option Track;
  q_maxPreviousTracks : Z;
  q_guildId : string;
  q_QueueSaver : option QueueSaver;
  q_queueChanges : option QueueChangesWatcher
}.

(** [typeof f === "function"] *)
Definition is_function {A} (f : option A) : bool :=
  match f with Some _ => true | None => false end.

(** Truthiness of an optional object: only [undefined] is falsy. *)
Definition is_object {A} (x : option A) : bool :=
  match x with Some _ => true | None => false end.

Definition cb_shuffled (q : Queue) := q_queueChanges q ≫= shuffled.
Definition cb_tracksAdd (q : Queue) := q_queueChanges q ≫= tracksAdd.
Definition cb_tracksRemoved (q : Queue) := q_queueChanges q ≫= tracksRemoved.

(** Truthiness and comparison of the optional [duration]. *)
Definition falsy_number (d : option JSNumber) : bool :=
  match d with
  | None | Some NaN => true
  | Some (Num z) => (z =? 0)%Z
  end.

Definition isNaN (d : option JSNumber) : bool :=
  match d with
  | None | Some NaN => true
  | Some (Num _) => false
  end.

Definition less_than (d : option JSNumber) (bound : Z) : bool :=
  match d with
  | None | Some NaN => false
  | Some (Num z) => (z <? bound)%Z
  end.

Definition isValid (track : Track) : bool :=
  if isTrack track then
    let duration := info track ≫= duration in
    if falsy_number duration || isNaN duration || less_than duration 10000
    then false
    else true
  else true.

(** [new Queue(guildId, data = {}, QueueSaver?, queueOptions?)]: reading
    [queueOptions.queueChangesWatcher] comes first. *)
Definition Queue_new (guildId : string) (data : option PartialStoredQueue)
  (QueueSaver : option QueueSaver) (queueOptions : option ManagerQueueOptions)
  : Outcome Queue :=
  match queueOptions with
  | None => Throw TypeError
  | Some opts =>
      Ret {| q_queueChanges := queueChangesWatcher opts;
             q_guildId := guildId;
             q_QueueSaver := QueueSaver;
             q_maxPreviousTracks :=
               match QueueSaver with
               | Some s => saver_maxPreviousTracks s
               | None => 25%Z
               end;
             q_current :=
               match data ≫= p_current with
               | Some t => if isTrack t then Some t else None
               | None => None
               end |}
  end.

(** [this.QueueSaver.m(...)]: a [TypeError] without a saver. *)
Definition with_saver {A} (q : Queue) (c : M A) : M A :=
  match q_QueueSaver q with
  | Some _ => c
  | None => throw TypeError
  end.

Definition _load (q : Queue) : M StoredQueue :=
  data <- with_saver q (QueueSaver_get (q_guildId q)) ;;
  previous <- match data ≫= p_previous with
              | Some l => ret l
              | None => alloc []
              end ;;
  tracks <- match data ≫= p_tracks with
            | Some l => ret l
            | None => alloc []
            end ;;
  ret {| sq_current := q_current q; sq_previous := previous;
         sq_tracks := tracks |}.

Definition _save (q : Queue) (stored : StoredQueue) : M unit :=
  previous <- read (sq_previous stored) ;;
  when (Z.of_nat (length previous) >? q_maxPreviousTracks q)%Z
    (array_splice (sq_previous stored) (q_maxPreviousTracks q)
       (Z.of_nat (length previous)) [] ;;; ret tt) ;;;
  with_saver q (QueueSaver_set (q_guildId q) stored) ;;;
  ret tt.

(** [{ current: { ...current }, previous: [...previous], tracks: [...tracks] }] *)
Definition _snapshot (stored : StoredQueue) : M StoredQueue :=
  p <- read (sq_previous stored) ;;
  previous <- alloc p ;;
  t <- read (sq_tracks stored) ;;
  tracks <- alloc t ;;
  ret {| sq_current := sq_current stored; sq_previous := previous;
         sq_tracks := tracks |}.

(** [cond ? this._snapshot(stored) : null] *)
Definition snapshot_if (cond : bool) (stored : StoredQueue)
  : M (option StoredQueue) :=
  if cond then s <- _snapshot stored ;; ret (Some s) else ret None.

(** Calling a watcher callback. *)
Definition call (cb : Notification → Completion) (n : Notification) : M unit :=
  fun w => match cb n with
           | Normal => (Ret tt, log (EvNotify n) w)
           | Abrupt e => (Throw e, log (EvNotify n) w)
           end.

(** [if (typeof cb === "function") cb(..., this._snapshot(stored))] *)
Definition notify (cb : option (Notification → Completion))
  (event : StoredQueue → Notification) (stored : StoredQueue) : M unit :=
  match cb with
  | Some f => new <- _snapshot stored ;; call f (event new)
  | None => ret tt
  end.

(** [if (typeof cb === "function") try { cb(..., this._snapshot(stored)) } catch { }] *)
Definition notify_guarded (cb : option (Notification → Completion))
  (event : StoredQueue → Notification) (stored : StoredQueue) : M unit :=
  match cb with
  | Some f => try_catch (new <- _snapshot stored ;; call f (event new))
  | None => ret tt
  end.

Definition getTracks (q : Queue) : M loc :=
  stored <- _load q ;; ret (sq_tracks stored).

Definition getTrackCount (q : Queue) : M nat :=
  stored <- _load q ;; array_length (sq_tracks stored).

Definition getTrack (q : Queue) (index : Z) : M (option Track) :=
  stored <- _load q ;;
  a <- read (sq_tracks stored) ;;
  ret (at_index a index).

Definition getPrevious (q : Queue) : M loc :=
  stored <- _load q ;; ret (sq_previous stored).

Definition getPreviousCount (q : Queue) : M nat :=
  stored <- _load q ;; array_length (sq_previous stored).

Definition with_tracks (stored : StoredQueue) (l : loc) : StoredQueue :=
  {| sq_current := sq_current stored; sq_previous := sq_previous stored;
     sq_tracks := l |}.

Definition clearTracks (q : Queue) : M unit :=
  stored <- _load q ;;
  empty <- alloc [] ;;
  _save q (with_tracks stored empty).

Definition unshiftTrack (q : Queue) (track : Track) : M nat :=
  stored <- _load q ;;
  array_unshift (sq_tracks stored) track ;;;
  _save q stored ;;;
  array_length (sq_tracks stored).

Definition shiftTrack (q : Queue) : M (option Track) :=
  stored <- _load q ;;
  shifted <- array_shift (sq_tracks stored) ;;
  when (is_object shifted) (_save q stored) ;;;
  ret shifted.

Definition pushTrack (q : Queue) (track : Track) : M nat :=
  stored <- _load q ;;
  array_push (sq_tracks stored) [track] ;;;
  _save q stored ;;;
  array_length (sq_tracks stored).

(** The caller's array itself becomes the track list. *)
Definition setTracks (q : Queue) (tracks : loc) : M unit :=
  stored <- _load q ;;
  _save q (with_tracks stored tracks).

Definition moveTrack (q : Queue) (from to : Z) : M unit :=
  stored <- _load q ;;
  a <- read (sq_tracks stored) ;;
  if (from <? 0)%Z || (Z.of_nat (length a) <=? from)%Z then ret tt
  else
    moved <- array_splice (sq_tracks stored) from 1 [] ;;
    match moved with
    | m :: _ => array_splice (sq_tracks stored) to 0 [m] ;;; ret tt
    | [] => ret tt
    end ;;;
    _save q stored.

Definition addToPrevious (q : Queue) (track : Track) : M unit :=
  stored <- _load q ;;
  array_unshift (sq_previous stored) track ;;;
  _save q stored.

Definition replaceTrack (q : Queue) (index : Z) (track : Track) : M bool :=
  stored <- _load q ;;
  a <- read (sq_tracks stored) ;;
  if (index <? 0)%Z || (Z.of_nat (length a) <=? index)%Z then ret false
  else
    write (sq_tracks stored) (set_index a index track) ;;;
    _save q stored ;;;
    ret true.

Definition swapTracks (q : Queue) (i j : Z) : M bool :=
  stored <- _load q ;;
  a <- read (sq_tracks stored) ;;
  if (i <? 0)%Z || (Z.of_nat (length a) <=? i)%Z
     || (j <? 0)%Z || (Z.of_nat (length a) <=? j)%Z then ret false
  else
    array_swap (sq_tracks stored) i j ;;;
    _save q stored ;;;
    ret true.

Definition shiftPrevious (q : Queue) : M (option Track) :=
  stored <- _load q ;;
  removed <- array_shift (sq_previous stored) ;;
  when (is_object removed) (_save q stored) ;;;
  ret removed.

(** [utils.save] *)
Definition utils_save (q : Queue) : M unit :=
  stored <- _load q ;; _save q stored.

(** [utils.destroy] *)
Definition utils_destroy (q : Queue) : M bool :=
  with_saver q (QueueSaver_delete (q_guildId q)).

(** [utils.toJSON] *)
Definition utils_toJSON (q : Queue) : M StoredQueue :=
  stored <- _load q ;;
  previous <- read (sq_previous stored) ;;
  when (Z.of_nat (length previous) >? q_maxPreviousTracks q)%Z
    (array_splice (sq_previous stored) (q_maxPreviousTracks q)
       (Z.of_nat (length previous)) [] ;;; ret tt) ;;;
  _snapshot stored.

(** *** shuffle *)

(** [for (let i = len - 1; i > 0; i--) { j = floor(random() * (i + 1)); swap }] *)
Fixpoint shuffle_loop (tracks : loc) (i : nat) : M unit :=
  match i with
  | O => ret tt
  | S i' =>
      r <- Math_random ;;
      let j := Math_floor (r * inject_Z (Z.of_nat i + 1))%Q in
      array_swap tracks (Z.of_nat i) j ;;;
      shuffle_loop tracks i'
  end.

Definition shuffle (q : Queue) : M nat :=
  stored <- _load q ;;
  oldStored <- snapshot_if (is_function (cb_shuffled q)) stored ;;
  a <- read (sq_tracks stored) ;;
  if (length a <=? 1)%nat then ret (length a)
  else
    (if (length a =? 2)%nat then array_swap (sq_tracks stored) 0 1
     else shuffle_loop (sq_tracks stored) (length a - 1)) ;;;
    notify (cb_shuffled q)
      (fun new => Shuffled (q_guildId q) oldStored new) stored ;;;
    _save q stored ;;;
    array_length (sq_tracks stored).

(** *** add *)

(** [Array.isArray(x) ? x : [x]] *)
Definition as_array (x : Value) : list Value :=
  match x with
  | VArray vs => vs
  | VTrack _ => [x]
  end.

(** [v => isTrack(v) || isUnresolvedTrack(v)]; an array is neither. *)
Definition track_or_unresolved (v : Value) : option Track :=
  match v with
  | VTrack t => if isTrack t || isUnresolvedTrack t then Some t else None
  | VArray _ => None
  end.

(** [as_array(x).flat(2).filter(track or unresolved).filter(isValid)] *)
Definition valid_tracks (TrackOrTracks : Value) : list Track :=
  List.filter isValid
    (omap track_or_unresolved (flat 2 (as_array TrackOrTracks))).

(** [typeof index === "number" && index >= 0 && index < length] *)
Definition insertion_index (index : option Z) (len : nat) : option Z :=
  match index with
  | Some i => if (0 <=? i)%Z && (i <? Z.of_nat len)%Z then Some i else None
  | None => None
  end.

Definition add (q : Queue) (TrackOrTracks : Value) (index : option Z) : M nat :=
  let validTracks := valid_tracks TrackOrTracks in
  stored <- _load q ;;
  len <- array_length (sq_tracks stored) ;;
  match insertion_index index len with
  | Some i =>
      oldStored <- snapshot_if (is_function (cb_tracksAdd q)
                                || is_function (cb_tracksRemoved q)) stored ;;
      array_splice (sq_tracks stored) i 0 validTracks ;;;
      notify_guarded (cb_tracksAdd q)
        (fun new => TracksAdd (q_guildId q) validTracks i oldStored new)
        stored ;;;
      _save q stored ;;;
      array_length (sq_tracks stored)
  | None =>
      oldStored <- snapshot_if (is_function (cb_tracksAdd q)) stored ;;
      array_push (sq_tracks stored) validTracks ;;;
      position <- array_length (sq_tracks stored) ;;
      notify_guarded (cb_tracksAdd q)
        (fun new => TracksAdd (q_guildId q) validTracks (Z.of_nat position)
                      oldStored new)
        stored ;;;
      _save q stored ;;;
      array_length (sq_tracks stored)
  end.

(** *** splice *)

(** A number (from [add]), [null], one removed track, or the removed tracks. *)
Inductive SpliceResult :=
| SpliceNull
| SpliceCount (n : nat)
| SpliceOne (t : Track)
| SpliceMany (ts : list Track).

Definition splice (q : Queue) (index amount : Z) (TrackOrTracks : option Value)
  : M SpliceResult :=
  stored <- _load q ;;
  oldStored <- snapshot_if (is_function (cb_tracksAdd q)
                            || is_function (cb_tracksRemoved q)) stored ;;
  a <- read (sq_tracks stored) ;;
  if (length a =? 0)%nat then
    match TrackOrTracks with
    | Some x => n <- add q x None ;; ret (SpliceCount n)
    | None => ret SpliceNull
    end
  else
    let validTracks := match TrackOrTracks with
                       | Some x => valid_tracks x
                       | None => []
                       end in
    match TrackOrTracks with
    | Some _ =>
        notify_guarded (cb_tracksAdd q)
          (fun new => TracksAdd (q_guildId q) validTracks index oldStored new)
          stored
    | None => ret tt
    end ;;;
    spliced <- match TrackOrTracks with
               | Some _ => array_splice (sq_tracks stored) index amount validTracks
               | None => array_splice (sq_tracks stored) index amount []
               end ;;
    notify_guarded (cb_tracksRemoved q)
      (fun new => TracksRemoved (q_guildId q) spliced (PosIndex index)
                    oldStored new)
      stored ;;;
    _save q stored ;;;
    ret (match spliced with
         | [t] => SpliceOne t
         | _ => SpliceMany spliced
         end).

(** *** remove *)

Inductive QueryItem :=
| ItemIndex (i : Z)
| ItemTrack (t : Track).

Inductive RemoveQuery :=
| QueryIndex (i : Z)
| QueryArray (items : list QueryItem)
| QueryTrack (t : Track).

(** Truthiness of an optional string: [undefined], [null] and the empty
    string are falsy. *)
Definition truthy (s : option string) : bool :=
  match s with
  | Some EmptyString | None => false
  | Some _ => true
  end.

(** [a === b].  It is only evaluated after [a] was found truthy, so that
    [null] and [undefined] need not be told apart. *)
Definition strict_eq (a b : option string) : bool :=
  match a, b with
  | Some x, Some y => String.eqb x y
  | None, None => true
  | _, _ => false
  end.

(** The six-way disjunction of [remove]: [t] is the query, [v] the
    candidate of the track list. *)
Definition matches (t v : Track) : bool :=
  truthy (encoded t) && strict_eq (encoded t) (encoded v)
  || truthy (info t ≫= identifier)
     && strict_eq (info t ≫= identifier) (info v ≫= identifier)
  || truthy (info t ≫= uri) && strict_eq (info t ≫= uri) (info v ≫= uri)
  || truthy (info t ≫= title) && strict_eq (info t ≫= title) (info v ≫= title)
  || truthy (info t ≫= isrc) && strict_eq (info t ≫= isrc) (info v ≫= isrc)
  || truthy (info t ≫= artworkUrl)
     && strict_eq (info t ≫= artworkUrl) (info v ≫= artworkUrl).

Definition is_number (t : QueryItem) : bool :=
  match t with ItemIndex _ => true | ItemTrack _ => false end.

Definition item_number (t : QueryItem) : option Z :=
  match t with ItemIndex i => Some i | ItemTrack _ => None end.

(** The predicate handed to [removeQueryTrack.find] for candidate [v] at
    position [i]. *)
Definition item_matches (i : nat) (v : Track) (t : QueryItem) : bool :=
  match t with
  | ItemIndex n => (n =? Z.of_nat i)%Z
  | ItemTrack t => matches t v
  end.

(** Truthiness of what [find] returned: [undefined] and the number [0] are
    falsy. *)
Definition found (r : option QueryItem) : bool :=
  match r with
  | Some (ItemIndex n) => negb (n =? 0)%Z
  | Some (ItemTrack _) => true
  | None => false
  end.

(** [for (const i of indices) if (tracks[i]) removed.push(...tracks.splice(i, 1))] *)
Fixpoint remove_each (tracks : loc) (indices : list Z) : M (list Track) :=
  match indices with
  | [] => ret []
  | i :: rest =>
      a <- read tracks ;;
      r <- match at_index a i with
           | Some _ => array_splice tracks i 1 []
           | None => ret []
           end ;;
      rs <- remove_each tracks rest ;;
      ret (r ++ rs)
  end.

(** [null], or [{ removed }]. *)
Definition remove (q : Queue) (removeQueryTrack : RemoveQuery)
  : M (option (list Track)) :=
  stored <- _load q ;;
  oldStored <- snapshot_if (is_function (cb_tracksRemoved q)) stored ;;
  match removeQueryTrack with
  | QueryIndex i =>
      a <- read (sq_tracks stored) ;;
      match at_index a i with
      | None => ret None
      | Some _ =>
          removed <- array_splice (sq_tracks stored) i 1 [] ;;
          notify_guarded (cb_tracksRemoved q)
            (fun new => TracksRemoved (q_guildId q) removed (PosIndex i)
                          oldStored new)
            stored ;;;
          _save q stored ;;;
          ret (Some removed)
      end
  | QueryArray items =>
      if forallb is_number items then
        removed <- remove_each (sq_tracks stored) (omap item_number items) ;;
        match removed with
        | [] => ret None
        | _ :: _ =>
            notify_guarded (cb_tracksRemoved q)
              (fun new => TracksRemoved (q_guildId q) removed
                            (PosIndices (omap item_number items)) oldStored new)
              stored ;;;
            _save q stored ;;;
            ret (Some removed)
        end
      else
        a <- read (sq_tracks stored) ;;
        let tracksToRemove :=
          List.filter (fun '(i, v) => found (List.find (item_matches i v) items))
            (imap (fun i v => (i, v)) a) in
        match tracksToRemove with
        | [] => ret None
        | _ :: _ =>
            removed <- remove_each (sq_tracks stored)
                         (map (fun iv => Z.of_nat (fst iv)) tracksToRemove) ;;
            notify_guarded (cb_tracksRemoved q)
              (fun new => TracksRemoved (q_guildId q) removed
                            (PosIndices
                               (map (fun iv => Z.of_nat (fst iv)) tracksToRemove))
                            oldStored new)
              stored ;;;
            _save q stored ;;;
            ret (Some removed)
        end
  | QueryTrack t =>
      a <- read (sq_tracks stored) ;;
      let toRemove := findIndex (matches t) a in
      if (toRemove <? 0)%Z then ret None
      else
        removed <- array_splice (sq_tracks stored) toRemove 1 [] ;;
        notify_guarded (cb_tracksRemoved q)
          (fun new => TracksRemoved (q_guildId q) removed (PosIndex toRemove)
                        oldStored new)
          stored ;;;
        _save q stored ;;;
        ret (Some removed)
  end.

(** ** Observations *)

Definition heap_size (w : World) : nat := length (w_heap w).

(** The contents of the array at [l], as [read] sees them. *)
Definition array_at (w : World) (l : loc) : list Track :=
  default [] (w_heap w !! l).

(** The lists [_load] finds for a guild. *)
Definition stored_tracks (g : string) (w : World) : list Track :=
  match w_data w !! g ≫= p_tracks with
  | Some l => array_at w l
  | None => []
  end.

Definition stored_previous (g : string) (w : World) : list Track :=
  match w_data w !! g ≫= p_previous with
  | Some l => array_at w l
  | None => []
  end.

(** The document of a guild, if any, holds arrays of the arena, and its two
    lists are two arrays. *)
Definition distinct_arrays (g : string) (w : World) : bool :=
  match w_data w !! g with
  | None => true
  | Some d =>
      match p_previous d, p_tracks d with
      | Some lp, Some lt =>
          negb (lp =? lt)%nat && (lp <? heap_size w)%nat
          && (lt <? heap_size w)%nat
      | Some lp, None => (lp <? heap_size w)%nat
      | None, Some lt => (lt <? heap_size w)%nat
      | None, None => true
      end
  end.

(** [c] started in [w] returns normally, with a result and a world that
    satisfy [post]. *)
Definition returns {A} (c : M A) (w : World) (post : A → World → Prop) : Prop :=
  ∃ a w', c w = (Ret a, w') ∧ post a w'.

(** Nothing was saved, no watcher was told, and every array of [w] reads as
    before. *)
Definition untouched (w w' : World) : Prop :=
  w_data w' = w_data w ∧ w_trace w' = w_trace w
  ∧ ∀ l, l < heap_size w → array_at w' l = array_at w l.

Definition is_set (e : Event) : bool :=
  match e with EvSet _ _ => true | EvNotify _ => false end.

(** The [set] calls of a trace. *)
Definition saves (tr : list Event) : list Event := List.filter is_set tr.

(** Exactly one more document reached the store, for guild [g]. *)
Definition saved_once (g : string) (w w' : World) : Prop :=
  ∃ stored, saves (w_trace w') = saves (w_trace w) ++ [EvSet g stored]
            ∧ w_data w' !! g = Some (stored_document stored).

(** ** Fixtures *)

Definition info_of (d : option JSNumber) (t : option string) : TrackInfo :=
  {| identifier := None; uri := None; title := t; isrc := None;
     artworkUrl := None; duration := d |}.

(** A resolved track with a handle, a title and a duration. *)
Definition track_of (e t : string) (d : Z) : Track :=
  {| capability := Resolved; encoded := Some e;
     info := Some (info_of (Some (Num d)) (Some t)) |}.

(** An unresolved track with a title only. *)
Definition unresolved_of (t : string) : Track :=
  {| capability := Unresolved; encoded := None;
     info := Some (info_of None (Some t)) |}.

Definition trackA : Track := track_of "A" "Alpha" 180000.
Definition trackB : Track := track_of "B" "Beta" 200000.
Definition trackC : Track := track_of "C" "Gamma" 240000.
Definition trackD : Track := track_of "D" "Delta" 60000.

(** The watcher of [myCustomWatcher.ts]: it logs to the console and
    returns. *)
Definition myCustomWatcher : QueueChangesWatcher :=
  {| tracksAdd := Some (fun _ => Normal);
     tracksRemoved := Some (fun _ => Normal);
     shuffled := Some (fun _ => Normal) |}.

(** A watcher whose callbacks all throw. *)
Definition brokenWatcher : QueueChangesWatcher :=
  {| tracksAdd := Some (fun _ => Abrupt WatcherError);
     tracksRemoved := Some (fun _ => Abrupt WatcherError);
     shuffled := Some (fun _ => Abrupt WatcherError) |}.

Definition options_of (cap : option Z) (watcher : option QueueChangesWatcher)
  : ManagerQueueOptions :=
  {| maxPreviousTracks := cap; queueChangesWatcher := watcher |}.

(** [new Queue(guildId, {}, new QueueSaver(options), options)], as a
    manager creates its queues. *)
Definition queue_for (guildId : string) (options : ManagerQueueOptions)
  : Outcome Queue :=
  Queue_new guildId None (Some (QueueSaver_new (Some options))) (Some options).

Definition queue_with (cap : Z) (watcher : option QueueChangesWatcher) : Queue :=
  {| q_current := None; q_maxPreviousTracks := cap; q_guildId := "guild";
     q_QueueSaver := Some {| saver_maxPreviousTracks := cap |};
     q_queueChanges := watcher |}.

Definition half : nat → Q := fun _ => (1 # 2)%Q.

(** A fresh [DefaultQueueStore]. *)
Definition empty_world : World :=
  {| w_heap := []; w_data := ∅; w_random := half; w_draws := 0; w_trace := [] |}.

(** A store that holds [tracks] and [previous] for ["guild"]. *)
Definition world_of (previous tracks : list Track) : World :=
  {| w_heap := [previous; tracks];
     w_data := {[ "guild" := {| p_current := None; p_previous := Some 0%nat;
                                p_tracks := Some 1%nat |} ]};
     w_random := half; w_draws := 0; w_trace := [] |}.

(** [v] inside [n] more arrays. *)
Fixpoint nested (n : nat) (v : Value) : Value :=
  match n with
  | O => v
  | S k => VArray [nested k v]
  end.

(** The fields [remove] compares, in the order of the source. *)
Inductive MatchField :=
| FEncoded
| FIdentifier
| FUri
| FTitle
| FIsrc
| FArtworkUrl.

Definition field_of (f : MatchField) (t : Track) : option string :=
  match f with
  | FEncoded => encoded t
  | FIdentifier => info t ≫= identifier
  | FUri => info t ≫= uri
  | FTitle => info t ≫= title
  | FIsrc => info t ≫= isrc
  | FArtworkUrl => info t ≫= artworkUrl
  end.

(** The step from [w] to [w'] saved nothing and drew no random number; the
    arena may have grown, and the arrays of [w] read as before. *)
Definition grows (w w' : World) : Prop :=
  w_data w' = w_data w ∧ w_random w' = w_random w ∧ w_draws w' = w_draws w
  ∧ saves (w_trace w') = saves (w_trace w)
  ∧ heap_size w ≤ heap_size w'
  ∧ ∀ l, l < heap_size w → array_at w' l = array_at w l.

(** What [_load] hands to a method of queue [q] started in [w]. *)
Definition loaded (q : Queue) (w : World) (stored : StoredQueue) (w1 : World)
  : Prop :=
  grows w w1 ∧ w_trace w1 = w_trace w
  ∧ (∀ l, array_at w1 l = array_at w l)
  ∧ array_at w1 (sq_tracks stored) = stored_tracks (q_guildId q) w
  ∧ array_at w1 (sq_previous stored) = stored_previous (q_guildId q) w
  ∧ sq_current stored = q_current q
  ∧ (distinct_arrays (q_guildId q) w = true →
     sq_previous stored ≠ sq_tracks stored
     ∧ sq_previous stored < heap_size w1
     ∧ sq_tracks stored < heap_size w1).

(** The track list after [add]: the batch goes in at [index] when that is a
    position of the list, and at the end otherwise. *)
Definition inserted (old batch : list Track) (index : option Z) : list Track :=
  match insertion_index index (length old) with
  | Some i => take (Z.to_nat i) old ++ batch ++ drop (Z.to_nat i) old
  | None => old ++ batch
  end.

(** The tracks of a flat list that [add] lets through. *)
Definition accepted (ts : list Track) : list Track :=
  List.filter isValid
    (List.filter (fun t => isTrack t || isUnresolvedTrack t) ts).

(** One of the six fields is present on the query and equal on the
    candidate. *)
Definition field_matches (f : MatchField) (t v : Track) : Prop :=
  truthy (field_of f t) = true ∧ field_of f t = field_of f v.

(** [t] sits [d] arrays deep inside the list [vs]. *)
Fixpoint occurs (t : Track) (d : nat) (vs : list Value) : Prop :=
  match d with
  | O => VTrack t ∈ vs
  | S d' => ∃ inner, VArray inner ∈ vs ∧ occurs t d' inner
  end.

(** What the removal loop of [remove] does to a list: every index is looked
    up in the list as the removals before it have left it. *)
Fixpoint remove_each_from (a : list Track) (indices : list Z)
  : list Track * list Track :=
  match indices with
  | [] => ([], a)
  | i :: rest =>
      match at_index a i with
      | Some _ =>
          let '(r, a1) := js_splice a i 1 [] in
          let '(rs, a2) := remove_each_from a1 rest in
          (r ++ rs, a2)
      | None => remove_each_from a rest
      end
  end.

(** A mutation that returned [null] saved nothing and left every array as
    it was; one that returned a result saved once. *)
Definition null_or_saved {A} (g : string) (w : World) (r : option A)
  (w' : World) : Prop :=
  match r with
  | None => grows w w'
  | Some _ => saved_once g w w'
  end.

(** ** The rest of the queue's methods *)

(** [QueueSaver.sync] *)
Definition QueueSaver_sync (guildId : string) : M (option PartialStoredQueue) :=
  QueueSaver_get guildId.

(** [a.slice(start, end)]; both ends are clamped like the start of
    [splice], a missing [end] is the length. *)
Definition js_slice {A} (a : list A) (start : Z) (end_ : option Z) : list A :=
  let len := Z.of_nat (length a) in
  let k := splice_start len start in
  let final := match end_ with
               | Some e => splice_start len e
               | None => len
               end in
  take (Z.to_nat (final - k)) (drop (Z.to_nat k) a).

(** [getTracksSlice]: [slice] makes a new array. *)
Definition getTracksSlice (q : Queue) (start : Z) (end_ : option Z) : M loc :=
  stored <- _load q ;;
  a <- read (sq_tracks stored) ;;
  alloc (js_slice a start end_).

Definition getPreviousTrack (q : Queue) (index : Z) : M (option Track) :=
  stored <- _load q ;;
  p <- read (sq_previous stored) ;;
  ret (at_index p index).

Definition findTrackIndex (q : Queue) (predicate : Track → bool) : M Z :=
  stored <- _load q ;;
  a <- read (sq_tracks stored) ;;
  ret (findIndex predicate a).

Definition with_current (q : Queue) (current : option Track) : Queue :=
  {| q_current := current; q_maxPreviousTracks := q_maxPreviousTracks q;
     q_guildId := q_guildId q; q_QueueSaver := q_QueueSaver q;
     q_queueChanges := q_queueChanges q |}.

(** [utils.sync(override = true, dontSyncCurrent = true)]; the queue comes
    back with the [current] it has afterwards. *)
Definition utils_sync (q : Queue) (override dontSyncCurrent : option bool)
  : M Queue :=
  let dontSyncCurrent := default true dontSyncCurrent in
  data <- with_saver q (QueueSaver_get (q_guildId q)) ;;
  match data with
  | None => throw NoDataError
  | Some d =>
      if negb dontSyncCurrent && negb (is_object (q_current q))
         && match p_current d with
            | Some t => isTrack t
            | None => false
            end
      then ret (with_current q (p_current d))
      else ret q
  end.

(** What [+] makes of durations: an IEEE 754 double.  The durations of this
    model are NaN or integers, and sums of these are NaN, an infinity (by
    overflow) or again integers. *)
Inductive JSDouble :=
| DNaN
| DInf (negative : bool)
| DFin (z : Z).

(** The double nearest to the integer [z]: below [2^53] in size it is [z]
    itself; above, [z] keeps its 53 leading bits, rounded to nearest with
    halfway cases going to the even neighbour, and what then needs an
    exponent beyond 1023 is an infinity. *)
Definition round_to_double (z : Z) : JSDouble :=
  let m := Z.abs z in
  if (m <? 2 ^ 53)%Z then DFin z
  else
    let e := (Z.log2 m - 52)%Z in
    let q := (m / 2 ^ e)%Z in
    let r := (m mod 2 ^ e)%Z in
    let half := (2 ^ (e - 1))%Z in
    let q' := if (r <? half)%Z then q
              else if (half <? r)%Z then (q + 1)%Z
              else if Z.even q then q else (q + 1)%Z in
    let m' := (q' * 2 ^ e)%Z in
    if (2 ^ 1024 <=? m')%Z then DInf (z <? 0)%Z else DFin (Z.sgn z * m').

Definition to_double (x : JSNumber) : JSDouble :=
  match x with
  | NaN => DNaN
  | Num z => round_to_double z
  end.

(** [x + y] on doubles. *)
Definition js_add (x y : JSDouble) : JSDouble :=
  match x, y with
  | DNaN, _ | _, DNaN => DNaN
  | DInf a, DInf b => if Bool.eqb a b then DInf a else DNaN
  | DInf a, DFin _ | DFin _, DInf a => DInf a
  | DFin a, DFin b => round_to_double (a + b)
  end.

(** [d || 0] *)
Definition or_zero (d : option JSNumber) : JSNumber :=
  if falsy_number d then Num 0 else default (Num 0) d.

(** [utils.totalDuration] *)
Definition utils_totalDuration (q : Queue) : M JSDouble :=
  stored <- _load q ;;
  a <- read (sq_tracks stored) ;;
  ret (fold_left
         (fun acc cur =>
            js_add acc (to_double (or_zero (info cur ≫= duration))))
         a (to_double (or_zero ((q_current q ≫= info) ≫= duration)))).

(** ** More observations *)

(** What [_save] leaves of a [previous] list under cap [cap]. *)
Definition truncate (cap : Z) (previous : list Track) : list Track :=
  if (Z.of_nat (length previous) >? cap)%Z
  then snd (js_splice previous cap (Z.of_nat (length previous)) [])
  else previous.

(** The duration a track counts for in [utils.totalDuration]. *)
Definition counted_duration (t : option Track) : Z :=
  match (t ≫= info) ≫= duration with
  | Some (Num z) => z
  | _ => 0%Z
  end.

(** [c], started anywhere, ends in a world related to the start by [R],
    whether it returns or throws. *)
Definition keeps {A} (R : World → World → Prop) (c : M A) : Prop :=
  ∀ w, R w (snd (c w)).

(** The documents of all guilds but [g] are as before. *)
Definition others_kept (g : string) (w w' : World) : Prop :=
  ∀ g', g' ≠ g → w_data w' !! g' = w_data w !! g'.

(** A queue without a saver. *)
Definition detached_queue (watcher : option QueueChangesWatcher) : Queue :=
  {| q_current := None; q_maxPreviousTracks := 25; q_guildId := "guild";
     q_QueueSaver := None; q_queueChanges := watcher |}.

(** The arrays a guild's document holds, if any. *)
Definition previous_array (g : string) (w : World) : option loc :=
  w_data w !! g ≫= p_previous.

Definition tracks_array (g : string) (w : World) : option loc :=
  w_data w !! g ≫= p_tracks.

(** Where the two arrays [_load] hands out come from: the document's own
    arrays where it has them, new ones otherwise. *)
Definition loaded_from (q : Queue) (w : World) (stored : StoredQueue) : Prop :=
  match previous_array (q_guildId q) w with
  | Some l => sq_previous stored = l
  | None => heap_size w ≤ sq_previous stored
  end
  ∧ match tracks_array (q_guildId q) w with
    | Some l => sq_tracks stored = l
    | None => heap_size w ≤ sq_tracks stored
    end.

(** The tracks a [splice] result carries. *)
Definition spliced (r : SpliceResult) : list Track :=
  match r with
  | SpliceOne t => [t]
  | SpliceMany ts => ts
  | SpliceNull | SpliceCount _ => []
  end.

(** The valid tracks among what [splice] was given to insert. *)
Definition batch_of (TrackOrTracks : option Value) : list Track :=
  match TrackOrTracks with
  | Some x => valid_tracks x
  | None => []
  end.

(** The elements of [a] whose position, counted from [off], is not among
    [indices]. *)
Fixpoint keep_from (off : nat) (a : list Track) (indices : list Z)
  : list Track :=
  match a with
  | [] => []
  | x :: rest =>
      if existsb (Z.eqb (Z.of_nat off)) indices
      then keep_from (S off) rest indices
      else x :: keep_from (S off) rest indices
  end.

Definition without_positions (a : list Track) (indices : list Z) : list Track :=
  keep_from 0 a indices.

(** Each index is smaller, or larger, than the one before it. *)
Fixpoint descending (indices : list Z) : bool :=
  match indices with
  | i :: (j :: _) as rest => (j <? i)%Z && descending rest
  | _ => true
  end.

Fixpoint ascending (indices : list Z) : bool :=
  match indices with
  | i :: (j :: _) as rest => (i <? j)%Z && ascending rest
  | _ => true
  end.

(** The [n]-th index, counted from [k], moved up by [n]. *)
Fixpoint shifted_from (k : Z) (indices : list Z) : list Z :=
  match indices with
  | [] => []
  | p :: rest => (p + k)%Z :: shifted_from (k + 1) rest
  end.

Definition shifted (indices : list Z) : list Z := shifted_from 0 indices.

(** The positions [remove] collects for an array query that is not made of
    numbers only. *)
Definition positions_to_remove (items : list QueryItem) (a : list Track)
  : list Z :=
  map (fun iv : nat * Track => Z.of_nat (fst iv))
    (List.filter (fun '(i, v) => found (List.find (item_matches i v) items))
       (imap (fun i v => (i, v)) a)).

(** What [remove] takes out of the list [a] and what it leaves. *)
Definition removal (a : list Track) (query : RemoveQuery)
  : list Track * list Track :=
  match query with
  | QueryIndex i =>
      match at_index a i with
      | Some _ => js_splice a i 1 []
      | None => ([], a)
      end
  | QueryArray items =>
      if forallb is_number items
      then remove_each_from a (omap item_number items)
      else remove_each_from a (positions_to_remove items a)
  | QueryTrack t =>
      if (findIndex (matches t) a <? 0)%Z then ([], a)
      else js_splice a (findIndex (matches t) a) 1 []
  end.

(** The positions, counted from [off], of the elements that satisfy [p]. *)
Fixpoint positions_from (off : nat) (p : Track → bool) (a : list Track)
  : list Z :=
  match a with
  | [] => []
  | v :: rest =>
      if p v then Z.of_nat off :: positions_from (S off) p rest
      else positions_from (S off) p rest
  end.

(** The positions of the tracks of [a] that match one of the queries. *)
Definition matching_positions (queries a : list Track) : list Z :=
  positions_from 0 (fun v => existsb (fun t => matches t v) queries) a.

(** The arrays the document of guild [g] holds in [w]. *)
Definition own_array (g : string) (w : World) (l : loc) : Prop :=
  previous_array g w = Some l ∨ tracks_array g w = Some l.

(** From [w] to [w'] nothing but the document of guild [g] and the two
    arrays that document held in [w] has changed: the documents of the
    other guilds are the same, no array is gone, and every other array of
    [w] reads as before. *)
Definition framed (g : string) (w w' : World) : Prop :=
  others_kept g w w'
  ∧ heap_size w ≤ heap_size w'
  ∧ ∀ l, l < heap_size w → ¬ own_array g w l → array_at w' l = array_at w l.

(** A computation of queue [q] that, however it ends, changes nothing but
    the queue's own document and the two arrays of that document. *)
Definition isolated (q : Queue) {A} (c : M A) : Prop :=
  keeps (framed (q_guildId q)) c.

(** An array a method of guild [g]'s queue, started in [w0], may write to:
    one of the document's own, or one that did not exist in [w0]. *)
Definition allowed (g : string) (w0 : World) (l : loc) : Prop :=
  l < heap_size w0 → own_array g w0 l.

(** The state of affairs while a method that started in [w0] has not saved
    yet: nothing foreign has changed and the store still holds the
    document it held in [w0]. *)
Definition before_save (g : string) (w0 w : World) : Prop :=
  framed g w0 w ∧ w_data w !! g = w_data w0 !! g.

(** [c] returns and keeps that state of affairs. *)
Definition steady (g : string) (w0 : World) {A} (c : M A) : Prop :=
  ∀ w, before_save g w0 w →
       ∃ a w1, c w = (Ret a, w1) ∧ before_save g w0 w1.

(** However [c] ends when started in [w], nothing foreign has changed
    since [w0]. *)
Definition settles (g : string) (w0 : World) {A} (c : M A) (w : World)
  : Prop :=
  framed g w0 (snd (c w)).

(** [c] changes nothing at all. *)
Definition inert {A} (c : M A) : Prop := ∀ w, snd (c w) = w.

(** ** Indices that are numbers, not only integers *)

(** [x < y] and [x >= y] on numbers: both are false when a side is NaN. *)
Definition js_lt (x y : JSNumber) : bool :=
  match x, y with
  | Num a, Num b => (a <? b)%Z
  | _, _ => false
  end.

Definition js_ge (x y : JSNumber) : bool :=
  match x, y with
  | Num a, Num b => (b <=? a)%Z
  | _, _ => false
  end.

(** The integer [splice] makes of its [start]: NaN becomes [0]. *)
Definition to_integer (x : JSNumber) : Z :=
  match x with
  | NaN => 0%Z
  | Num z => z
  end.

(** [a[index] = x].  With NaN for [index] the assignment creates the
    property ["NaN"] of the array object; its elements and its length stay
    as they are, and no method embedded here reads that property. *)
Definition assign_at (a : list Track) (index : JSNumber) (x : Track)
  : list Track :=
  match index with
  | Num z => set_index a z x
  | NaN => a
  end.

(** [moveTrack] and [replaceTrack] with the [number] arguments their
    signatures admit; on integers they are the methods above. *)
Definition moveTrack_number (q : Queue) (from to : JSNumber) : M unit :=
  stored <- _load q ;;
  a <- read (sq_tracks stored) ;;
  if js_lt from (Num 0) || js_ge from (Num (Z.of_nat (length a))) then ret tt
  else
    moved <- array_splice (sq_tracks stored) (to_integer from) 1 [] ;;
    match moved with
    | m :: _ => array_splice (sq_tracks stored) (to_integer to) 0 [m] ;;; ret tt
    | [] => ret tt
    end ;;;
    _save q stored.

Definition replaceTrack_number (q : Queue) (index : JSNumber) (track : Track)
  : M bool :=
  stored <- _load q ;;
  a <- read (sq_tracks stored) ;;
  if js_lt index (Num 0) || js_ge index (Num (Z.of_nat (length a)))
  then ret false
  else
    write (sq_tracks stored) (assign_at a index track) ;;;
    _save q stored ;;;
    ret true.
(** ** Reasoning about the monad *)

Lemma returns_ret {A} (a : A) (w : World) (post : A → World → Prop) :
  post a w → returns (ret a) w post.
Proof. intros H. exists a, w. split; [reflexivity | exact H]. Qed.

Lemma returns_bind {A B} (c : M A) (k : A → M B) (w : World)
  (post : B → World → Prop) :
  returns c w (fun a w1 => returns (k a) w1 post) → returns (bind c k) w post.
Proof.
  intros (a & w1 & Hc & b & w2 & Hk & Hpost).
  exists b, w2. split; [| exact Hpost].
  unfold bind. rewrite Hc. exact Hk.
Qed.

Lemma returns_weaken {A} (c : M A) (w : World) (P R : A → World → Prop) :
  returns c w P → (∀ a w', P a w' → R a w') → returns c w R.
Proof.
  intros (a & w' & Hc & HP) HPR. exists a, w'. split; [exact Hc | auto].
Qed.

Lemma returns_when (b : bool) (c : M unit) (w : World)
  (post : unit → World → Prop) :
  (b = true → returns c w post) → (b = false → post tt w) →
  returns (when b c) w post.
Proof.
  intros Ht Hf. destruct b; simpl.
  - apply Ht; reflexivity.
  - apply returns_ret, Hf; reflexivity.
Qed.

(** ** The arena *)

Lemma array_at_write (w : World) (l l' : loc) (a : list Track) :
  array_at (with_heap (fun h => <[l := a]> h) w) l'
  = if decide (l = l' ∧ l < heap_size w) then a else array_at w l'.
Proof.
  unfold array_at, heap_size, with_heap; simpl.
  case_decide as Hd.
  - destruct Hd as [-> Hlt]. by rewrite list_lookup_insert_eq.
  - destruct (decide (l = l')) as [-> | Hne].
    + rewrite list_insert_ge; [done | lia].
    + by rewrite list_lookup_insert_ne.
Qed.

Lemma array_at_alloc (w : World) (l : loc) (a : list Track) :
  array_at (with_heap (fun h => h ++ [a]) w) l
  = if decide (l = heap_size w) then a else array_at w l.
Proof.
  unfold array_at, heap_size, with_heap; simpl.
  case_decide as Hd.
  - subst l. by rewrite lookup_app_r, Nat.sub_diag.
  - destruct (decide (l < length (w_heap w))) as [Hlt | Hge].
    + by rewrite lookup_app_l.
    + rewrite !lookup_ge_None_2; [done | lia |].
      rewrite length_app; simpl; lia.
Qed.

Lemma array_at_dangling (w : World) (l : loc) :
  heap_size w ≤ l → array_at w l = [].
Proof.
  intros H. unfold array_at, heap_size in *. by rewrite lookup_ge_None_2.
Qed.

Lemma read_returns (l : loc) (w : World) (post : list Track → World → Prop) :
  post (array_at w l) w → returns (read l) w post.
Proof. intros H. exists (array_at w l), w. split; [reflexivity | exact H]. Qed.

Lemma write_returns (l : loc) (a : list Track) (w : World)
  (post : unit → World → Prop) :
  post tt (with_heap (fun h => <[l := a]> h) w) → returns (write l a) w post.
Proof. intros H. eexists tt, _. split; [reflexivity | exact H]. Qed.

Lemma alloc_returns (a : list Track) (w : World) (post : loc → World → Prop) :
  post (heap_size w) (with_heap (fun h => h ++ [a]) w) →
  returns (alloc a) w post.
Proof. intros H. eexists _, _. split; [reflexivity | exact H]. Qed.

Lemma heap_size_write (w : World) (l : loc) (a : list Track) :
  heap_size (with_heap (fun h => <[l := a]> h) w) = heap_size w.
Proof. unfold heap_size, with_heap; simpl. apply length_insert. Qed.

Lemma heap_size_alloc (w : World) (a : list Track) :
  heap_size (with_heap (fun h => h ++ [a]) w) = S (heap_size w).
Proof. unfold heap_size, with_heap; simpl. rewrite length_app; simpl; lia. Qed.

Lemma grows_refl (w : World) : grows w w.
Proof. unfold grows. repeat split; auto. Qed.

Lemma grows_trans (w1 w2 w3 : World) : grows w1 w2 → grows w2 w3 → grows w1 w3.
Proof.
  intros (Hd1 & Hr1 & Hn1 & Hs1 & Hh1 & Ha1) (Hd2 & Hr2 & Hn2 & Hs2 & Hh2 & Ha2).
  unfold grows. repeat split; try congruence; try lia.
  intros l Hl. rewrite Ha2 by lia. by apply Ha1.
Qed.

Lemma grows_alloc (w : World) (a : list Track) :
  grows w (with_heap (fun h => h ++ [a]) w).
Proof.
  unfold grows. repeat split; auto.
  - rewrite heap_size_alloc. lia.
  - intros l Hl. rewrite array_at_alloc. case_decide; [lia | done].
Qed.

(** Arithmetic on arena sizes. *)
Ltac heap_lia :=
  rewrite ?heap_size_alloc, ?heap_size_write in *;
  unfold heap_size in *; simpl in *;
  rewrite ?length_app in *; simpl in *; lia.

(** ** Methods of a queue with a saver

    From here on [q] is a queue that was given a [QueueSaver]. *)

Section Saver.

Context (q : Queue) (s : QueueSaver) (Hs : q_QueueSaver q = Some s).

(** *** Loading *)

Lemma load_returns (w : World) : returns (_load q) w (loaded q w).
Proof.
  unfold returns, loaded, _load, with_saver, QueueSaver_get,
    DefaultQueueStore_get, DefaultQueueStore_parse, bind, ret.
  rewrite Hs. unfold stored_tracks, stored_previous, distinct_arrays.
  destruct (w_data w !! q_guildId q) as [[c [lp|] [lt|]]|]; simpl.
  - eexists _, w. split; [reflexivity |]. split; [apply grows_refl |].
    do 5 (split; [done |]). intros H.
    apply andb_prop in H as [H Ht]. apply andb_prop in H as [Hne Hp].
    apply negb_true_iff, Nat.eqb_neq in Hne.
    apply Nat.ltb_lt in Hp, Ht. auto.
  - eexists _, _. split; [reflexivity |]. split; [apply grows_alloc |].
    simpl. split; [done |]. split.
    { intros l. rewrite array_at_alloc. case_decide; [| done].
      subst. symmetry. by apply array_at_dangling. }
    split. { rewrite array_at_alloc. by case_decide. }
    split.
    { rewrite array_at_alloc. case_decide as Hd; [| done].
      rewrite Hd. symmetry. by apply array_at_dangling. }
    split; [done |]. intros Hlt. apply Nat.ltb_lt in Hlt.
    heap_lia.
  - eexists _, _. split; [reflexivity |]. split; [apply grows_alloc |].
    simpl. split; [done |]. split.
    { intros l. rewrite array_at_alloc. case_decide; [| done].
      subst. symmetry. by apply array_at_dangling. }
    split.
    { rewrite array_at_alloc. case_decide as Hd; [| done].
      rewrite Hd. symmetry. by apply array_at_dangling. }
    split. { rewrite array_at_alloc. by case_decide. }
    split; [done |]. intros Hlt. apply Nat.ltb_lt in Hlt.
    heap_lia.
  - eexists _, _. split; [reflexivity |].
    split. { eapply grows_trans; apply grows_alloc. }
    simpl. split; [done |].
    assert (Hall : ∀ l, array_at
       (with_heap (fun h => h ++ [[]]) (with_heap (fun h => h ++ [[]]) w)) l
       = array_at w l).
    { intros l. rewrite !array_at_alloc, heap_size_alloc.
      repeat case_decide; try done; symmetry; apply array_at_dangling; heap_lia. }
    split; [exact Hall |].
    split. { rewrite Hall. apply array_at_dangling. heap_lia. }
    split. { rewrite Hall. by apply array_at_dangling. }
    split; [done |]. intros _. heap_lia.
  - eexists _, _. split; [reflexivity |].
    split. { eapply grows_trans; apply grows_alloc. }
    simpl. split; [done |].
    assert (Hall : ∀ l, array_at
       (with_heap (fun h => h ++ [[]]) (with_heap (fun h => h ++ [[]]) w)) l
       = array_at w l).
    { intros l. rewrite !array_at_alloc, heap_size_alloc.
      repeat case_decide; try done; symmetry; apply array_at_dangling; heap_lia. }
    split; [exact Hall |].
    split. { rewrite !array_at_alloc, heap_size_alloc. repeat case_decide; done || heap_lia. }
    split. { rewrite !array_at_alloc, heap_size_alloc. repeat case_decide; done || heap_lia. }
    split; [done |]. intros _. heap_lia.
Qed.

(** *** Snapshots and notifications *)

Lemma snapshot_returns (stored : StoredQueue) (w : World) :
  returns (_snapshot stored) w (fun snap w1 =>
    grows w w1 ∧ w_trace w1 = w_trace w
    ∧ sq_current snap = sq_current stored
    ∧ sq_previous snap = heap_size w
    ∧ sq_tracks snap = S (heap_size w)
    ∧ heap_size w1 = S (S (heap_size w))
    ∧ (sq_previous stored < heap_size w →
       array_at w1 (sq_previous snap) = array_at w (sq_previous stored))
    ∧ (sq_tracks stored < heap_size w →
       array_at w1 (sq_tracks snap) = array_at w (sq_tracks stored))).
Proof.
  unfold returns, _snapshot, bind, read, alloc, ret.
  eexists _, _. split; [reflexivity |]. simpl.
  split. { eapply grows_trans; apply grows_alloc. }
  split; [done |]. split; [done |]. split; [done |].
  split. { heap_lia. }
  split. { heap_lia. }
  split.
  - intros Hlt. rewrite !array_at_alloc, heap_size_alloc.
    repeat case_decide; try done; heap_lia.
  - intros Hlt. rewrite !array_at_alloc, heap_size_alloc.
    case_decide as Hd; [| exfalso; apply Hd; heap_lia].
    unfold array_at. rewrite lookup_app_l by done. done.
Qed.

Lemma snapshot_if_returns (cond : bool) (stored : StoredQueue) (w : World) :
  returns (snapshot_if cond stored) w (fun _ w1 =>
    grows w w1 ∧ w_trace w1 = w_trace w).
Proof.
  unfold snapshot_if. destruct cond.
  - apply returns_bind.
    eapply returns_weaken; [apply snapshot_returns |].
    intros snap w1 (Hg & Ht & _). by apply returns_ret.
  - apply returns_ret. split; [apply grows_refl | done].
Qed.

Lemma saves_app (tr1 tr2 : list Event) : saves (tr1 ++ tr2) = saves tr1 ++ saves tr2.
Proof. unfold saves. apply List.filter_app. Qed.

Lemma grows_log_notify (w : World) (n : Notification) :
  grows w (log (EvNotify n) w).
Proof.
  unfold grows, log; simpl. repeat split; auto.
  rewrite saves_app. simpl. by rewrite app_nil_r.
Qed.

Lemma notify_returns (cb : option (Notification → Completion))
  (event : StoredQueue → Notification) (stored : StoredQueue) (w : World) :
  (∀ f n, cb = Some f → f n = Normal) →
  returns (notify cb event stored) w (fun _ w1 => grows w w1).
Proof.
  intros Hcb. unfold notify. destruct cb as [f |].
  - apply returns_bind.
    eapply returns_weaken; [apply snapshot_returns |].
    intros snap w1 (Hg & _). unfold returns, call.
    rewrite (Hcb f (event snap) eq_refl).
    eexists _, _. split; [reflexivity |].
    eapply grows_trans; [exact Hg | apply grows_log_notify].
  - apply returns_ret, grows_refl.
Qed.

(** A guarded notification returns whatever the callback does. *)
Lemma notify_guarded_returns (cb : option (Notification → Completion))
  (event : StoredQueue → Notification) (stored : StoredQueue) (w : World) :
  returns (notify_guarded cb event stored) w (fun _ w1 => grows w w1).
Proof.
  unfold notify_guarded. destruct cb as [f |].
  - destruct (snapshot_returns stored w) as (snap & w1 & Hsnap & Hg & _).
    unfold returns, try_catch, bind. rewrite Hsnap. unfold call.
    destruct (f (event snap)); eexists _, _; (split; [reflexivity |]);
      (eapply grows_trans; [exact Hg | apply grows_log_notify]).
  - apply returns_ret, grows_refl.
Qed.

(** What a watcher is handed as [newStoredQueue]: two arrays made for the
    call, which read like the live lists at the time of the call. *)
Lemma notify_guarded_logs (f : Notification → Completion)
  (event : StoredQueue → Notification) (stored : StoredQueue) (w : World) :
  sq_previous stored < heap_size w → sq_tracks stored < heap_size w →
  returns (notify_guarded (Some f) event stored) w (fun _ w' =>
    ∃ new, w_trace w' = w_trace w ++ [EvNotify (event new)]
           ∧ heap_size w ≤ sq_previous new ∧ heap_size w ≤ sq_tracks new
           ∧ array_at w' (sq_previous new) = array_at w (sq_previous stored)
           ∧ array_at w' (sq_tracks new) = array_at w (sq_tracks stored)
           ∧ sq_current new = sq_current stored).
Proof.
  intros Hp Ht.
  destruct (snapshot_returns stored w)
    as (snap & w1 & Hsnap & Hg & Htr & Hc & Hlp & Hlt & Hsz & Hcp & Hct).
  unfold returns, notify_guarded, try_catch, bind. rewrite Hsnap. unfold call.
  exists tt. eexists. split; [by destruct (f (event snap)) |].
  exists snap. simpl. rewrite Htr.
  split; [done |]. split; [lia |]. split; [lia |].
  split; [by apply Hcp |]. split; [by apply Hct | done].
Qed.

(** ** Array.prototype.splice *)

Lemma splice_truncate {A} (a : list A) (cap : Z) :
  (0 ≤ cap)%Z → (cap < Z.of_nat (length a))%Z →
  snd (js_splice a cap (Z.of_nat (length a)) []) = take (Z.to_nat cap) a.
Proof.
  intros H0 Hlt. unfold js_splice, splice_start, splice_count; simpl.
  destruct (Z.ltb_spec cap 0); [lia |].
  rewrite Z.min_l by lia. rewrite Z.max_l by lia. rewrite Z.min_r by lia.
  rewrite drop_ge; [by rewrite app_nil_r | lia].
Qed.

(** Inserting without deleting, at a position inside the array. *)
Lemma splice_insert {A} (a items : list A) (i : Z) :
  (0 ≤ i)%Z → (i ≤ Z.of_nat (length a))%Z →
  js_splice a i 0 items
  = ([], take (Z.to_nat i) a ++ items ++ drop (Z.to_nat i) a).
Proof.
  intros H0 Hle. unfold js_splice, splice_start, splice_count.
  destruct (Z.ltb_spec i 0); [lia |].
  rewrite Z.min_l by lia. rewrite Z.max_l by lia. rewrite Z.min_l by lia.
  simpl. by rewrite Nat.add_0_r.
Qed.

(** Deleting one element at a position inside the array. *)
Lemma splice_delete_one {A} (a : list A) (i : Z) (x : A) :
  at_index a i = Some x →
  js_splice a i 1 [] = ([x], take (Z.to_nat i) a ++ drop (S (Z.to_nat i)) a).
Proof.
  unfold at_index. destruct (Z.ltb_spec i 0) as [| H0]; [done |].
  intros Hx. pose proof (lookup_lt_Some _ _ _ Hx) as Hlt.
  unfold js_splice, splice_start, splice_count.
  destruct (Z.ltb_spec i 0); [lia |].
  rewrite Z.min_l by lia. rewrite Z.max_l by lia. rewrite Z.min_l by lia.
  simpl. f_equal.
  - rewrite (drop_S _ _ _ Hx). simpl. by rewrite take_0.
  - f_equal. f_equal. lia.
Qed.

(** ** Array operations in the arena *)

Lemma array_length_returns (l : loc) (w : World) (post : nat → World → Prop) :
  post (length (array_at w l)) w → returns (array_length l) w post.
Proof.
  intros H. unfold array_length. apply returns_bind, read_returns.
  by apply returns_ret.
Qed.

Lemma array_splice_returns (l : loc) (start deleteCount : Z)
  (items : list Track) (w : World) (post : list Track → World → Prop) :
  post (fst (js_splice (array_at w l) start deleteCount items))
    (with_heap
       (fun h => <[l := snd (js_splice (array_at w l) start deleteCount items)]> h)
       w) →
  returns (array_splice l start deleteCount items) w post.
Proof.
  intros H. unfold array_splice. apply returns_bind, read_returns.
  destruct (js_splice (array_at w l) start deleteCount items) as [removed rest].
  apply returns_bind, write_returns. by apply returns_ret.
Qed.

Lemma array_swap_returns (l : loc) (i j : Z) (w : World)
  (post : unit → World → Prop) :
  post tt (with_heap (fun h => <[l := swap_index (array_at w l) i j]> h) w) →
  returns (array_swap l i j) w post.
Proof.
  intros H. unfold array_swap. apply returns_bind, read_returns.
  by apply write_returns.
Qed.

Lemma array_push_returns (l : loc) (items : list Track) (w : World)
  (post : unit → World → Prop) :
  post tt (with_heap (fun h => <[l := array_at w l ++ items]> h) w) →
  returns (array_push l items) w post.
Proof.
  intros H. unfold array_push. apply returns_bind, read_returns.
  by apply write_returns.
Qed.

Lemma array_unshift_returns (l : loc) (item : Track) (w : World)
  (post : unit → World → Prop) :
  post tt (with_heap (fun h => <[l := item :: array_at w l]> h) w) →
  returns (array_unshift l item) w post.
Proof.
  intros H. unfold array_unshift. apply returns_bind, read_returns.
  by apply write_returns.
Qed.

Lemma with_saver_returns {A} (c : M A) (w : World) (post : A → World → Prop) :
  returns c w post → returns (with_saver q c) w post.
Proof. intros H. unfold with_saver. by rewrite Hs. Qed.

(** ** Saving *)

Lemma save_returns (stored : StoredQueue) (w : World) :
  returns (_save q stored) w (fun _ w' =>
    w_data w' = <[q_guildId q := stored_document stored]> (w_data w)
    ∧ w_trace w' = w_trace w ++ [EvSet (q_guildId q) stored]
    ∧ w_random w' = w_random w ∧ w_draws w' = w_draws w
    ∧ heap_size w' = heap_size w
    ∧ (∀ l, l ≠ sq_previous stored → array_at w' l = array_at w l)
    ∧ ((0 ≤ q_maxPreviousTracks q)%Z →
       array_at w' (sq_previous stored)
       = take (Z.to_nat (q_maxPreviousTracks q))
           (array_at w (sq_previous stored)))).
Proof.
  unfold _save.
  apply returns_bind, read_returns.
  apply returns_bind, returns_when.
  - intros Hgt. apply Z.gtb_lt in Hgt.
    apply returns_bind, array_splice_returns. apply returns_ret.
    apply returns_bind, with_saver_returns.
    eexists true, _. split; [reflexivity |].
    apply returns_ret. simpl.
    do 4 (split; [done |]).
    split. { apply heap_size_write. }
    split.
    + intros l Hl. etransitivity; [apply array_at_write |].
      case_decide as Hd; [| done]. destruct Hd; congruence.
    + intros H0.
      assert (Hin : sq_previous stored < heap_size w).
      { destruct (decide (sq_previous stored < heap_size w)); [done |].
        rewrite array_at_dangling in Hgt by lia. simpl in Hgt. lia. }
      etransitivity; [apply array_at_write |].
      case_decide as Hd; [| exfalso; apply Hd; done].
      apply splice_truncate; lia.
  - intros Hle. rewrite Z.gtb_ltb in Hle. apply Z.ltb_ge in Hle.
    apply returns_bind, with_saver_returns.
    eexists true, _. split; [reflexivity |].
    apply returns_ret. simpl.
    do 5 (split; [done |]). split; [done |]. intros _.
    symmetry. apply take_ge.
    change (length (array_at w (sq_previous stored))
            ≤ Z.to_nat (q_maxPreviousTracks q)).
    lia.
Qed.

Lemma save_saved_once (stored : StoredQueue) (w0 w : World) :
  saves (w_trace w) = saves (w_trace w0) →
  returns (_save q stored) w (fun _ w' => saved_once (q_guildId q) w0 w').
Proof.
  intros Htr.
  eapply returns_weaken; [apply (save_returns stored w) |].
  intros _ w' (Hd & Ht & _). exists stored. split.
  - rewrite Ht, saves_app, Htr. reflexivity.
  - rewrite Hd. apply lookup_insert_eq.
Qed.

Lemma loaded_untouched (w : World) (stored : StoredQueue) (w1 : World) :
  loaded q w stored w1 → untouched w w1.
Proof.
  intros ((Hd & _ & _ & _ & _ & Ha) & Ht & _). unfold untouched. auto.
Qed.

Lemma loaded_saves (w : World) (stored : StoredQueue) (w1 : World) :
  loaded q w stored w1 → saves (w_trace w1) = saves (w_trace w).
Proof. intros (_ & Ht & _). by rewrite Ht. Qed.

(** ** The common tail of a mutation: notify, then save *)

Lemma save_then (stored : StoredQueue) (w0 w : World) {A} (k : M A)
  (post : A → World → Prop) :
  sq_previous stored ≠ sq_tracks stored →
  saves (w_trace w) = saves (w_trace w0) →
  (∀ w', stored_tracks (q_guildId q) w' = array_at w (sq_tracks stored) →
         array_at w' (sq_tracks stored) = array_at w (sq_tracks stored) →
         saved_once (q_guildId q) w0 w' →
         returns k w' post) →
  returns (_save q stored ;;; k) w post.
Proof.
  intros Hne Htr Hk. apply returns_bind.
  eapply returns_weaken; [apply (save_returns stored w) |].
  intros u w' (Hd & Ht & _ & _ & _ & Hframe & _).
  assert (Harr : array_at w' (sq_tracks stored) = array_at w (sq_tracks stored)).
  { apply Hframe. congruence. }
  apply Hk.
  - unfold stored_tracks. rewrite Hd, lookup_insert_eq. simpl. exact Harr.
  - exact Harr.
  - exists stored. split.
    + rewrite Ht, saves_app, Htr. reflexivity.
    + rewrite Hd. apply lookup_insert_eq.
Qed.

Lemma grows_then {A} (c : M unit) (w : World) (k : M A)
  (post : A → World → Prop) :
  returns c w (fun _ w1 => grows w w1) →
  (∀ w1, grows w w1 → returns k w1 post) →
  returns (c ;;; k) w post.
Proof.
  intros Hc Hk. apply returns_bind.
  eapply returns_weaken; [exact Hc |]. intros u w1 Hg. by apply Hk.
Qed.

Lemma notify_guarded_then_save (stored : StoredQueue) (w0 w : World)
  (cb : option (Notification → Completion))
  (event : StoredQueue → Notification) {A} (k : M A)
  (post : A → World → Prop) :
  sq_previous stored ≠ sq_tracks stored →
  sq_tracks stored < heap_size w →
  saves (w_trace w) = saves (w_trace w0) →
  (∀ w', stored_tracks (q_guildId q) w' = array_at w (sq_tracks stored) →
         array_at w' (sq_tracks stored) = array_at w (sq_tracks stored) →
         saved_once (q_guildId q) w0 w' →
         returns k w' post) →
  returns (notify_guarded cb event stored ;;; _save q stored ;;; k) w post.
Proof.
  intros Hne Hlt Htr Hk.
  apply grows_then; [apply notify_guarded_returns |].
  intros w1 (_ & _ & _ & Hsv & _ & Harr).
  apply (save_then stored w0); [done | congruence |].
  intros w' H1 H2 H3. rewrite Harr in H1, H2 by done. by apply Hk.
Qed.

Lemma notify_then_save (stored : StoredQueue) (w0 w : World)
  (cb : option (Notification → Completion))
  (event : StoredQueue → Notification) {A} (k : M A)
  (post : A → World → Prop) :
  (∀ f n, cb = Some f → f n = Normal) →
  sq_previous stored ≠ sq_tracks stored →
  sq_tracks stored < heap_size w →
  saves (w_trace w) = saves (w_trace w0) →
  (∀ w', stored_tracks (q_guildId q) w' = array_at w (sq_tracks stored) →
         array_at w' (sq_tracks stored) = array_at w (sq_tracks stored) →
         saved_once (q_guildId q) w0 w' →
         returns k w' post) →
  returns (notify cb event stored ;;; _save q stored ;;; k) w post.
Proof.
  intros Hcb Hne Hlt Htr Hk.
  apply grows_then; [by apply notify_returns |].
  intros w1 (_ & _ & _ & Hsv & _ & Harr).
  apply (save_then stored w0); [done | congruence |].
  intros w' H1 H2 H3. rewrite Harr in H1, H2 by done. by apply Hk.
Qed.

(** A snapshot, if one is taken, leaves the loaded arrays alone. *)
Lemma snapshot_if_then (cond : bool) (stored : StoredQueue) (w : World)
  {A} (k : option StoredQueue → M A) (post : A → World → Prop) :
  (∀ old w1, grows w w1 → w_trace w1 = w_trace w → returns (k old) w1 post) →
  returns (old <- snapshot_if cond stored ;; k old) w post.
Proof.
  intros Hk. apply returns_bind.
  eapply returns_weaken; [apply snapshot_if_returns |].
  intros old w1 (Hg & Ht). by apply Hk.
Qed.

(** ** add *)

Lemma insertion_index_Some (index : option Z) (len : nat) (i : Z) :
  insertion_index index len = Some i → (0 ≤ i < Z.of_nat len)%Z.
Proof.
  unfold insertion_index. destruct index as [j |]; [| done].
  destruct (Z.leb_spec 0 j); simpl; [| done].
  destruct (Z.ltb_spec j (Z.of_nat len)); [| done].
  intros [= <-]. lia.
Qed.

(** [add] always returns, whatever the watcher does: it saves once, and the
    list it leaves is the old one with the valid tracks inserted. *)
Lemma add_returns (w : World) (TrackOrTracks : Value) (index : option Z) :
  distinct_arrays (q_guildId q) w = true →
  returns (add q TrackOrTracks index) w (fun n w' =>
    stored_tracks (q_guildId q) w'
    = inserted (stored_tracks (q_guildId q) w) (valid_tracks TrackOrTracks) index
    ∧ n = length (stored_tracks (q_guildId q) w')
    ∧ saved_once (q_guildId q) w w').
Proof.
  intros Hwf. unfold add.
  apply returns_bind.
  eapply returns_weaken; [apply (load_returns w) |].
  intros stored w1 Hl.
  pose proof (loaded_saves _ _ _ Hl) as Hsv.
  destruct Hl as (Hg & Htr & Hall & Ht & Hp & Hc & Hd).
  destruct (Hd Hwf) as (Hne & Hlp & Hlt).
  apply returns_bind, array_length_returns. rewrite Ht. unfold inserted.
  destruct (insertion_index index (length (stored_tracks (q_guildId q) w)))
    as [i |] eqn:Hi.
  - apply insertion_index_Some in Hi.
    apply snapshot_if_then. intros old w2 Hg2 Htr2.
    destruct Hg2 as (_ & _ & _ & Hsv2 & Hsz2 & Harr2).
    apply returns_bind, array_splice_returns.
    apply (notify_guarded_then_save stored w); try done.
    { rewrite heap_size_write. lia. }
    { simpl. congruence. }
    intros w' H1 H2 H3. apply array_length_returns.
    rewrite array_at_write in H1, H2.
    case_decide as Hdec; [| exfalso; apply Hdec; split; [done | lia]].
    rewrite Harr2, Ht in H1, H2 by done.
    rewrite splice_insert in H1, H2 by lia. simpl in H1, H2.
    rewrite H2. rewrite H1. auto.
  - apply snapshot_if_then. intros old w2 Hg2 Htr2.
    destruct Hg2 as (_ & _ & _ & Hsv2 & Hsz2 & Harr2).
    apply returns_bind, array_push_returns.
    apply returns_bind, array_length_returns.
    apply (notify_guarded_then_save stored w); try done.
    { rewrite heap_size_write. lia. }
    { simpl. congruence. }
    intros w' H1 H2 H3. apply array_length_returns.
    rewrite array_at_write in H1, H2.
    case_decide as Hdec; [| exfalso; apply Hdec; split; [done | lia]].
    rewrite Harr2, Ht in H1, H2 by done.
    rewrite H2. rewrite H1. auto.
Qed.

(** ** Swapping two positions *)

Lemma insert_head_perm {A} (a : list A) (j : nat) (x y : A) :
  a !! j = Some y → y :: <[j := x]> a ≡ₚ x :: a.
Proof.
  revert j. induction a as [| h t IH]; intros j Hj; [done |].
  destruct j as [| j]; simpl in *.
  - injection Hj as ->. apply perm_swap.
  - rewrite (perm_swap h y). rewrite (IH j Hj). apply perm_swap.
Qed.

Lemma insert_swap_perm {A} (a : list A) (i j : nat) (x y : A) :
  a !! i = Some x → a !! j = Some y → <[j := x]> (<[i := y]> a) ≡ₚ a.
Proof.
  revert i j. induction a as [| h t IH]; intros i j Hi Hj; [done |].
  destruct i as [| i], j as [| j]; simpl in *.
  - by injection Hi as ->.
  - injection Hi as ->. by apply insert_head_perm.
  - injection Hj as ->. by apply insert_head_perm.
  - f_equiv. by apply IH.
Qed.

Lemma swap_index_perm {A} (a : list A) (i j : Z) : swap_index a i j ≡ₚ a.
Proof.
  unfold swap_index.
  destruct (at_index a j) as [aj |] eqn:Hj; [| done].
  destruct (at_index a i) as [ai |] eqn:Hi; [| done].
  unfold at_index, set_index in *.
  destruct (Z.ltb_spec i 0); [done |]. destruct (Z.ltb_spec j 0); [done |].
  by apply insert_swap_perm.
Qed.

Lemma swap_index_two {A} (a b : A) : swap_index [a; b] 0 1 = [b; a].
Proof. reflexivity. Qed.

(** ** Math.random *)

(** For [r] in [[0, 1)], [floor(r * (i + 1))] is one of [0 .. i]. *)
Lemma random_index_in_range (r : Q) (i : nat) :
  (0 <= r)%Q → (r < 1)%Q →
  (0 ≤ Math_floor (r * inject_Z (Z.of_nat i + 1))%Q ≤ Z.of_nat i)%Z.
Proof.
  intros H0 H1. unfold Math_floor.
  assert (Hpos : (0 < inject_Z (Z.of_nat i + 1))%Q).
  { change 0%Q with (inject_Z 0). rewrite <- Zlt_Qlt. lia. }
  split.
  - transitivity (Qfloor (inject_Z 0)); [rewrite Qfloor_Z; lia |].
    apply Qfloor_resp_le. change (inject_Z 0) with 0%Q.
    apply Qmult_le_0_compat; [done |]. by apply Qlt_le_weak.
  - apply Z.lt_succ_r. rewrite <- Z.add_1_r. rewrite Zlt_Qlt.
    eapply Qle_lt_trans; [apply Qfloor_le |].
    rewrite <- (Qmult_1_l (inject_Z (Z.of_nat i + 1))) at 2.
    by apply Qmult_lt_compat_r.
Qed.

(** ** shuffle *)

Lemma Math_random_returns (w : World) (post : Q → World → Prop) :
  post (w_random w (w_draws w))
    {| w_heap := w_heap w; w_data := w_data w; w_random := w_random w;
       w_draws := S (w_draws w); w_trace := w_trace w |} →
  returns Math_random w post.
Proof. intros H. eexists _, _. split; [reflexivity | exact H]. Qed.

(** What a rearrangement of the array at [l] leaves alone. *)
Lemma shuffle_loop_returns (l : loc) (i : nat) (w : World) :
  returns (shuffle_loop l i) w (fun _ w' =>
    w_data w' = w_data w ∧ w_trace w' = w_trace w
    ∧ heap_size w' = heap_size w
    ∧ array_at w' l ≡ₚ array_at w l
    ∧ ∀ l', l' ≠ l → array_at w' l' = array_at w l').
Proof.
  revert w. induction i as [| i IH]; intros w.
  - apply returns_ret. auto.
  - cbn [shuffle_loop].
    apply returns_bind, Math_random_returns.
    apply returns_bind, array_swap_returns.
    eapply returns_weaken; [apply IH |].
    intros _ w' (Hd & Ht & Hh & Hp & Hf). simpl in *.
    split; [done |]. split; [done |].
    split. { rewrite Hh. apply length_insert. }
    split.
    + rewrite Hp.
      match goal with
      | |- array_at ?w1 l ≡ₚ _ =>
          change (array_at w1 l)
            with (array_at (with_heap
                   (fun h => <[l := swap_index (array_at w l) (Z.of_nat (S i))
                      (Math_floor (w_random w (w_draws w)
                                   * inject_Z (Z.of_nat (S i) + 1))%Q)]> h) w) l)
      end.
      rewrite array_at_write. case_decide; [apply swap_index_perm | done].
    + intros l' Hne. rewrite (Hf l' Hne).
      unfold array_at; simpl. by rewrite list_lookup_insert_ne.
Qed.

Lemma rearrange_returns (l : loc) (w : World) :
  returns (if (length (array_at w l) =? 2)%nat then array_swap l 0 1
           else shuffle_loop l (length (array_at w l) - 1)) w
    (fun _ w' =>
       w_data w' = w_data w ∧ w_trace w' = w_trace w
       ∧ heap_size w' = heap_size w
       ∧ array_at w' l ≡ₚ array_at w l
       ∧ (∀ a b, array_at w l = [a; b] → array_at w' l = [b; a])
       ∧ ∀ l', l' ≠ l → array_at w' l' = array_at w l').
Proof.
  destruct (Nat.eqb_spec (length (array_at w l)) 2) as [H2 | Hn2].
  - apply array_swap_returns. simpl.
    split; [done |]. split; [done |]. split; [apply heap_size_write |].
    assert (Hin : l < heap_size w).
    { destruct (decide (l < heap_size w)); [done |].
      rewrite array_at_dangling in H2 by lia. done. }
    rewrite array_at_write. case_decide as Hd; [| exfalso; by apply Hd].
    split; [apply swap_index_perm |]. split.
    + intros a b ->. reflexivity.
    + intros l' Hne. rewrite array_at_write. case_decide as Hd'; [| done].
      destruct Hd'; congruence.
  - eapply returns_weaken; [apply shuffle_loop_returns |].
    intros _ w' (Hd & Ht & Hh & Hp & Hf).
    do 4 (split; [done |]). split; [| done].
    intros a b Hab. rewrite Hab in Hn2. done.
Qed.

Lemma stored_tracks_grows (g : string) (w w' : World) :
  distinct_arrays g w = true → grows w w' →
  stored_tracks g w' = stored_tracks g w.
Proof.
  intros Hwf (Hd & _ & _ & _ & _ & Ha). unfold stored_tracks, distinct_arrays in *.
  rewrite Hd. destruct (w_data w !! g) as [[c [lp |] [lt |]] |]; simpl in *;
    try done; apply Ha.
  - apply andb_prop in Hwf as [_ Hlt]. by apply Nat.ltb_lt.
  - by apply Nat.ltb_lt.
Qed.

(** ** Flattening and filtering *)

Lemma isValid_resolved (t : Track) :
  isTrack t = true → isValid t = true →
  ∃ d, info t ≫= duration = Some (Num d) ∧ (10000 ≤ d)%Z.
Proof.
  unfold isValid. intros ->.
  destruct (info t ≫= duration) as [[| d] |]; simpl; try done.
  destruct (Z.eqb_spec d 0); simpl; [done |].
  destruct (Z.ltb_spec d 10000); [done |]. intros _. exists d. auto.
Qed.

Lemma isValid_unresolved (t : Track) :
  isUnresolvedTrack t = true → isValid t = true.
Proof.
  unfold isValid, isUnresolvedTrack, isTrack. by destruct (capability t).
Qed.

Lemma flat_tracks (d : nat) (ts : list Track) :
  flat d (map VTrack ts) = map VTrack ts.
Proof.
  destruct d as [| d]; [done |]. simpl.
  induction ts as [| t ts IH]; [done |]. simpl. by rewrite IH.
Qed.

Lemma omap_tracks (ts : list Track) :
  omap track_or_unresolved (map VTrack ts)
  = List.filter (fun t => isTrack t || isUnresolvedTrack t) ts.
Proof.
  induction ts as [| t ts IH]; [done |].
  change (omap track_or_unresolved (map VTrack (t :: ts)))
    with (match track_or_unresolved (VTrack t) with
          | Some y => y :: omap track_or_unresolved (map VTrack ts)
          | None => omap track_or_unresolved (map VTrack ts)
          end).
  rewrite IH. simpl. by destruct (isTrack t || isUnresolvedTrack t).
Qed.

(** [flat k] brings up exactly the tracks that sit at most [k] arrays
    deep. *)
Lemma elem_of_flat (t : Track) (k : nat) (vs : list Value) :
  VTrack t ∈ flat k vs ↔ ∃ d, d ≤ k ∧ occurs t d vs.
Proof.
  revert vs. induction k as [| k IH]; intros vs.
  - simpl. split.
    + intros H. exists 0. by split.
    + intros (d & Hd & H). by replace d with 0 in H by lia.
  - cbn [flat]. rewrite list_elem_of_In, in_flat_map. split.
    + intros ([t' | inner] & Hin & Hx); apply list_elem_of_In in Hin.
      * apply list_elem_of_In, list_elem_of_singleton in Hx as [= ->].
        exists 0. split; [lia | done].
      * apply list_elem_of_In, IH in Hx as (d & Hd & Hocc).
        exists (S d). split; [lia |]. simpl. eauto.
    + intros ([| d] & Hd & Hocc); simpl in Hocc.
      * exists (VTrack t). split; [by apply list_elem_of_In |].
        by left.
      * destruct Hocc as (inner & Hin & Hocc).
        exists (VArray inner). split; [by apply list_elem_of_In |].
        apply list_elem_of_In, IH. exists d. split; [lia | done].
Qed.

Lemma elem_of_valid_tracks (t : Track) (x : Value) :
  t ∈ valid_tracks x
  ↔ (∃ d, d ≤ 2 ∧ occurs t d (as_array x))
    ∧ isTrack t || isUnresolvedTrack t = true
    ∧ isValid t = true.
Proof.
  unfold valid_tracks.
  rewrite list_elem_of_In, filter_In, <- list_elem_of_In, list_elem_of_omap.
  rewrite <- elem_of_flat. split.
  - intros (([t' | inner] & Hin & Hcap) & Hv); simpl in Hcap; [| done].
    destruct (isTrack t' || isUnresolvedTrack t') eqn:Hc; [| done].
    injection Hcap as ->. auto.
  - intros (Hin & Hc & Hv). split; [| done].
    exists (VTrack t). split; [done |]. simpl. by rewrite Hc.
Qed.

Lemma nested_array (n : nat) (vs : list Value) :
  ∃ vs', nested n (VArray vs) = VArray vs'.
Proof. destruct n; simpl; eauto. Qed.

(** Two levels of arrays around a list of tracks are taken away, a third
    one is not. *)
Lemma valid_tracks_nested (n : nat) (ts : list Track) :
  valid_tracks (nested n (VArray (map VTrack ts)))
  = if (n <=? 2)%nat then accepted ts else [].
Proof.
  unfold valid_tracks, accepted.
  destruct n as [| [| [| n]]]; cbn [nested as_array Nat.leb].
  - by rewrite flat_tracks, omap_tracks.
  - change (flat 2 [VArray (map VTrack ts)])
      with (flat 1 (map VTrack ts) ++ []).
    by rewrite app_nil_r, flat_tracks, omap_tracks.
  - change (flat 2 [VArray [VArray (map VTrack ts)]])
      with ((flat 0 (map VTrack ts) ++ []) ++ []).
    by rewrite !app_nil_r, flat_tracks, omap_tracks.
  - destruct (nested_array n (map VTrack ts)) as [vs' ->]. reflexivity.
Qed.

(** ** Matching in remove *)

Lemma strict_eq_true (a b : option string) : strict_eq a b = true ↔ a = b.
Proof.
  destruct a as [x |], b as [y |]; simpl; try (split; done || discriminate).
  rewrite String.eqb_eq. split; congruence.
Qed.

Lemma field_test_true (a b : option string) :
  truthy a && strict_eq a b = true ↔ truthy a = true ∧ a = b.
Proof. by rewrite andb_true_iff, strict_eq_true. Qed.

Lemma matches_true (t v : Track) :
  matches t v = true ↔ ∃ f, field_matches f t v.
Proof.
  unfold matches, field_matches. rewrite !orb_true_iff, !field_test_true.
  split.
  - intros [[[[[H | H] | H] | H] | H] | H].
    + by exists FEncoded.
    + by exists FIdentifier.
    + by exists FUri.
    + by exists FTitle.
    + by exists FIsrc.
    + by exists FArtworkUrl.
  - intros [[] H]; simpl in H; tauto.
Qed.

Lemma findIndex_bounds {A} (p : A → bool) (a : list A) :
  (-1 ≤ findIndex p a < Z.of_nat (length a))%Z.
Proof.
  induction a as [| x a IH]; simpl; [lia |].
  destruct (p x); [lia |]. destruct (Z.ltb_spec (findIndex p a) 0); lia.
Qed.

Lemma findIndex_none {A} (p : A → bool) (a : list A) :
  (findIndex p a < 0)%Z → ∀ v, v ∈ a → p v = false.
Proof.
  induction a as [| x a IH]; simpl; intros Hneg v Hin.
  - by apply elem_of_nil in Hin.
  - destruct (p x) eqn:Hx; [lia |].
    destruct (Z.ltb_spec (findIndex p a) 0) as [Hlt | Hge]; [| lia].
    apply elem_of_cons in Hin as [-> | Hin]; [done | by apply IH].
Qed.

Lemma findIndex_first {A} (p : A → bool) (a : list A) :
  (0 ≤ findIndex p a)%Z →
  ∃ v, at_index a (findIndex p a) = Some v ∧ p v = true
       ∧ ∀ j u, (0 ≤ j < findIndex p a)%Z → at_index a j = Some u →
                p u = false.
Proof.
  induction a as [| x a IH]; simpl; [lia |]. intros Hge.
  destruct (p x) eqn:Hx.
  - exists x. split; [done |]. split; [done |]. intros j u Hj. lia.
  - destruct (Z.ltb_spec (findIndex p a) 0) as [Hlt | Hge']; [lia |].
    destruct (IH Hge') as (v & Hv & Hpv & Hfirst).
    exists v. unfold at_index in *.
    destruct (Z.ltb_spec (findIndex p a) 0); [lia |].
    destruct (Z.ltb_spec (findIndex p a + 1) 0); [lia |].
    split. { replace (Z.to_nat (findIndex p a + 1)) with (S (Z.to_nat (findIndex p a))) by lia. done. }
    split; [done |]. intros j u Hj Hu.
    destruct (Z.ltb_spec j 0); [done |].
    destruct (Z.to_nat j) as [| k] eqn:Hk; simpl in Hu.
    + congruence.
    + apply (Hfirst (Z.of_nat k) u); [lia |].
      destruct (Z.ltb_spec (Z.of_nat k) 0); [lia |].
      by rewrite Nat2Z.id.
Qed.

(** ** remove *)

Lemma remove_each_from_nil (a : list Track) (indices : list Z) :
  fst (remove_each_from a indices) = [] → snd (remove_each_from a indices) = a.
Proof.
  revert a. induction indices as [| i rest IH]; intros a;
    cbn [remove_each_from]; [done |].
  destruct (at_index a i) as [x |] eqn:Hx; [| apply IH].
  rewrite (splice_delete_one _ _ _ Hx).
  destruct (remove_each_from _ rest). simpl. done.
Qed.

Lemma remove_each_returns (l : loc) (indices : list Z) (w : World) :
  l < heap_size w →
  returns (remove_each l indices) w (fun removed w' =>
    removed = fst (remove_each_from (array_at w l) indices)
    ∧ array_at w' l = snd (remove_each_from (array_at w l) indices)
    ∧ heap_size w' = heap_size w
    ∧ w_data w' = w_data w ∧ w_trace w' = w_trace w
    ∧ w_random w' = w_random w ∧ w_draws w' = w_draws w
    ∧ ∀ l', l' ≠ l → array_at w' l' = array_at w l').
Proof.
  revert w. induction indices as [| i rest IH]; intros w Hl.
  - apply returns_ret. cbn [remove_each_from fst snd]. by repeat split.
  - cbn [remove_each remove_each_from].
    apply returns_bind, read_returns.
    destruct (at_index (array_at w l) i) as [x |] eqn:Hx.
    + apply returns_bind, array_splice_returns.
      apply returns_bind.
      eapply returns_weaken; [apply IH; by rewrite heap_size_write |].
      intros rs w' (Hrs & Harr & Hh & Hd & Ht & Hr & Hn & Hf). apply returns_ret.
      rewrite array_at_write in Hrs, Harr.
      case_decide as Hdec; [| exfalso; by apply Hdec].
      destruct (js_splice (array_at w l) i 1 []) as [r a1]. simpl in *.
      destruct (remove_each_from a1 rest) as [rs' a2]. simpl in *.
      subst rs. split; [done |]. split; [done |].
      split; [by rewrite Hh, heap_size_write |].
      do 4 (split; [done |]).
      intros l' Hne. rewrite (Hf l' Hne), array_at_write.
      case_decide as Hd'; [destruct Hd'; congruence | done].
    + apply returns_bind, returns_ret. apply returns_bind.
      eapply returns_weaken; [by apply IH |].
      intros rs w' H. by apply returns_ret.
Qed.

Lemma distinct_arrays_grows (g : string) (w w' : World) :
  distinct_arrays g w = true → grows w w' → distinct_arrays g w' = true.
Proof.
  intros Hwf (Hd & _ & _ & _ & Hsz & _). unfold distinct_arrays in *.
  rewrite Hd. destruct (w_data w !! g) as [[c [lp |] [lt |]] |];
    cbn [p_previous p_tracks] in *; try done.
  - apply andb_prop in Hwf as [H Ht]. apply andb_prop in H as [Hne Hp].
    apply Nat.ltb_lt in Hp, Ht. rewrite Hne.
    apply andb_true_intro. split; apply Nat.ltb_lt; lia.
  - apply Nat.ltb_lt in Hwf. apply Nat.ltb_lt. lia.
  - apply Nat.ltb_lt in Hwf. apply Nat.ltb_lt. lia.
Qed.

Lemma saved_once_later (g : string) (w0 w w' : World) :
  saves (w_trace w) = saves (w_trace w0) →
  saved_once g w w' → saved_once g w0 w'.
Proof. intros Htr (stored & Hset & Hd). exists stored. by rewrite <- Htr. Qed.

(** [remove] returns for every query and every watcher: with [null] when
    nothing was removed, and after one save otherwise. *)
Lemma remove_returns (w : World) (removeQueryTrack : RemoveQuery) :
  distinct_arrays (q_guildId q) w = true →
  returns (remove q removeQueryTrack) w (null_or_saved (q_guildId q) w).
Proof.
  intros Hwf. unfold remove.
  apply returns_bind.
  eapply returns_weaken; [apply (load_returns w) |].
  intros stored w1 Hl.
  pose proof (loaded_saves _ _ _ Hl) as Hsv.
  destruct Hl as (Hg & Htr & Hall & Ht & Hp & Hc & Hd).
  destruct (Hd Hwf) as (Hne & Hlp & Hlt).
  apply snapshot_if_then. intros old w2 Hg2 Htr2.
  pose proof (grows_trans _ _ _ Hg Hg2) as Hg02.
  assert (Hsv2 : saves (w_trace w2) = saves (w_trace w)) by congruence.
  assert (Hlt2 : sq_tracks stored < heap_size w2).
  { destruct Hg2 as (_ & _ & _ & _ & ? & _). lia. }
  destruct removeQueryTrack as [i | items | t].
  - apply returns_bind, read_returns.
    destruct (at_index (array_at w2 (sq_tracks stored)) i);
      [| by apply returns_ret].
    apply returns_bind, array_splice_returns.
    apply (notify_guarded_then_save stored w); try done.
    { by rewrite heap_size_write. }
    intros w' _ _ H3. by apply returns_ret.
  - destruct (forallb is_number items).
    + apply returns_bind.
      eapply returns_weaken; [by apply remove_each_returns |].
      intros removed w3 (Hrm & Harr & Hh & Hd3 & Ht3 & Hr3 & Hn3 & Hf3).
      destruct removed as [| x removed].
      * apply returns_ret. simpl. eapply grows_trans; [exact Hg02 |].
        unfold grows. rewrite Hd3, Ht3, Hr3, Hn3, Hh.
        do 4 (split; [done |]). split; [lia |]. intros l Hl.
        destruct (decide (l = sq_tracks stored)) as [-> | Hnl]; [| by apply Hf3].
        rewrite Harr. apply remove_each_from_nil. by rewrite <- Hrm.
      * apply (notify_guarded_then_save stored w); try done.
        { lia. } { congruence. }
        intros w' _ _ H3. by apply returns_ret.
    + apply returns_bind, read_returns.
      destruct (List.filter _ _) as [| iv tracksToRemove];
        [by apply returns_ret |].
      apply returns_bind.
      eapply returns_weaken; [by apply remove_each_returns |].
      intros removed w3 (Hrm & Harr & Hh & Hd3 & Ht3 & Hr3 & Hn3 & Hf3).
      apply (notify_guarded_then_save stored w); try done.
      { lia. } { congruence. }
      intros w' _ _ H3. by apply returns_ret.
  - apply returns_bind, read_returns.
    destruct (findIndex (matches t) (array_at w2 (sq_tracks stored)) <? 0)%Z;
      [by apply returns_ret |].
    apply returns_bind, array_splice_returns.
    apply (notify_guarded_then_save stored w); try done.
    { by rewrite heap_size_write. }
    intros w' _ _ H3. by apply returns_ret.
Qed.

(** What [remove] does with an array of indices. *)
Lemma remove_indices_returns (w : World) (items : list QueryItem) :
  distinct_arrays (q_guildId q) w = true →
  forallb is_number items = true →
  returns (remove q (QueryArray items)) w (fun r w' =>
    let result := remove_each_from (stored_tracks (q_guildId q) w)
                    (omap item_number items) in
    match r with
    | None => fst result = []
    | Some removed =>
        removed = fst result ∧ stored_tracks (q_guildId q) w' = snd result
    end).
Proof.
  intros Hwf Hnum. unfold remove.
  apply returns_bind.
  eapply returns_weaken; [apply (load_returns w) |].
  intros stored w1 Hl.
  pose proof (loaded_saves _ _ _ Hl) as Hsv.
  destruct Hl as (Hg & Htr & Hall & Ht & Hp & Hc & Hd).
  destruct (Hd Hwf) as (Hne & Hlp & Hlt).
  apply snapshot_if_then. intros old w2 Hg2 Htr2.
  destruct Hg2 as (_ & _ & _ & Hsv2 & Hsz2 & Harr2).
  rewrite Hnum. apply returns_bind.
  eapply returns_weaken; [apply remove_each_returns; lia |].
  intros removed w3 (Hrm & Harr & Hh & Hd3 & Ht3 & Hr3 & Hn3 & Hf3).
  rewrite (Harr2 _ Hlt), Ht in Hrm, Harr.
  destruct removed as [| x removed]; [by apply returns_ret |].
  apply (notify_guarded_then_save stored w); try done.
  { lia. } { congruence. }
  intros w' H1 _ _. apply returns_ret. split; [done |]. by rewrite H1.
Qed.

(** ** splice *)

(** [splice] returns for every watcher; on a list that is not empty it
    saves the list that [Array.prototype.splice] leaves. *)
Lemma splice_returns (w : World) (index amount : Z)
  (TrackOrTracks : option Value) :
  distinct_arrays (q_guildId q) w = true →
  returns (splice q index amount TrackOrTracks) w (fun r w' =>
    let old := stored_tracks (q_guildId q) w in
    let batch := match TrackOrTracks with
                 | Some x => valid_tracks x
                 | None => []
                 end in
    match old, TrackOrTracks with
    | [], None => r = SpliceNull ∧ grows w w'
    | [], Some _ =>
        r = SpliceCount (length batch)
        ∧ stored_tracks (q_guildId q) w' = batch
        ∧ saved_once (q_guildId q) w w'
    | _ :: _, _ =>
        r = match fst (js_splice old index amount batch) with
            | [t] => SpliceOne t
            | removed => SpliceMany removed
            end
        ∧ stored_tracks (q_guildId q) w'
          = snd (js_splice old index amount batch)
        ∧ saved_once (q_guildId q) w w'
    end).
Proof.
  intros Hwf. unfold splice.
  apply returns_bind.
  eapply returns_weaken; [apply (load_returns w) |].
  intros stored w1 Hl.
  pose proof (loaded_saves _ _ _ Hl) as Hsv.
  destruct Hl as (Hg & Htr & Hall & Ht & Hp & Hc & Hd).
  destruct (Hd Hwf) as (Hne & Hlp & Hlt).
  apply snapshot_if_then. intros old w2 Hg2 Htr2.
  pose proof (grows_trans _ _ _ Hg Hg2) as Hg02.
  assert (Hsv2 : saves (w_trace w2) = saves (w_trace w)) by congruence.
  destruct Hg2 as (_ & _ & _ & _ & Hsz2 & Harr2).
  apply returns_bind, read_returns. rewrite (Harr2 _ Hlt), Ht.
  destruct (stored_tracks (q_guildId q) w) as [| t0 ts] eqn:Hold.
  - cbn [length Nat.eqb]. destruct TrackOrTracks as [x |].
    + apply returns_bind.
      eapply returns_weaken;
        [apply (add_returns w2 x None);
         by apply (distinct_arrays_grows _ w) |].
      intros n w' (Hnew & Hn & Hsaved). apply returns_ret.
      rewrite (stored_tracks_grows _ _ _ Hwf Hg02), Hold in Hnew.
      unfold inserted in Hnew. simpl in Hnew.
      rewrite Hn, Hnew. split; [done |]. split; [done |].
      by apply (saved_once_later _ w w2).
    + by apply returns_ret.
  - cbn [length Nat.eqb].
    set (batch := match TrackOrTracks with
                  | Some x => valid_tracks x
                  | None => []
                  end).
    apply grows_then.
    { destruct TrackOrTracks; [apply notify_guarded_returns |].
      apply returns_ret, grows_refl. }
    intros w3 (_ & _ & _ & Hsv3 & Hsz3 & Harr3).
    assert (Hsplice : returns
              (array_splice (sq_tracks stored) index amount batch) w3
              (fun removed w4 =>
                 removed = fst (js_splice (t0 :: ts) index amount batch)
                 ∧ array_at w4 (sq_tracks stored)
                   = snd (js_splice (t0 :: ts) index amount batch)
                 ∧ heap_size w4 = heap_size w3
                 ∧ saves (w_trace w4) = saves (w_trace w))).
    { apply array_splice_returns.
      rewrite array_at_write, heap_size_write.
      case_decide as Hdec; [| exfalso; apply Hdec; split; [done | lia]].
      rewrite (Harr3 (sq_tracks stored)) by lia.
      rewrite (Harr2 _ Hlt), Ht, ?Hold.
      repeat split; simpl; congruence. }
    apply returns_bind.
    eapply returns_weaken.
    { destruct TrackOrTracks; exact Hsplice. }
    intros removed w4 (Hrm & Harr4 & Hh4 & Hsv4).
    apply (notify_guarded_then_save stored w); try done.
    { lia. }
    intros w' H1 _ H3. apply returns_ret.
    rewrite Hrm. split.
    { by destruct (fst (js_splice (t0 :: ts) index amount batch))
        as [| ? [| ? ?]]. }
    split; [| done]. by rewrite H1.
Qed.

End Saver.

(** ** The retention cap *)

(** A positive configured cap reaches the queue unchanged, and every save
    keeps the first [n] entries of [previous] and drops the tail. *)
Lemma positive_cap_is_enforced (g : string) (n : Z)
  (watcher : option QueueChangesWatcher) (stored : StoredQueue) (w : World) :
  (0 < n)%Z →
  ∃ q, queue_for g (options_of (Some n) watcher) = Ret q
       ∧ q_maxPreviousTracks q = n
       ∧ returns (_save q stored) w (fun _ w' =>
           stored_previous g w'
           = take (Z.to_nat n) (array_at w (sq_previous stored))
           ∧ (Z.of_nat (length (stored_previous g w')) ≤ n)%Z).
Proof.
  intros Hn. eexists. split; [reflexivity |]. simpl.
  assert (Hcap : or_default (Some n) 25 = n).
  { unfold or_default. destruct (Z.eqb_spec n 0); [lia | done]. }
  split; [exact Hcap |].
  eapply returns_weaken; [by eapply save_returns |].
  intros _ w' (Hd & _ & _ & _ & _ & _ & Hcut). simpl in *.
  unfold stored_previous. rewrite Hd, lookup_insert_eq. simpl.
  rewrite Hcap in Hcut. rewrite Hcut by lia.
  split; [done |]. rewrite length_take. lia.
Qed.

(** ** The model on small inputs *)

Example splice_negative_start :
  js_splice [trackA; trackB; trackC; trackD] (-1) 1 []
  = ([trackD], [trackA; trackB; trackC]).
Proof. reflexivity. Qed.

Example splice_count_is_clamped :
  js_splice [trackA; trackB; trackC] 1 10 [trackD]
  = ([trackB; trackC], [trackA; trackD]).
Proof. reflexivity. Qed.

Example findIndex_missing : findIndex isTrack [unresolved_of "Later"] = (-1)%Z.
Proof. reflexivity. Qed.

Example valid_tracks_by_depth :
  valid_tracks (VArray [VTrack trackB; nested 2 (VTrack trackC);
                        nested 3 (VTrack trackD);
                        VTrack (track_of "S" "Short" 9999);
                        VTrack (unresolved_of "Later")])
  = [trackB; trackC; unresolved_of "Later"].
Proof. reflexivity. Qed.

(** [maxPreviousTracks = 2]: the third [addToPrevious] evicts the first
    track. *)
Example previous_is_capped :
  let q := queue_with 2 None in
  stored_previous "guild"
    (snd ((addToPrevious q trackA ;;; addToPrevious q trackB ;;;
           addToPrevious q trackC) empty_world))
  = [trackC; trackB].
Proof. vm_compute. reflexivity. Qed.

(** [add([A, B])], [shuffle()], [remove(A)] on an empty queue. *)
Example add_shuffle_remove :
  let q := queue_with 25 (Some myCustomWatcher) in
  fst ((n <- add q (VArray [VTrack trackA; VTrack trackB]) None ;;
        m <- shuffle q ;;
        r <- remove q (QueryTrack trackA) ;;
        k <- getTrackCount q ;;
        t <- getTrack q 0 ;;
        ret (n, m, r, k, t)) empty_world)
  = Ret (2, 2, Some [trackA], 1, Some trackB).
Proof. vm_compute. reflexivity. Qed.

(** [splice(1, 0, D)] on [[A, B, C]]. *)
Example splice_inserts :
  let r := splice (queue_with 25 None) 1 0 (Some (VTrack trackD))
             (world_of [] [trackA; trackB; trackC]) in
  fst r = Ret (SpliceMany [])
  ∧ stored_tracks "guild" (snd r) = [trackA; trackD; trackB; trackC].
Proof. vm_compute. auto. Qed.

(** In an array of indices and tracks, the index [0] never selects: [find]
    returns the number [0], which is falsy. *)
Example mixed_query_index_zero :
  let q := queue_with 25 None in
  let w := world_of [] [trackA; trackB; trackC] in
  fst (remove q (QueryArray [ItemIndex 0; ItemTrack trackC]) w)
  = Ret (Some [trackC]).
Proof. vm_compute. reflexivity. Qed.


(** * The claims *)

(** C1 (defect).  A queue configured with [maxPreviousTracks: 0] keeps the
    default cap of 25: after [addToPrevious] has saved, [previous] holds one
    track. *)
Theorem cap_zero_is_replaced_by_default :
  ∃ q, queue_for "guild" (options_of (Some 0%Z) None) = Ret q
       ∧ q_maxPreviousTracks q = 25%Z
       ∧ fst (addToPrevious q trackA empty_world) = Ret tt
       ∧ saves (w_trace (snd (addToPrevious q trackA empty_world)))
         = [EvSet "guild" {| sq_current := None; sq_previous := 0;
                             sq_tracks := 1 |}]
       ∧ stored_previous "guild" (snd (addToPrevious q trackA empty_world))
         = [trackA].
Proof.
  eexists. split; [reflexivity |]. vm_compute. auto.
Qed.

(** C2 (defect).  [shuffle] calls the watcher outside any [try]: with a
    throwing [shuffled] callback the exception reaches the caller and
    nothing is saved, while [add] with the same watcher saves and returns. *)
Theorem shuffle_lets_watcher_failure_escape :
  let q := queue_with 25 (Some brokenWatcher) in
  let w := world_of [] [trackA; trackB] in
  fst (shuffle q w) = Throw WatcherError
  ∧ saves (w_trace (snd (shuffle q w))) = []
  ∧ fst (add q (VTrack trackC) None w) = Ret 3
  ∧ saves (w_trace (snd (add q (VTrack trackC) None w)))
    = [EvSet "guild" {| sq_current := None; sq_previous := 0; sq_tracks := 1 |}].
Proof. vm_compute. auto. Qed.

(** C3, as stated, fails: query and candidate both have [encoded], with
    different values, and the candidate still matches, through
    [info.title]; [remove] removes it. *)
Lemma title_matches_after_unequal_encoded :
  let t := track_of "A" "Same" 180000 in
  let v := track_of "B" "Same" 200000 in
  truthy (encoded t) = true ∧ truthy (encoded v) = true
  ∧ encoded t ≠ encoded v
  ∧ matches t v = true
  ∧ fst (remove (queue_with 25 None) (QueryTrack t) (world_of [] [v]))
    = Ret (Some [v]).
Proof.
  repeat split; try (vm_compute; reflexivity). discriminate.
Qed.

(** C3, amended.  [remove] with a single track-like query removes the
    first candidate that has one of the fields [encoded],
    [info.identifier], [info.uri], [info.title], [info.isrc],
    [info.artworkUrl] present on the query and equal on the candidate, and
    returns [null] when there is none.  A field that is present on both
    sides but unequal does not keep a later field from matching: a
    candidate matches exactly when some field does. *)
Theorem remove_track_matches_any_field (q : Queue) (s : QueueSaver) (w : World)
  (t : Track) :
  q_QueueSaver q = Some s →
  distinct_arrays (q_guildId q) w = true →
  (∀ v, matches t v = true ↔ ∃ f, field_matches f t v)
  ∧ returns (remove q (QueryTrack t)) w (fun r w' =>
      let old := stored_tracks (q_guildId q) w in
      match r with
      | None => ∀ v, v ∈ old → ¬ ∃ f, field_matches f t v
      | Some removed =>
          ∃ i v, removed = [v] ∧ old !! i = Some v
                 ∧ (∃ f, field_matches f t v)
                 ∧ (∀ j u, j < i → old !! j = Some u →
                           ¬ ∃ f, field_matches f t u)
                 ∧ stored_tracks (q_guildId q) w'
                   = take i old ++ drop (S i) old
      end).
Proof.
  intros Hs Hwf. split; [intros v; apply matches_true |].
  unfold remove.
  apply returns_bind.
  eapply returns_weaken; [apply (load_returns q s Hs w) |].
  intros stored w1 Hl.
  pose proof (loaded_saves _ _ _ _ Hl) as Hsv.
  destruct Hl as (Hg & Htr & Hall & Ht & Hp & Hc & Hd).
  destruct (Hd Hwf) as (Hne & Hlp & Hlt).
  apply snapshot_if_then. intros old w2 Hg2 Htr2.
  destruct Hg2 as (_ & _ & _ & Hsv2 & Hsz2 & Harr2).
  apply returns_bind, read_returns. rewrite (Harr2 _ Hlt), Ht.
  destruct (Z.ltb_spec (findIndex (matches t) (stored_tracks (q_guildId q) w)) 0)
    as [Hneg | Hpos].
  - apply returns_ret. intros v Hin Hf.
    apply matches_true in Hf.
    rewrite (findIndex_none _ _ Hneg v Hin) in Hf. done.
  - destruct (findIndex_first _ _ Hpos) as (v & Hv & Hpv & Hfirst).
    apply returns_bind, array_splice_returns.
    apply (notify_guarded_then_save q s Hs stored w); try done.
    { rewrite heap_size_write. lia. }
    { simpl. congruence. }
    intros w' H1 H2 H3. apply returns_ret.
    rewrite array_at_write in H1.
    case_decide as Hdec; [| exfalso; apply Hdec; split; [done | lia]].
    rewrite (Harr2 _ Hlt), Ht in *.
    rewrite (splice_delete_one _ _ _ Hv) in *. simpl in *.
    exists (Z.to_nat (findIndex (matches t) (stored_tracks (q_guildId q) w))), v.
    split; [done |]. split.
    { unfold at_index in Hv.
      by destruct (Z.ltb_spec (findIndex (matches t)
                                 (stored_tracks (q_guildId q) w)) 0); [lia |]. }
    split; [by apply matches_true |]. split; [| done].
    intros j u Hj Hu Hf. apply matches_true in Hf.
    rewrite (Hfirst (Z.of_nat j) u) in Hf; [done | lia |].
    unfold at_index. destruct (Z.ltb_spec (Z.of_nat j) 0); [lia |].
    by rewrite Nat2Z.id.
Qed.

Lemma remove_track_matches_any_field_witness :
  (∀ v, matches (track_of "A" "Same" 180000) v = true
        ↔ ∃ f, field_matches f (track_of "A" "Same" 180000) v)
  ∧ returns (remove (queue_with 25 (Some myCustomWatcher))
               (QueryTrack (track_of "A" "Same" 180000)))
      (world_of [] [trackB; track_of "B" "Same" 200000; trackA])
      (fun r w' =>
         let old := stored_tracks "guild"
                      (world_of [] [trackB; track_of "B" "Same" 200000; trackA]) in
         match r with
         | None =>
             ∀ v, v ∈ old →
                  ¬ ∃ f, field_matches f (track_of "A" "Same" 180000) v
         | Some removed =>
             ∃ i v, removed = [v] ∧ old !! i = Some v
                    ∧ (∃ f, field_matches f (track_of "A" "Same" 180000) v)
                    ∧ (∀ j u, j < i → old !! j = Some u →
                         ¬ ∃ f, field_matches f (track_of "A" "Same" 180000) u)
                    ∧ stored_tracks "guild" w' = take i old ++ drop (S i) old
         end).
Proof.
  apply (remove_track_matches_any_field (queue_with 25 (Some myCustomWatcher))
           {| saver_maxPreviousTracks := 25 |}).
  - reflexivity.
  - vm_compute. reflexivity.
Defined.

(** C4, as stated, fails: a track two arrays deep inside the input array is
    unwrapped and added. *)
Lemma add_unwraps_doubly_nested_track :
  let r := add (queue_with 25 None) (VArray [VArray [VArray [VTrack trackA]]])
             None empty_world in
  fst r = Ret 1%nat ∧ stored_tracks "guild" (snd r) = [trackA].
Proof. vm_compute. auto. Qed.

(** C4, amended.  [add] flattens its input by two levels before it
    filters: the batch it puts into the track list holds exactly the tracks
    that sit at most two arrays deep inside the input sequence, pass the
    Track/UnresolvedTrack test and are valid; what sits three or more
    arrays deep is not unwrapped. *)
Theorem add_flattens_two_levels (q : Queue) (s : QueueSaver) (w : World)
  (TrackOrTracks : Value) (index : option Z) :
  q_QueueSaver q = Some s →
  distinct_arrays (q_guildId q) w = true →
  ∃ batch,
    returns (add q TrackOrTracks index) w (fun _ w' =>
      stored_tracks (q_guildId q) w'
      = inserted (stored_tracks (q_guildId q) w) batch index)
    ∧ ∀ t, t ∈ batch
           ↔ (∃ d, d ≤ 2 ∧ occurs t d (as_array TrackOrTracks))
             ∧ isTrack t || isUnresolvedTrack t = true
             ∧ isValid t = true.
Proof.
  intros Hs Hwf. exists (valid_tracks TrackOrTracks). split.
  - eapply returns_weaken; [by apply (add_returns q s Hs) |].
    by intros n w' (H & _).
  - intros t. apply elem_of_valid_tracks.
Qed.

Lemma add_flattens_two_levels_witness :
  let input := VArray [VTrack trackB; nested 2 (VTrack trackC);
                       nested 3 (VTrack trackD)] in
  ∃ batch,
    returns (add (queue_with 25 None) input None) (world_of [] [trackA])
      (fun _ w' =>
         stored_tracks "guild" w'
         = inserted (stored_tracks "guild" (world_of [] [trackA])) batch None)
    ∧ ∀ t, t ∈ batch
           ↔ (∃ d, d ≤ 2 ∧ occurs t d (as_array input))
             ∧ isTrack t || isUnresolvedTrack t = true
             ∧ isValid t = true.
Proof.
  apply (add_flattens_two_levels (queue_with 25 None)
           {| saver_maxPreviousTracks := 25 |});
    [reflexivity | vm_compute; reflexivity].
Defined.

(** C5.  For a queue with a saver and a document with two distinct arrays,
    [add] puts a batch into the track list in which every resolved track
    has a numeric duration of at least 10000, and which holds every
    unresolved track of the flattened input, whatever its duration. *)
Theorem add_filters_resolved_by_duration (q : Queue) (s : QueueSaver)
  (w : World) (TrackOrTracks : Value) (index : option Z) :
  q_QueueSaver q = Some s →
  distinct_arrays (q_guildId q) w = true →
  ∃ batch,
    returns (add q TrackOrTracks index) w (fun _ w' =>
      stored_tracks (q_guildId q) w'
      = inserted (stored_tracks (q_guildId q) w) batch index)
    ∧ (∀ t, t ∈ batch → isTrack t = true →
         ∃ d, info t ≫= duration = Some (Num d) ∧ (10000 ≤ d)%Z)
    ∧ (∀ t, VTrack t ∈ flat 2 (as_array TrackOrTracks) →
         isUnresolvedTrack t = true → t ∈ batch).
Proof.
  intros Hs Hwf. exists (valid_tracks TrackOrTracks). split; [| split].
  - eapply returns_weaken; [by apply (add_returns q s Hs) |].
    by intros n w' (H & _).
  - intros t Hin Hres. unfold valid_tracks in Hin.
    apply list_elem_of_In, filter_In in Hin as [_ Hv].
    by apply isValid_resolved.
  - intros t Hin Hun. unfold valid_tracks.
    apply list_elem_of_In, filter_In. split.
    + apply list_elem_of_In, list_elem_of_omap. exists (VTrack t).
      split; [done |]. simpl. rewrite Hun. by rewrite orb_true_r.
    + by apply isValid_unresolved.
Qed.

Lemma add_filters_resolved_by_duration_witness :
  ∃ batch,
    returns (add (queue_with 25 (Some myCustomWatcher))
               (VArray [VTrack (track_of "S" "Short" 9999);
                        VTrack (unresolved_of "Later"); VTrack trackD])
               (Some 1%Z))
      (world_of [] [trackA; trackB]) (fun _ w' =>
      stored_tracks "guild" w'
      = inserted (stored_tracks "guild" (world_of [] [trackA; trackB]))
          batch (Some 1%Z))
    ∧ (∀ t, t ∈ batch → isTrack t = true →
         ∃ d, info t ≫= duration = Some (Num d) ∧ (10000 ≤ d)%Z)
    ∧ (∀ t, VTrack t ∈ flat 2 (as_array
               (VArray [VTrack (track_of "S" "Short" 9999);
                        VTrack (unresolved_of "Later"); VTrack trackD])) →
         isUnresolvedTrack t = true → t ∈ batch).
Proof.
  apply (add_filters_resolved_by_duration (queue_with 25 (Some myCustomWatcher))
           {| saver_maxPreviousTracks := 25 |}).
  - reflexivity.
  - vm_compute. reflexivity.
Defined.

(** For a queue with a saver, a document with two distinct arrays and
    a random supply in [[0, 1)]: on a list of at most one track [shuffle]
    returns its length, saves nothing and changes nothing, whatever the
    watcher; and when the [shuffled] callback is absent or returns,
    [shuffle] returns the length of the list, a list of two tracks ends up
    with its two tracks exchanged, and the stored list is always a
    permutation of the one before. *)
Theorem shuffle_permutes (q : Queue) (s : QueueSaver) (w : World) :
  q_QueueSaver q = Some s →
  distinct_arrays (q_guildId q) w = true →
  (∀ k, (0 <= w_random w k)%Q ∧ (w_random w k < 1)%Q) →
  (length (stored_tracks (q_guildId q) w) ≤ 1 →
   returns (shuffle q) w (fun n w' =>
     n = length (stored_tracks (q_guildId q) w) ∧ untouched w w'))
  ∧ ((∀ f n, cb_shuffled q = Some f → f n = Normal) →
     returns (shuffle q) w (fun n w' =>
       n = length (stored_tracks (q_guildId q) w)
       ∧ (1 < length (stored_tracks (q_guildId q) w) →
          saved_once (q_guildId q) w w')
       ∧ (∀ a b, stored_tracks (q_guildId q) w = [a; b] →
          stored_tracks (q_guildId q) w' = [b; a])
       ∧ stored_tracks (q_guildId q) w' ≡ₚ stored_tracks (q_guildId q) w)).
Proof.
  intros Hs Hwf Hrand.
  assert (Hload : ∀ post : nat → World → Prop,
    (∀ stored old w2,
        untouched w w2 → grows w w2 →
        sq_previous stored ≠ sq_tracks stored →
        sq_tracks stored < heap_size w2 →
        array_at w2 (sq_tracks stored) = stored_tracks (q_guildId q) w →
        returns
          (a <- read (sq_tracks stored) ;;
           if (length a <=? 1)%nat then ret (length a)
           else
             (if (length a =? 2)%nat then array_swap (sq_tracks stored) 0 1
              else shuffle_loop (sq_tracks stored) (length a - 1)) ;;;
             notify (cb_shuffled q)
               (fun new => Shuffled (q_guildId q) old new) stored ;;;
             _save q stored ;;;
             array_length (sq_tracks stored)) w2 post) →
    returns (shuffle q) w post).
  { intros post Hk. unfold shuffle.
    apply returns_bind.
    eapply returns_weaken; [apply (load_returns q s Hs w) |].
    intros stored w1 Hl.
    pose proof (loaded_untouched _ _ _ _ Hl) as (Hud & Hut & Hua).
    destruct Hl as (Hg & Htr & Hall & Ht & Hp & Hc & Hd).
    destruct (Hd Hwf) as (Hne & Hlp & Hlt).
    apply snapshot_if_then. intros old w2 Hg2 Htr2.
    pose proof (grows_trans _ _ _ Hg Hg2) as Hg02.
    assert (Hsz1 : heap_size w ≤ heap_size w1) by apply Hg.
    destruct Hg2 as (Hd2 & _ & _ & Hsv2 & Hsz2 & Harr2).
    apply Hk; try done.
    - split; [congruence |]. split; [congruence |].
      intros l Hl. rewrite Harr2 by lia. by apply Hua.
    - lia.
    - by rewrite (Harr2 _ Hlt). }
  split.
  - intros Hle. apply Hload.
    intros stored old w2 Hu Hg Hne Hlt Hcur.
    apply returns_bind, read_returns. rewrite Hcur.
    destruct (Nat.leb_spec (length (stored_tracks (q_guildId q) w)) 1);
      [| lia].
    by apply returns_ret.
  - intros Hcb. apply Hload.
    intros stored old w2 Hu Hg Hne Hlt Hcur.
    apply returns_bind, read_returns. rewrite Hcur.
    destruct (Nat.leb_spec (length (stored_tracks (q_guildId q) w)) 1)
      as [Hle | Hgt].
    + apply returns_ret. split; [done |]. split; [lia |]. split.
      { intros a b Hab. rewrite Hab in Hle. simpl in Hle. lia. }
      by rewrite (stored_tracks_grows _ _ _ Hwf Hg).
    + apply returns_bind. rewrite <- Hcur.
      eapply returns_weaken; [apply rearrange_returns |].
      intros _ w3 (Hd3 & Ht3 & Hh3 & Hp3 & Hsw3 & Hf3).
      apply (notify_then_save q s Hs stored w); try done.
      { lia. }
      { destruct Hg as (_ & _ & _ & Hsv & _). congruence. }
      intros w' H1 H2 H3. apply array_length_returns.
      rewrite Hcur in *. rewrite H2. split.
      { by rewrite Hp3. }
      split; [done |]. split.
      * intros a b Hab. rewrite H1. by apply Hsw3.
      * by rewrite H1.
Qed.

Lemma shuffle_permutes_witness :
  let q := queue_with 25 (Some myCustomWatcher) in
  let w1 := world_of [trackD] [trackA] in
  let w := world_of [trackD] [trackA; trackB; trackC; trackD] in
  returns (shuffle q) w1 (fun n w' =>
    n = length (stored_tracks "guild" w1) ∧ untouched w1 w')
  ∧ returns (shuffle q) w (fun n w' =>
      n = length (stored_tracks "guild" w)
      ∧ (1 < length (stored_tracks "guild" w) → saved_once "guild" w w')
      ∧ (∀ a b, stored_tracks "guild" w = [a; b] →
         stored_tracks "guild" w' = [b; a])
      ∧ stored_tracks "guild" w' ≡ₚ stored_tracks "guild" w).
Proof.
  intros q w1 w. split.
  - apply (shuffle_permutes q {| saver_maxPreviousTracks := 25 |} w1).
    + reflexivity.
    + vm_compute. reflexivity.
    + intros k. split; [discriminate | reflexivity].
    + vm_compute. lia.
  - apply (shuffle_permutes q {| saver_maxPreviousTracks := 25 |} w).
    + reflexivity.
    + vm_compute. reflexivity.
    + intros k. split; [discriminate | reflexivity].
    + intros f n [= <-]. reflexivity.
Defined.

(** C6 (defect).  With a [shuffled] callback that throws, [shuffle] on two
    tracks, and on three, returns no length: the call ends with the
    callback's exception and nothing is saved, although the list has been
    rearranged in place by then.  On one track, and with a callback that
    returns, [shuffle] returns the length. *)
Theorem shuffle_returns_no_length_when_watcher_throws :
  let q := queue_with 25 (Some brokenWatcher) in
  let two := shuffle q (world_of [] [trackA; trackB]) in
  let three := shuffle q (world_of [] [trackA; trackB; trackC]) in
  fst two = Throw WatcherError
  ∧ saves (w_trace (snd two)) = []
  ∧ stored_tracks "guild" (snd two) = [trackB; trackA]
  ∧ fst three = Throw WatcherError
  ∧ saves (w_trace (snd three)) = []
  ∧ fst (shuffle q (world_of [] [trackA])) = Ret 1
  ∧ fst (shuffle (queue_with 25 (Some myCustomWatcher))
           (world_of [] [trackA; trackB])) = Ret 2.
Proof. vm_compute. repeat split. Qed.

(** C7 (defect).  [splice] with replacement tracks calls [tracksAdd] before
    it mutates the list: the [newStoredQueue] it passes reads like the old
    one, not like the list that is then saved.  [add], for the same
    insertion, passes the list after the mutation. *)
Theorem splice_reports_old_state_as_new :
  let q := queue_with 25 (Some myCustomWatcher) in
  let w := world_of [] [trackA; trackB; trackC] in
  let r := splice q 1 0 (Some (VTrack trackD)) w in
  let r' := add q (VTrack trackD) (Some 1%Z) w in
  fst r = Ret (SpliceMany [])
  ∧ stored_tracks "guild" (snd r) = [trackA; trackD; trackB; trackC]
  ∧ (∃ old new,
       w_trace (snd r) !! 0%nat
       = Some (EvNotify (TracksAdd "guild" [trackD] 1 (Some old) new))
       ∧ array_at (snd r) (sq_tracks old) = [trackA; trackB; trackC]
       ∧ array_at (snd r) (sq_tracks new) = [trackA; trackB; trackC])
  ∧ (∃ old new,
       w_trace (snd r') !! 0%nat
       = Some (EvNotify (TracksAdd "guild" [trackD] 1 (Some old) new))
       ∧ array_at (snd r') (sq_tracks old) = [trackA; trackB; trackC]
       ∧ array_at (snd r') (sq_tracks new) = [trackA; trackD; trackB; trackC]).
Proof.
  split; [vm_compute; reflexivity |].
  split; [vm_compute; reflexivity |].
  split; eexists _, _; (split; [vm_compute; reflexivity |]);
    split; vm_compute; reflexivity.
Qed.

(** C8 (defect).  [remove([0, 1])] on three tracks removes the first and
    the third: after the first removal the second index points one further. *)
Theorem remove_indices_shift :
  let q := queue_with 25 None in
  let w := world_of [] [trackA; trackB; trackC] in
  fst (remove q (QueryArray [ItemIndex 0; ItemIndex 1]) w)
  = Ret (Some [trackA; trackC])
  ∧ stored_tracks "guild"
      (snd (remove q (QueryArray [ItemIndex 0; ItemIndex 1]) w))
    = [trackB].
Proof. vm_compute. auto. Qed.

(** With integer indices: [moveTrack] with [from] outside the list
    returns without a save and leaves store and arrays as they were, and so
    do [replaceTrack] and [swapTracks], which return [false], when an index
    is outside the list; calls with indices inside the list save, and
    [replaceTrack] and [swapTracks] return [true]. *)
Theorem bounds_violations_are_silent (q : Queue) (s : QueueSaver) (w : World) :
  q_QueueSaver q = Some s →
  let inside i :=
    (0 ≤ i < Z.of_nat (length (stored_tracks (q_guildId q) w)))%Z in
  (∀ from to, ¬ inside from →
     returns (moveTrack q from to) w (fun _ w' => untouched w w'))
  ∧ (∀ from to, inside from →
       returns (moveTrack q from to) w
         (fun _ w' => saved_once (q_guildId q) w w'))
  ∧ (∀ index track, ¬ inside index →
       returns (replaceTrack q index track) w
         (fun r w' => r = false ∧ untouched w w'))
  ∧ (∀ index track, inside index →
       returns (replaceTrack q index track) w
         (fun r w' => r = true ∧ saved_once (q_guildId q) w w'))
  ∧ (∀ i j, ¬ (inside i ∧ inside j) →
       returns (swapTracks q i j) w (fun r w' => r = false ∧ untouched w w'))
  ∧ (∀ i j, inside i → inside j →
       returns (swapTracks q i j) w
         (fun r w' => r = true ∧ saved_once (q_guildId q) w w')).
Proof.
  intros Hs inside. repeat split.
  - intros from to Hout. unfold moveTrack.
    apply returns_bind.
    eapply returns_weaken; [apply (load_returns q s Hs w) |].
    intros stored w1 Hl. apply returns_bind, read_returns.
    pose proof (loaded_untouched _ _ _ _ Hl) as Hu.
    destruct Hl as (Hg & Htr & Hall & Ht & Hrest). rewrite Ht.
    destruct (Z.ltb_spec from 0); simpl.
    { by apply returns_ret. }
    destruct (Z.leb_spec (Z.of_nat (length (stored_tracks (q_guildId q) w))) from).
    { by apply returns_ret. }
    exfalso. apply Hout. unfold inside. lia.
  - intros from to Hin. unfold moveTrack.
    apply returns_bind.
    eapply returns_weaken; [apply (load_returns q s Hs w) |].
    intros stored w1 Hl. apply returns_bind, read_returns.
    pose proof (loaded_saves _ _ _ _ Hl) as Hsv.
    destruct Hl as (Hg & Htr & Hall & Ht & Hrest). rewrite Ht.
    unfold inside in Hin.
    destruct (Z.ltb_spec from 0); [lia |].
    destruct (Z.leb_spec (Z.of_nat (length (stored_tracks (q_guildId q) w))) from);
      [lia |]. simpl.
    apply returns_bind, array_splice_returns.
    apply returns_bind.
    destruct (fst (js_splice _ from 1 [])) as [| m rest].
    + apply returns_ret. by apply (save_saved_once q s Hs).
    + apply returns_bind, array_splice_returns. apply returns_ret.
      by apply (save_saved_once q s Hs).
  - intros index track Hout. unfold replaceTrack.
    apply returns_bind.
    eapply returns_weaken; [apply (load_returns q s Hs w) |].
    intros stored w1 Hl. apply returns_bind, read_returns.
    pose proof (loaded_untouched _ _ _ _ Hl) as Hu.
    destruct Hl as (Hg & Htr & Hall & Ht & Hrest). rewrite Ht.
    destruct (Z.ltb_spec index 0); simpl.
    { by apply returns_ret. }
    destruct (Z.leb_spec (Z.of_nat (length (stored_tracks (q_guildId q) w))) index).
    { by apply returns_ret. }
    exfalso. apply Hout. unfold inside. lia.
  - intros index track Hin. unfold replaceTrack.
    apply returns_bind.
    eapply returns_weaken; [apply (load_returns q s Hs w) |].
    intros stored w1 Hl. apply returns_bind, read_returns.
    pose proof (loaded_saves _ _ _ _ Hl) as Hsv.
    destruct Hl as (Hg & Htr & Hall & Ht & Hrest). rewrite Ht.
    unfold inside in Hin.
    destruct (Z.ltb_spec index 0); [lia |].
    destruct (Z.leb_spec (Z.of_nat (length (stored_tracks (q_guildId q) w))) index);
      [lia |]. simpl.
    apply returns_bind, write_returns. apply returns_bind.
    eapply returns_weaken; [by apply (save_saved_once q s Hs _ w) |].
    intros u w' Hsaved. by apply returns_ret.
  - intros i j Hout. unfold swapTracks.
    apply returns_bind.
    eapply returns_weaken; [apply (load_returns q s Hs w) |].
    intros stored w1 Hl. apply returns_bind, read_returns.
    pose proof (loaded_untouched _ _ _ _ Hl) as Hu.
    destruct Hl as (Hg & Htr & Hall & Ht & Hrest). rewrite Ht.
    destruct (Z.ltb_spec i 0); simpl; [by apply returns_ret |].
    destruct (Z.leb_spec (Z.of_nat (length (stored_tracks (q_guildId q) w))) i);
      simpl; [by apply returns_ret |].
    destruct (Z.ltb_spec j 0); simpl; [by apply returns_ret |].
    destruct (Z.leb_spec (Z.of_nat (length (stored_tracks (q_guildId q) w))) j);
      simpl; [by apply returns_ret |].
    exfalso. apply Hout. unfold inside. lia.
  - intros i j Hi Hj. unfold swapTracks.
    apply returns_bind.
    eapply returns_weaken; [apply (load_returns q s Hs w) |].
    intros stored w1 Hl. apply returns_bind, read_returns.
    pose proof (loaded_saves _ _ _ _ Hl) as Hsv.
    destruct Hl as (Hg & Htr & Hall & Ht & Hrest). rewrite Ht.
    unfold inside in Hi, Hj.
    destruct (Z.ltb_spec i 0); [lia |].
    destruct (Z.leb_spec (Z.of_nat (length (stored_tracks (q_guildId q) w))) i);
      [lia |].
    destruct (Z.ltb_spec j 0); [lia |].
    destruct (Z.leb_spec (Z.of_nat (length (stored_tracks (q_guildId q) w))) j);
      [lia |]. simpl.
    apply returns_bind, array_swap_returns. apply returns_bind.
    eapply returns_weaken; [by apply (save_saved_once q s Hs _ w) |].
    intros u w' Hsaved. by apply returns_ret.
Qed.

Lemma bounds_violations_are_silent_witness :
  let q := queue_with 25 None in
  let w := world_of [] [trackA; trackB; trackC] in
  returns (moveTrack q 3 0) w (fun _ w' => untouched w w')
  ∧ returns (moveTrack q 0 2) w (fun _ w' => saved_once "guild" w w')
  ∧ returns (replaceTrack q (-1) trackD) w
      (fun r w' => r = false ∧ untouched w w')
  ∧ returns (replaceTrack q 2 trackD) w
      (fun r w' => r = true ∧ saved_once "guild" w w')
  ∧ returns (swapTracks q 0 7) w (fun r w' => r = false ∧ untouched w w')
  ∧ returns (swapTracks q 0 2) w
      (fun r w' => r = true ∧ saved_once "guild" w w').
Proof.
  intros q w.
  assert (Hlen : length (stored_tracks (q_guildId q) w) = 3)
    by (vm_compute; reflexivity).
  destruct (bounds_violations_are_silent q {| saver_maxPreviousTracks := 25 |}
              w eq_refl) as (Hm0 & Hm1 & Hr0 & Hr1 & Hs0 & Hs1).
  rewrite Hlen in *.
  split; [apply Hm0; lia |]. split; [apply Hm1; lia |].
  split; [apply Hr0; lia |]. split; [apply Hr1; lia |].
  split; [apply Hs0; lia | apply Hs1; lia].
Defined.

(** C9 (defect).  NaN is no position of a list, but the bounds checks of
    [replaceTrack] and [moveTrack] let it through, since [NaN < 0] and
    [NaN >= length] are both false: [replaceTrack(NaN, track)] saves and
    returns [true], and [moveTrack(NaN, 2)] takes out the first track, puts
    it at position 2 and saves.  On integers the two methods are the ones
    the lemma above is about. *)
Theorem nan_passes_the_bounds_checks :
  let q := queue_with 25 None in
  let w := world_of [] [trackA; trackB; trackC] in
  let saved := [EvSet "guild" {| sq_current := None; sq_previous := 0;
                                 sq_tracks := 1 |}] in
  fst (replaceTrack_number q NaN trackD w) = Ret true
  ∧ saves (w_trace (snd (replaceTrack_number q NaN trackD w))) = saved
  ∧ stored_tracks "guild" (snd (replaceTrack_number q NaN trackD w))
    = [trackA; trackB; trackC]
  ∧ fst (moveTrack_number q NaN (Num 2) w) = Ret tt
  ∧ saves (w_trace (snd (moveTrack_number q NaN (Num 2) w))) = saved
  ∧ stored_tracks "guild" (snd (moveTrack_number q NaN (Num 2) w))
    = [trackB; trackC; trackA]
  ∧ (∀ q index track,
       replaceTrack_number q (Num index) track = replaceTrack q index track)
  ∧ (∀ q from to,
       moveTrack_number q (Num from) (Num to) = moveTrack q from to).
Proof.
  do 6 (split; [vm_compute; reflexivity |]).
  split; reflexivity.
Qed.

(** C10.  Without [queueOptions] the constructor throws, whatever the other
    arguments are; with it, the guild id alone is enough. *)
Theorem constructor_requires_queueOptions :
  (∀ guildId data saver, Queue_new guildId data saver None = Throw TypeError)
  ∧ (∀ guildId opts, ∃ q, Queue_new guildId None None (Some opts) = Ret q).
Proof.
  split.
  - intros guildId data saver. reflexivity.
  - intros guildId opts. eexists. reflexivity.
Qed.

(** * Further properties of the queue *)

(** ** What a save does to both lists *)

Lemma truncate_nonneg (cap : Z) (p : list Track) :
  (0 ≤ cap)%Z → truncate cap p = take (Z.to_nat cap) p.
Proof.
  intros H0. unfold truncate.
  destruct (Z.gtb_spec (Z.of_nat (length p)) cap) as [Hgt | Hle].
  - apply splice_truncate; lia.
  - symmetry. apply take_ge. lia.
Qed.

Lemma truncate_negative (cap : Z) (p : list Track) :
  (cap < 0)%Z → truncate cap p = take (Z.to_nat (Z.of_nat (length p) + cap)) p.
Proof.
  intros Hneg. unfold truncate.
  destruct (Z.gtb_spec (Z.of_nat (length p)) cap) as [Hgt | Hle]; [| lia].
  unfold js_splice, splice_start, splice_count. cbn [snd].
  destruct (Z.ltb_spec cap 0); [| lia].
  rewrite drop_ge by lia. rewrite !app_nil_r. f_equal. lia.
Qed.

Lemma truncate_idempotent (cap : Z) (p : list Track) :
  (0 ≤ cap)%Z → truncate cap (truncate cap p) = truncate cap p.
Proof.
  intros H0. rewrite !truncate_nonneg by done.
  rewrite take_take. f_equal. lia.
Qed.

Lemma save_effect (q : Queue) (s : QueueSaver) (Hs : q_QueueSaver q = Some s)
  (stored : StoredQueue) (w : World) :
  returns (_save q stored) w (fun _ w' =>
    w_data w' = <[q_guildId q := stored_document stored]> (w_data w)
    ∧ w_trace w' = w_trace w ++ [EvSet (q_guildId q) stored]
    ∧ heap_size w' = heap_size w
    ∧ (∀ l, l ≠ sq_previous stored → array_at w' l = array_at w l)
    ∧ array_at w' (sq_previous stored)
      = truncate (q_maxPreviousTracks q) (array_at w (sq_previous stored))).
Proof.
  unfold _save.
  apply returns_bind, read_returns.
  apply returns_bind, returns_when.
  - intros Hgt.
    apply returns_bind, array_splice_returns. apply returns_ret.
    apply returns_bind, (with_saver_returns q s Hs).
    eexists true, _. split; [reflexivity |].
    apply returns_ret. simpl.
    do 2 (split; [done |]).
    split. { apply heap_size_write. }
    split.
    + intros l Hl. etransitivity; [apply array_at_write |].
      case_decide as Hd; [| done]. destruct Hd; congruence.
    + etransitivity; [apply array_at_write |].
      unfold truncate. rewrite Hgt.
      case_decide as Hd; [done |].
      assert (Hout : heap_size w ≤ sq_previous stored).
      { destruct (decide (sq_previous stored < heap_size w)); [| lia].
        exfalso. by apply Hd. }
      rewrite (array_at_dangling _ _ Hout). unfold js_splice. simpl.
      by rewrite !take_nil, !drop_nil.
  - intros Hle.
    apply returns_bind, (with_saver_returns q s Hs).
    eexists true, _. split; [reflexivity |].
    apply returns_ret. simpl.
    do 4 (split; [done |]).
    unfold truncate. rewrite Hle. reflexivity.
Qed.

(** After a save of two distinct arrays the store shows the track list as
    it was left and the previous list cut to the cap. *)
Lemma save_lists (q : Queue) (s : QueueSaver) (Hs : q_QueueSaver q = Some s)
  (stored : StoredQueue) (w0 w : World) :
  sq_previous stored ≠ sq_tracks stored →
  sq_previous stored < heap_size w →
  sq_tracks stored < heap_size w →
  saves (w_trace w) = saves (w_trace w0) →
  returns (_save q stored) w (fun _ w' =>
    stored_tracks (q_guildId q) w' = array_at w (sq_tracks stored)
    ∧ stored_previous (q_guildId q) w'
      = truncate (q_maxPreviousTracks q) (array_at w (sq_previous stored))
    ∧ saved_once (q_guildId q) w0 w'
    ∧ distinct_arrays (q_guildId q) w' = true
    ∧ heap_size w' = heap_size w
    ∧ (∀ l, l ≠ sq_previous stored → array_at w' l = array_at w l)
    ∧ w_data w' = <[q_guildId q := stored_document stored]> (w_data w)).
Proof.
  intros Hne Hlp Hlt Htr.
  eapply returns_weaken; [apply (save_effect q s Hs stored w) |].
  intros _ w' (Hd & Ht & Hh & Hf & Hp).
  unfold stored_tracks, stored_previous, distinct_arrays.
  rewrite Hd, lookup_insert_eq, Hh. simpl.
  split; [apply Hf; congruence |]. split; [done |]. split.
  { exists stored. split; [| by rewrite Hd, lookup_insert_eq].
    by rewrite Ht, saves_app, Htr. }
  split; [| auto].
  apply andb_true_intro. split; [apply andb_true_intro; split |].
  - by apply negb_true_iff, Nat.eqb_neq.
  - by apply Nat.ltb_lt.
  - by apply Nat.ltb_lt.
Qed.

(** The start of every method: the lists of the store, in two arrays. *)
Ltac load_queue Hs Hwf :=
  apply returns_bind;
  eapply returns_weaken; [apply (load_returns _ _ Hs) |];
  intros stored w1 Hl;
  pose proof (loaded_saves _ _ _ _ Hl) as Hsv;
  pose proof (loaded_untouched _ _ _ _ Hl) as Hun;
  destruct Hl as (Hg & Htr & Hall & Ht & Hp & Hc & Hd);
  destruct (Hd Hwf) as (Hne & Hlp & Hlt).

Lemma array_at_written (w : World) (l : loc) (a : list Track) :
  l < heap_size w → array_at (with_heap (fun h => <[l := a]> h) w) l = a.
Proof. intros H. rewrite array_at_write. case_decide as Hd; [done |]. by destruct Hd. Qed.

Lemma array_at_other (w : World) (l l' : loc) (a : list Track) :
  l ≠ l' → array_at (with_heap (fun h => <[l := a]> h) w) l' = array_at w l'.
Proof. intros H. rewrite array_at_write. case_decide as Hd; [| done]. by destruct Hd. Qed.

(** ** Array.prototype.splice and slice, once more *)

(** Inserting at any position that is not negative; past the end means at
    the end. *)
Lemma splice_insert_any {A} (a items : list A) (i : Z) :
  (0 ≤ i)%Z →
  js_splice a i 0 items
  = ([], take (Z.to_nat i) a ++ items ++ drop (Z.to_nat i) a).
Proof.
  intros H0. destruct (Z.le_gt_cases i (Z.of_nat (length a))) as [Hle | Hgt].
  - by apply splice_insert.
  - unfold js_splice.
    assert (Hs : splice_start (Z.of_nat (length a)) i = Z.of_nat (length a)).
    { unfold splice_start. destruct (Z.ltb_spec i 0); lia. }
    rewrite Hs.
    assert (Hc : splice_count (Z.of_nat (length a)) (Z.of_nat (length a)) 0
                 = 0%Z) by (unfold splice_count; lia).
    rewrite Hc. simpl. rewrite Nat.add_0_r, Nat2Z.id.
    rewrite (take_ge a (length a)), (take_ge a (Z.to_nat i)) by lia.
    rewrite (drop_ge a (length a)), (drop_ge a (Z.to_nat i)) by lia.
    done.
Qed.

(** [splice] loses nothing: what it removes and what it leaves are the old
    elements and the inserted ones. *)
Lemma splice_conserves {A} (a items : list A) (start deleteCount : Z) :
  fst (js_splice a start deleteCount items)
  ++ snd (js_splice a start deleteCount items) ≡ₚ a ++ items.
Proof.
  unfold js_splice. cbn [fst snd].
  set (s := Z.to_nat (splice_start (Z.of_nat (length a)) start)).
  set (d := Z.to_nat (splice_count (Z.of_nat (length a))
                        (splice_start (Z.of_nat (length a)) start) deleteCount)).
  assert (Ha : a = take s a ++ take d (drop s a) ++ drop (s + d) a).
  { by rewrite <- drop_drop, !take_drop. }
  set (x := take s a) in *. set (y := take d (drop s a)) in *.
  set (z := drop (s + d) a) in *.
  transitivity ((x ++ y ++ z) ++ items); [| by rewrite <- Ha].
  rewrite (Permutation_app_comm items z), app_assoc.
  rewrite (Permutation_app_comm y x). by rewrite <- !app_assoc.
Qed.

(** ** The low-level list primitives *)

(** X1.  [pushTrack] appends and [unshiftTrack] prepends the given item,
    whatever it is (there is no validity check), both save once and return
    the new length; the previous list is only cut to the cap. *)
Theorem pushTrack_unshiftTrack_add_unchecked (q : Queue) (s : QueueSaver)
  (w : World) (track : Track) :
  q_QueueSaver q = Some s →
  distinct_arrays (q_guildId q) w = true →
  returns (pushTrack q track) w (fun n w' =>
    n = S (length (stored_tracks (q_guildId q) w))
    ∧ stored_tracks (q_guildId q) w' = stored_tracks (q_guildId q) w ++ [track]
    ∧ stored_previous (q_guildId q) w'
      = truncate (q_maxPreviousTracks q) (stored_previous (q_guildId q) w)
    ∧ saved_once (q_guildId q) w w')
  ∧ returns (unshiftTrack q track) w (fun n w' =>
      n = S (length (stored_tracks (q_guildId q) w))
      ∧ stored_tracks (q_guildId q) w' = track :: stored_tracks (q_guildId q) w
      ∧ stored_previous (q_guildId q) w'
        = truncate (q_maxPreviousTracks q) (stored_previous (q_guildId q) w)
      ∧ saved_once (q_guildId q) w w').
Proof.
  intros Hs Hwf. split.
  - unfold pushTrack. load_queue Hs Hwf.
    apply returns_bind, array_push_returns.
    apply returns_bind.
    eapply returns_weaken.
    { apply (save_lists q s Hs stored w); try done;
        rewrite ?heap_size_write; done. }
    intros u w' (H1 & H2 & H3 & _ & _ & H6 & _).
    apply array_length_returns.
    rewrite H6 by congruence.
    rewrite array_at_written, Ht in * by done.
    rewrite array_at_other, Hp in H2 by congruence.
    rewrite length_app. simpl. split; [lia | done].
  - unfold unshiftTrack. load_queue Hs Hwf.
    apply returns_bind, array_unshift_returns.
    apply returns_bind.
    eapply returns_weaken.
    { apply (save_lists q s Hs stored w); try done;
        rewrite ?heap_size_write; done. }
    intros u w' (H1 & H2 & H3 & _ & _ & H6 & _).
    apply array_length_returns.
    rewrite H6 by congruence.
    rewrite array_at_written, Ht in * by done.
    rewrite array_at_other, Hp in H2 by congruence.
    done.
Qed.

Lemma pushTrack_unshiftTrack_add_unchecked_witness :
  let q := queue_with 25 None in
  let w := world_of [trackD] [trackA] in
  let short := track_of "S" "Short" 9999 in
  returns (pushTrack q short) w (fun n w' =>
    n = S (length (stored_tracks "guild" w))
    ∧ stored_tracks "guild" w' = stored_tracks "guild" w ++ [short]
    ∧ stored_previous "guild" w' = truncate 25 (stored_previous "guild" w)
    ∧ saved_once "guild" w w')
  ∧ returns (unshiftTrack q short) w (fun n w' =>
      n = S (length (stored_tracks "guild" w))
      ∧ stored_tracks "guild" w' = short :: stored_tracks "guild" w
      ∧ stored_previous "guild" w' = truncate 25 (stored_previous "guild" w)
      ∧ saved_once "guild" w w').
Proof.
  apply (pushTrack_unshiftTrack_add_unchecked (queue_with 25 None)
           {| saver_maxPreviousTracks := 25 |});
    [reflexivity | vm_compute; reflexivity].
Defined.

Lemma array_shift_returns (l : loc) (w : World)
  (post : option Track → World → Prop) :
  match array_at w l with
  | x :: rest => post (Some x) (with_heap (fun h => <[l := rest]> h) w)
  | [] => post None w
  end →
  returns (array_shift l) w post.
Proof.
  intros H. unfold array_shift. apply returns_bind, read_returns.
  destruct (array_at w l) as [| x rest].
  - by apply returns_ret.
  - apply returns_bind, write_returns. by apply returns_ret.
Qed.

(** X2.  [shiftTrack] and [shiftPrevious] take the head of their list:
    on an empty list they return nothing, save nothing and change nothing;
    otherwise they return the head, leave the tail and save once.  After
    [shiftPrevious] the tail is also cut to the cap. *)
Theorem shift_takes_the_head (q : Queue) (s : QueueSaver) (w : World) :
  q_QueueSaver q = Some s →
  distinct_arrays (q_guildId q) w = true →
  returns (shiftTrack q) w (fun r w' =>
    match stored_tracks (q_guildId q) w with
    | [] => r = None ∧ untouched w w'
    | x :: rest =>
        r = Some x ∧ stored_tracks (q_guildId q) w' = rest
        ∧ saved_once (q_guildId q) w w'
    end)
  ∧ returns (shiftPrevious q) w (fun r w' =>
      match stored_previous (q_guildId q) w with
      | [] => r = None ∧ untouched w w'
      | x :: rest =>
          r = Some x
          ∧ stored_previous (q_guildId q) w'
            = truncate (q_maxPreviousTracks q) rest
          ∧ stored_tracks (q_guildId q) w' = stored_tracks (q_guildId q) w
          ∧ saved_once (q_guildId q) w w'
      end).
Proof.
  intros Hs Hwf. split.
  - unfold shiftTrack. load_queue Hs Hwf.
    apply returns_bind, array_shift_returns. rewrite Ht.
    destruct (stored_tracks (q_guildId q) w) as [| x rest].
    + apply returns_bind, returns_ret. by apply returns_ret.
    + apply returns_bind. cbn [is_object when].
      eapply returns_weaken.
      { apply (save_lists q s Hs stored w); try done;
          rewrite ?heap_size_write; done. }
      intros u w' (H1 & H2 & H3 & _). apply returns_ret.
      rewrite array_at_written in H1 by done. done.
  - unfold shiftPrevious. load_queue Hs Hwf.
    apply returns_bind, array_shift_returns. rewrite Hp.
    destruct (stored_previous (q_guildId q) w) as [| x rest].
    + apply returns_bind, returns_ret. by apply returns_ret.
    + apply returns_bind. cbn [is_object when].
      eapply returns_weaken.
      { apply (save_lists q s Hs stored w); try done;
          rewrite ?heap_size_write; done. }
      intros u w' (H1 & H2 & H3 & _). apply returns_ret.
      rewrite array_at_written in H2 by done.
      rewrite array_at_other, Ht in H1 by done. done.
Qed.

Lemma shift_takes_the_head_witness :
  let q := queue_with 1 None in
  let w := world_of [trackC; trackD; trackA] [] in
  returns (shiftTrack q) w (fun r w' =>
    match stored_tracks "guild" w with
    | [] => r = None ∧ untouched w w'
    | x :: rest =>
        r = Some x ∧ stored_tracks "guild" w' = rest
        ∧ saved_once "guild" w w'
    end)
  ∧ returns (shiftPrevious q) w (fun r w' =>
      match stored_previous "guild" w with
      | [] => r = None ∧ untouched w w'
      | x :: rest =>
          r = Some x
          ∧ stored_previous "guild" w' = truncate 1 rest
          ∧ stored_tracks "guild" w' = stored_tracks "guild" w
          ∧ saved_once "guild" w w'
      end).
Proof.
  apply (shift_takes_the_head (queue_with 1 None)
           {| saver_maxPreviousTracks := 1 |});
    [reflexivity | vm_compute; reflexivity].
Defined.

Lemma array_at_alloc_new (w : World) (a : list Track) :
  array_at (with_heap (fun h => h ++ [a]) w) (heap_size w) = a.
Proof. rewrite array_at_alloc. by case_decide. Qed.

Lemma array_at_alloc_old (w : World) (l : loc) (a : list Track) :
  l ≠ heap_size w → array_at (with_heap (fun h => h ++ [a]) w) l = array_at w l.
Proof. intros H. rewrite array_at_alloc. by case_decide. Qed.

Lemma load_full (q : Queue) (s : QueueSaver) (Hs : q_QueueSaver q = Some s)
  (w : World) :
  returns (_load q) w (fun stored w1 =>
    loaded q w stored w1 ∧ loaded_from q w stored).
Proof.
  destruct (load_returns q s Hs w) as (stored & w1 & Hrun & Hl).
  exists stored, w1. split; [done |]. split; [done |].
  revert Hrun. unfold _load, with_saver, QueueSaver_get,
    DefaultQueueStore_get, DefaultQueueStore_parse, bind, ret, loaded_from,
    previous_array, tracks_array.
  rewrite Hs.
  destruct (w_data w !! q_guildId q) as [[c [lp |] [lt |]] |]; simpl;
    intros [= <- <-]; simpl; unfold heap_size; rewrite ?length_app; simpl;
    split; lia || done.
Qed.

(** The start of a method, with the origin of the arrays. *)
Ltac load_queue_from Hs Hwf :=
  apply returns_bind;
  eapply returns_weaken; [apply (load_full _ _ Hs) |];
  intros stored w1 [Hl [Hfp Hft]];
  pose proof (loaded_saves _ _ _ _ Hl) as Hsv;
  pose proof (loaded_untouched _ _ _ _ Hl) as Hun;
  destruct Hl as (Hg & Htr & Hall & Ht & Hp & Hc & Hd);
  destruct (Hd Hwf) as (Hne & Hlp & Hlt).

(** X3.  [clearTracks] installs a new, empty array as the track list and
    saves once; it does not empty the old array, so every array that is
    not the previous list, the old track list among them, reads as
    before. *)
Theorem clearTracks_installs_new_array (q : Queue) (s : QueueSaver) (w : World) :
  q_QueueSaver q = Some s →
  distinct_arrays (q_guildId q) w = true →
  returns (clearTracks q) w (fun _ w' =>
    stored_tracks (q_guildId q) w' = []
    ∧ stored_previous (q_guildId q) w'
      = truncate (q_maxPreviousTracks q) (stored_previous (q_guildId q) w)
    ∧ saved_once (q_guildId q) w w'
    ∧ (∀ l, l < heap_size w →
            previous_array (q_guildId q) w ≠ Some l →
            array_at w' l = array_at w l)
    ∧ (∀ l, tracks_array (q_guildId q) w = Some l →
            tracks_array (q_guildId q) w' ≠ Some l
            ∧ array_at w' l = stored_tracks (q_guildId q) w)).
Proof.
  intros Hs Hwf. unfold clearTracks. load_queue_from Hs Hwf.
  apply returns_bind, alloc_returns.
  assert (Hsz : heap_size w ≤ heap_size w1) by apply Hg.
  eapply returns_weaken.
  { apply (save_lists q s Hs (with_tracks stored (heap_size w1)) w); simpl;
      rewrite ?heap_size_alloc; try lia. done. }
  intros u w' (H1 & H2 & H3 & _ & _ & H6 & H7). simpl in *.
  rewrite array_at_alloc_new in H1.
  rewrite array_at_alloc_old, Hp in H2 by lia.
  split; [done |]. split; [done |]. split; [done |]. split.
  - intros l Hl Hnp.
    assert (Hlne : l ≠ sq_previous stored).
    { intros ->. revert Hfp Hnp.
      destruct (previous_array (q_guildId q) w); simpl; intros HA HB;
        [apply HB; by rewrite HA | lia]. }
    rewrite (H6 _ Hlne), array_at_alloc_old by lia. by apply Hun.
  - intros l Hdoc. rewrite Hdoc in Hft. subst l. split.
    + unfold tracks_array. rewrite H7, lookup_insert_eq. simpl.
      intros [= Heq]. lia.
    + rewrite H6 by done. by rewrite array_at_alloc_old by lia.
Qed.

Lemma clearTracks_installs_new_array_witness :
  let q := queue_with 25 None in
  let w := world_of [trackD] [trackA; trackB] in
  returns (clearTracks q) w (fun _ w' =>
    stored_tracks "guild" w' = []
    ∧ stored_previous "guild" w' = truncate 25 (stored_previous "guild" w)
    ∧ saved_once "guild" w w'
    ∧ (∀ l, l < heap_size w →
            previous_array "guild" w ≠ Some l →
            array_at w' l = array_at w l)
    ∧ (∀ l, tracks_array "guild" w = Some l →
            tracks_array "guild" w' ≠ Some l
            ∧ array_at w' l = stored_tracks "guild" w)).
Proof.
  apply (clearTracks_installs_new_array (queue_with 25 None)
           {| saver_maxPreviousTracks := 25 |});
    [reflexivity | vm_compute; reflexivity].
Defined.

(** X4.  [setTracks] stores the caller's array itself, not a copy, and with
    no filtering: it saves once, [getTracks] then returns that very array,
    and whatever is later written to the array is what the queue holds,
    without any save. *)
Theorem setTracks_keeps_the_callers_array (q : Queue) (s : QueueSaver)
  (w : World) (tracks : loc) :
  q_QueueSaver q = Some s →
  distinct_arrays (q_guildId q) w = true →
  tracks < heap_size w →
  previous_array (q_guildId q) w ≠ Some tracks →
  returns (setTracks q tracks ;;; getTracks q) w (fun r w' =>
    r = tracks
    ∧ stored_tracks (q_guildId q) w' = array_at w tracks
    ∧ saved_once (q_guildId q) w w'
    ∧ ∀ a, stored_tracks (q_guildId q) (snd (write tracks a w')) = a).
Proof.
  intros Hs Hwf Hin Hnp. apply returns_bind. unfold setTracks.
  load_queue_from Hs Hwf.
  assert (Hsz : heap_size w ≤ heap_size w1) by apply Hg.
  assert (Hlne : sq_previous stored ≠ tracks).
  { revert Hfp Hnp. destruct (previous_array (q_guildId q) w); simpl;
      intros HA HB; [| lia]. intros <-. apply HB. by rewrite HA. }
  eapply returns_weaken.
  { apply (save_lists q s Hs (with_tracks stored tracks) w); simpl;
      try done. lia. }
  intros u w2 (H1 & H2 & H3 & _ & H5 & H6 & H7). simpl in *.
  unfold getTracks. apply returns_bind.
  eapply returns_weaken; [apply (load_full _ _ Hs) |].
  intros stored3 w3 [Hl3 [_ Hft3]]. apply returns_ret.
  assert (Hdoc : tracks_array (q_guildId q) w2 = Some tracks).
  { unfold tracks_array. by rewrite H7, lookup_insert_eq. }
  rewrite Hdoc in Hft3.
  pose proof (loaded_saves _ _ _ _ Hl3) as Hsv3.
  destruct Hl3 as (Hg3 & Htr3 & Hall3 & Ht3 & _).
  assert (Hd3 : w_data w3 = w_data w2) by apply Hg3.
  assert (Hsz3 : heap_size w2 ≤ heap_size w3) by apply Hg3.
  split; [done |]. split.
  { transitivity (stored_tracks (q_guildId q) w2).
    - unfold stored_tracks. rewrite Hd3.
      by destruct (w_data w2 !! q_guildId q ≫= p_tracks).
    - rewrite H1. by apply Hun. }
  split.
  { destruct H3 as (st & Hst & Hdst). exists st. split; [congruence |].
    by rewrite Hd3. }
  intros a. unfold stored_tracks, write. simpl.
  fold (tracks_array (q_guildId q) w3).
  replace (tracks_array (q_guildId q) w3) with (Some tracks)
    by (unfold tracks_array in *; by rewrite Hd3).
  change (array_at (with_heap (fun h => <[tracks := a]> h) w3) tracks = a).
  apply array_at_written. lia.
Qed.

Lemma setTracks_keeps_the_callers_array_witness :
  let q := queue_with 25 None in
  let w := {| w_heap := [[trackD]; [trackA]; [track_of "S" "Short" 9999]];
              w_data := {[ "guild" := {| p_current := None;
                                         p_previous := Some 0%nat;
                                         p_tracks := Some 1%nat |} ]};
              w_random := half; w_draws := 0; w_trace := [] |} in
  returns (setTracks q 2 ;;; getTracks q) w (fun r w' =>
    r = 2
    ∧ stored_tracks "guild" w' = array_at w 2
    ∧ saved_once "guild" w w'
    ∧ ∀ a, stored_tracks "guild" (snd (write 2 a w')) = a).
Proof.
  apply (setTracks_keeps_the_callers_array (queue_with 25 None)
           {| saver_maxPreviousTracks := 25 |}).
  - reflexivity.
  - vm_compute. reflexivity.
  - vm_compute. lia.
  - vm_compute. discriminate.
Defined.

Lemma at_index_None {A} (a : list A) (i : Z) :
  at_index a i = None ↔ ¬ (0 ≤ i < Z.of_nat (length a))%Z.
Proof.
  unfold at_index. destruct (Z.ltb_spec i 0).
  - split; [lia | done].
  - rewrite lookup_ge_None. lia.
Qed.

Lemma findIndex_found {A} (p : A → bool) (a : list A) :
  findIndex p a = (-1)%Z ∧ (∀ v, v ∈ a → p v = false)
  ∨ ∃ v, at_index a (findIndex p a) = Some v ∧ p v = true
         ∧ ∀ j u, (0 ≤ j < findIndex p a)%Z → at_index a j = Some u →
                  p u = false.
Proof.
  pose proof (findIndex_bounds p a) as Hb.
  destruct (Z.ltb_spec (findIndex p a) 0) as [Hneg | Hpos].
  - left. split; [lia |]. by apply findIndex_none.
  - right. by apply findIndex_first.
Qed.

(** X5.  The read accessors load and return what the store holds, save
    nothing and call no watcher: [getTrackCount] is the length of the list
    behind [getTracks], [getTrack] and [getPreviousTrack] return nothing
    exactly for an index outside the list, and [findTrackIndex] returns the
    position of the first track that satisfies the predicate, [-1] when
    none does. *)
Theorem reads_do_not_save (q : Queue) (s : QueueSaver) (w : World) :
  q_QueueSaver q = Some s →
  returns (getTracks q) w (fun l w' =>
    array_at w' l = stored_tracks (q_guildId q) w ∧ untouched w w')
  ∧ returns (getTrackCount q) w (fun n w' =>
      n = length (stored_tracks (q_guildId q) w) ∧ untouched w w')
  ∧ returns (getPreviousCount q) w (fun n w' =>
      n = length (stored_previous (q_guildId q) w) ∧ untouched w w')
  ∧ (∀ index, returns (getTrack q index) w (fun r w' =>
       r = at_index (stored_tracks (q_guildId q) w) index
       ∧ (r = None
          ↔ ¬ (0 ≤ index
               < Z.of_nat (length (stored_tracks (q_guildId q) w)))%Z)
       ∧ untouched w w'))
  ∧ (∀ index, returns (getPreviousTrack q index) w (fun r w' =>
       r = at_index (stored_previous (q_guildId q) w) index
       ∧ (r = None
          ↔ ¬ (0 ≤ index
               < Z.of_nat (length (stored_previous (q_guildId q) w)))%Z)
       ∧ untouched w w'))
  ∧ (∀ predicate, returns (findTrackIndex q predicate) w (fun k w' =>
       (k = (-1)%Z
        ∧ (∀ v, v ∈ stored_tracks (q_guildId q) w → predicate v = false)
        ∨ ∃ v, at_index (stored_tracks (q_guildId q) w) k = Some v
               ∧ predicate v = true
               ∧ ∀ j u, (0 ≤ j < k)%Z →
                        at_index (stored_tracks (q_guildId q) w) j = Some u →
                        predicate u = false)
       ∧ untouched w w')).
Proof.
  intros Hs.
  assert (Hload : ∀ {A} (k : StoredQueue → M A) (post : A → World → Prop),
    (∀ stored w1, untouched w w1 →
        array_at w1 (sq_tracks stored) = stored_tracks (q_guildId q) w →
        array_at w1 (sq_previous stored) = stored_previous (q_guildId q) w →
        returns (k stored) w1 post) →
    returns (stored <- _load q ;; k stored) w post).
  { intros A k post Hk. apply returns_bind.
    eapply returns_weaken; [apply (load_returns _ _ Hs) |].
    intros stored w1 Hl.
    pose proof (loaded_untouched _ _ _ _ Hl) as Hun.
    destruct Hl as (_ & _ & _ & Ht & Hp & _). by apply Hk. }
  split; [| split; [| split; [| split; [| split]]]].
  - apply Hload. intros stored w1 Hun Ht Hp. by apply returns_ret.
  - apply Hload. intros stored w1 Hun Ht Hp.
    apply array_length_returns. by rewrite Ht.
  - apply Hload. intros stored w1 Hun Ht Hp.
    apply array_length_returns. by rewrite Hp.
  - intros index. apply Hload. intros stored w1 Hun Ht Hp.
    apply returns_bind, read_returns, returns_ret. rewrite Ht.
    split; [done |]. split; [apply at_index_None | done].
  - intros index. apply Hload. intros stored w1 Hun Ht Hp.
    apply returns_bind, read_returns, returns_ret. rewrite Hp.
    split; [done |]. split; [apply at_index_None | done].
  - intros predicate. apply Hload. intros stored w1 Hun Ht Hp.
    apply returns_bind, read_returns, returns_ret. rewrite Ht.
    split; [apply findIndex_found | done].
Qed.

Lemma reads_do_not_save_witness :
  let q := queue_with 25 (Some myCustomWatcher) in
  let w := world_of [trackD] [trackA; trackB] in
  returns (getTrackCount q) w (fun n w' =>
    n = length (stored_tracks "guild" w) ∧ untouched w w')
  ∧ returns (getTrack q 2) w (fun r w' =>
      r = at_index (stored_tracks "guild" w) 2
      ∧ (r = None
         ↔ ¬ (0 ≤ 2 < Z.of_nat (length (stored_tracks "guild" w)))%Z)
      ∧ untouched w w').
Proof.
  intros q w.
  destruct (reads_do_not_save q {| saver_maxPreviousTracks := 25 |} w eq_refl)
    as (_ & Hcount & _ & Hget & _).
  split; [exact Hcount | exact (Hget 2%Z)].
Defined.

Lemma js_slice_from {A} (a : list A) (start : Z) :
  (0 ≤ start)%Z → js_slice a start None = drop (Z.to_nat start) a.
Proof.
  intros H0. unfold js_slice, splice_start.
  destruct (Z.ltb_spec start 0); [lia |].
  destruct (Z.le_gt_cases start (Z.of_nat (length a))).
  - rewrite Z.min_l by lia. apply take_ge. rewrite length_drop. lia.
  - rewrite Z.min_r by lia. rewrite Nat2Z.id.
    rewrite !drop_ge by lia. by rewrite take_nil.
Qed.

Lemma js_slice_between {A} (a : list A) (start stop : Z) :
  (0 ≤ start ≤ stop)%Z → (stop ≤ Z.of_nat (length a))%Z →
  js_slice a start (Some stop)
  = take (Z.to_nat (stop - start)) (drop (Z.to_nat start) a).
Proof.
  intros H0 H1. unfold js_slice, splice_start.
  destruct (Z.ltb_spec start 0); [lia |]. destruct (Z.ltb_spec stop 0); [lia |].
  by rewrite !Z.min_l by lia.
Qed.

(** X6.  [getTracksSlice] returns a new array, not the stored one: it holds
    [slice(start, end)] of the track list (the tracks from [start] on when
    [end] is missing, those from [start] up to [end] when both lie in the
    list in that order), nothing is saved, and writing to the returned
    array leaves the queue's list as it is. *)
Theorem getTracksSlice_returns_a_copy (q : Queue) (s : QueueSaver) (w : World)
  (start : Z) (end_ : option Z) :
  q_QueueSaver q = Some s →
  distinct_arrays (q_guildId q) w = true →
  returns (getTracksSlice q start end_) w (fun l w' =>
    let old := stored_tracks (q_guildId q) w in
    array_at w' l = js_slice old start end_
    ∧ (end_ = None → (0 ≤ start)%Z →
       array_at w' l = drop (Z.to_nat start) old)
    ∧ (∀ stop, end_ = Some stop → (0 ≤ start ≤ stop)%Z →
               (stop ≤ Z.of_nat (length old))%Z →
               array_at w' l
               = take (Z.to_nat (stop - start)) (drop (Z.to_nat start) old))
    ∧ untouched w w'
    ∧ ∀ a, stored_tracks (q_guildId q) (snd (write l a w')) = old).
Proof.
  intros Hs Hwf. unfold getTracksSlice. load_queue_from Hs Hwf.
  assert (Hsz : heap_size w ≤ heap_size w1) by apply Hg.
  apply returns_bind, read_returns. apply alloc_returns.
  rewrite Ht, array_at_alloc_new.
  split; [done |]. split.
  { intros -> H0. by apply js_slice_from. }
  split.
  { intros stop -> H0 H1. by apply js_slice_between. }
  destruct Hun as (Hud & Hut & Hua).
  split.
  { split; [done |]. split; [done |]. intros l Hl.
    rewrite array_at_alloc_old by lia. by apply Hua. }
  intros a. unfold stored_tracks, write. simpl.
  rewrite Hud. fold (tracks_array (q_guildId q) w).
  unfold stored_tracks in Ht. fold (tracks_array (q_guildId q) w) in Ht.
  revert Hft Ht. destruct (tracks_array (q_guildId q) w) as [l0 |]; simpl;
    [| done].
  intros HA HB. rewrite <- HB. subst l0.
  change (array_at
            (with_heap (fun h => <[heap_size w1 := a]> h)
               (with_heap
                  (fun h => h ++ [js_slice (array_at w1 (sq_tracks stored))
                                    start end_]) w1))
            (sq_tracks stored) = array_at w1 (sq_tracks stored)).
  rewrite array_at_other, array_at_alloc_old by lia. done.
Qed.

Lemma getTracksSlice_returns_a_copy_witness :
  let q := queue_with 25 None in
  let w := world_of [] [trackA; trackB; trackC; trackD] in
  returns (getTracksSlice q 1 (Some 3%Z)) w (fun l w' =>
    let old := stored_tracks "guild" w in
    array_at w' l = js_slice old 1 (Some 3%Z)
    ∧ (Some 3%Z = None → (0 ≤ 1)%Z → array_at w' l = drop (Z.to_nat 1) old)
    ∧ (∀ stop, Some 3%Z = Some stop → (0 ≤ 1 ≤ stop)%Z →
               (stop ≤ Z.of_nat (length old))%Z →
               array_at w' l = take (Z.to_nat (stop - 1)) (drop (Z.to_nat 1) old))
    ∧ untouched w w'
    ∧ ∀ a, stored_tracks "guild" (snd (write l a w')) = old).
Proof.
  apply (getTracksSlice_returns_a_copy (queue_with 25 None)
           {| saver_maxPreviousTracks := 25 |});
    [reflexivity | vm_compute; reflexivity].
Defined.

Lemma splice_start_range (len start : Z) :
  (0 ≤ len)%Z → (0 ≤ splice_start len start ≤ len)%Z.
Proof. intros H. unfold splice_start. destruct (Z.ltb_spec start 0); lia. Qed.

Lemma splice_nothing_removed {A} (a items : list A) (start : Z) :
  fst (js_splice a start 0 items) = [].
Proof.
  unfold js_splice, splice_count. cbn [fst].
  pose proof (splice_start_range (Z.of_nat (length a)) start ltac:(lia)).
  rewrite Z.max_l by lia. rewrite Z.min_l by lia. apply take_0.
Qed.

Lemma delete_perm {A} (a : list A) (i : nat) (x : A) :
  a !! i = Some x → x :: delete i a ≡ₚ a.
Proof.
  intros Hx. rewrite delete_take_drop.
  rewrite <- (take_drop_middle a i x Hx) at 3.
  by rewrite Permutation_middle.
Qed.

(** X7.  [moveTrack] with [from] inside the list takes the track out and
    puts it back with [splice(to, 0, track)]: for [to >= 0] it ends up at
    position [to] of the remaining tracks, or at the end when [to] lies
    past it; in every case the list is a permutation of the old one, and
    it is saved once. *)
Theorem moveTrack_relocates (q : Queue) (s : QueueSaver) (w : World)
  (from to : Z) (x : Track) :
  q_QueueSaver q = Some s →
  distinct_arrays (q_guildId q) w = true →
  at_index (stored_tracks (q_guildId q) w) from = Some x →
  returns (moveTrack q from to) w (fun _ w' =>
    let rest := delete (Z.to_nat from) (stored_tracks (q_guildId q) w) in
    stored_tracks (q_guildId q) w' = snd (js_splice rest to 0 [x])
    ∧ ((0 ≤ to)%Z →
       stored_tracks (q_guildId q) w'
       = take (Z.to_nat to) rest ++ x :: drop (Z.to_nat to) rest)
    ∧ stored_tracks (q_guildId q) w' ≡ₚ stored_tracks (q_guildId q) w
    ∧ saved_once (q_guildId q) w w').
Proof.
  intros Hs Hwf Hx. unfold moveTrack. load_queue Hs Hwf.
  apply returns_bind, read_returns. rewrite Ht.
  pose proof Hx as Hx'. unfold at_index in Hx'.
  destruct (Z.ltb_spec from 0) as [| Hfrom]; [done |].
  pose proof (lookup_lt_Some _ _ _ Hx') as Hlen.
  destruct (Z.leb_spec (Z.of_nat (length (stored_tracks (q_guildId q) w))) from);
    [lia |]. cbn [orb].
  apply returns_bind, array_splice_returns. rewrite Ht.
  rewrite (splice_delete_one _ _ _ Hx). cbn [fst snd].
  rewrite <- delete_take_drop.
  apply returns_bind.
  apply returns_bind, array_splice_returns.
  rewrite array_at_written by done.
  apply returns_ret.
  eapply returns_weaken.
  { apply (save_lists q s Hs stored w); try done;
      rewrite ?heap_size_write; done. }
  intros u w' (H1 & _ & H3 & _).
  rewrite array_at_written in H1 by (by rewrite heap_size_write).
  split; [done |]. split.
  { intros Hto. rewrite H1, splice_insert_any by done. done. }
  split; [| done].
  rewrite H1.
  pose proof (splice_conserves
                (delete (Z.to_nat from) (stored_tracks (q_guildId q) w))
                [x] to 0) as Hcons.
  rewrite splice_nothing_removed in Hcons. simpl in Hcons. rewrite Hcons.
  rewrite <- Permutation_cons_append. by apply delete_perm.
Qed.

Lemma moveTrack_relocates_witness :
  let q := queue_with 25 None in
  let w := world_of [] [trackA; trackB; trackC; trackD] in
  returns (moveTrack q 0 2) w (fun _ w' =>
    let rest := delete (Z.to_nat 0) (stored_tracks "guild" w) in
    stored_tracks "guild" w' = snd (js_splice rest 2 0 [trackA])
    ∧ ((0 ≤ 2)%Z →
       stored_tracks "guild" w'
       = take (Z.to_nat 2) rest ++ trackA :: drop (Z.to_nat 2) rest)
    ∧ stored_tracks "guild" w' ≡ₚ stored_tracks "guild" w
    ∧ saved_once "guild" w w').
Proof.
  apply (moveTrack_relocates (queue_with 25 None)
           {| saver_maxPreviousTracks := 25 |});
    [reflexivity | vm_compute; reflexivity | vm_compute; reflexivity].
Defined.
(** ** Replacing and swapping *)

Lemma loaded_lists (q : Queue) (w : World) (stored : StoredQueue) (w1 : World) :
  loaded q w stored w1 →
  stored_tracks (q_guildId q) w1 = stored_tracks (q_guildId q) w
  ∧ stored_previous (q_guildId q) w1 = stored_previous (q_guildId q) w.
Proof.
  intros Hl. pose proof (loaded_untouched _ _ _ _ Hl) as [Hd _].
  destruct Hl as (_ & _ & Hall & _).
  unfold stored_tracks, stored_previous. rewrite Hd.
  split.
  - destruct (w_data w !! q_guildId q ≫= p_tracks); [apply Hall | done].
  - destruct (w_data w !! q_guildId q ≫= p_previous); [apply Hall | done].
Qed.

Lemma getTrack_returns (q : Queue) (s : QueueSaver) (w : World) (index : Z) :
  q_QueueSaver q = Some s →
  returns (getTrack q index) w (fun r w' =>
    r = at_index (stored_tracks (q_guildId q) w) index
    ∧ stored_tracks (q_guildId q) w' = stored_tracks (q_guildId q) w
    ∧ untouched w w').
Proof.
  intros Hs. unfold getTrack. apply returns_bind.
  eapply returns_weaken; [apply (load_returns _ _ Hs) |].
  intros stored w1 Hl.
  pose proof (loaded_lists _ _ _ _ Hl) as [Hlt _].
  pose proof (loaded_untouched _ _ _ _ Hl) as Hun.
  destruct Hl as (_ & _ & _ & Ht & _).
  apply returns_bind, read_returns. apply returns_ret. by rewrite Ht.
Qed.

Lemma replaceTrack_lists (q : Queue) (s : QueueSaver) (w : World)
  (index : Z) (track : Track) :
  q_QueueSaver q = Some s →
  distinct_arrays (q_guildId q) w = true →
  (0 ≤ index < Z.of_nat (length (stored_tracks (q_guildId q) w)))%Z →
  returns (replaceTrack q index track) w (fun r w' =>
    r = true
    ∧ stored_tracks (q_guildId q) w'
      = <[Z.to_nat index := track]> (stored_tracks (q_guildId q) w)
    ∧ stored_previous (q_guildId q) w'
      = truncate (q_maxPreviousTracks q) (stored_previous (q_guildId q) w)
    ∧ saved_once (q_guildId q) w w'
    ∧ distinct_arrays (q_guildId q) w' = true).
Proof.
  intros Hs Hwf Hin. unfold replaceTrack. load_queue Hs Hwf.
  apply returns_bind, read_returns. rewrite Ht.
  destruct (Z.ltb_spec index 0); [lia |].
  destruct (Z.leb_spec (Z.of_nat (length (stored_tracks (q_guildId q) w))) index);
    [lia |]. cbn [orb].
  apply returns_bind, write_returns. apply returns_bind.
  eapply returns_weaken.
  { apply (save_lists q s Hs stored w); try done;
      rewrite ?heap_size_write; done. }
  intros u w' (H1 & H2 & H3 & H4 & _). apply returns_ret.
  rewrite array_at_written in H1 by done.
  rewrite array_at_other, Hp in H2 by done.
  unfold set_index in H1. destruct (Z.ltb_spec index 0); [lia |]. done.
Qed.

Lemma swap_index_inside {A} (a : list A) (i j : Z) (x y : A) :
  at_index a i = Some x → at_index a j = Some y →
  swap_index a i j = <[Z.to_nat j := x]> (<[Z.to_nat i := y]> a).
Proof.
  intros Hi Hj. unfold swap_index. rewrite Hi, Hj.
  unfold at_index in Hi, Hj. unfold set_index.
  destruct (Z.ltb_spec i 0); [done |]. destruct (Z.ltb_spec j 0); done.
Qed.

Lemma swap_index_twice {A} (a : list A) (i j : Z) :
  (0 ≤ i < Z.of_nat (length a))%Z → (0 ≤ j < Z.of_nat (length a))%Z →
  swap_index (swap_index a i j) i j = a.
Proof.
  intros Hi Hj.
  assert (Hx : is_Some (a !! Z.to_nat i)) by (apply lookup_lt_is_Some; lia).
  assert (Hy : is_Some (a !! Z.to_nat j)) by (apply lookup_lt_is_Some; lia).
  destruct Hx as [x Hx], Hy as [y Hy].
  assert (Hai : at_index a i = Some x).
  { unfold at_index. destruct (Z.ltb_spec i 0); [lia | done]. }
  assert (Haj : at_index a j = Some y).
  { unfold at_index. destruct (Z.ltb_spec j 0); [lia | done]. }
  rewrite (swap_index_inside a i j x y Hai Haj).
  set (b := <[Z.to_nat j := x]> (<[Z.to_nat i := y]> a)).
  assert (Hlen : length b = length a) by (unfold b; by rewrite !length_insert).
  assert (Hbj : b !! Z.to_nat j = Some x).
  { unfold b. apply list_lookup_insert_eq. rewrite length_insert. lia. }
  assert (Hbi : b !! Z.to_nat i = Some (if decide (Z.to_nat i = Z.to_nat j) then x else y)).
  { unfold b. case_decide as Hd.
    - rewrite Hd. apply list_lookup_insert_eq. rewrite length_insert. lia.
    - rewrite list_lookup_insert_ne by done.
      apply list_lookup_insert_eq. lia. }
  rewrite (swap_index_inside b i j
             (if decide (Z.to_nat i = Z.to_nat j) then x else y) x).
  2: { unfold at_index. destruct (Z.ltb_spec i 0); [lia | exact Hbi]. }
  2: { unfold at_index. destruct (Z.ltb_spec j 0); [lia | exact Hbj]. }
  apply list_eq. intros k.
  destruct (decide (Z.to_nat j = k)) as [<- | Hjk].
  { rewrite list_lookup_insert_eq by (rewrite length_insert; lia).
    case_decide as Hd; [| by rewrite Hy]. by rewrite <- Hd, Hx. }
  rewrite list_lookup_insert_ne by done.
  destruct (decide (Z.to_nat i = k)) as [<- | Hik].
  { rewrite list_lookup_insert_eq by lia. by rewrite Hx. }
  rewrite list_lookup_insert_ne by done.
  unfold b. by rewrite !list_lookup_insert_ne by done.
Qed.

Lemma swapTracks_lists (q : Queue) (s : QueueSaver) (w : World) (i j : Z) :
  q_QueueSaver q = Some s →
  distinct_arrays (q_guildId q) w = true →
  (0 ≤ i < Z.of_nat (length (stored_tracks (q_guildId q) w)))%Z →
  (0 ≤ j < Z.of_nat (length (stored_tracks (q_guildId q) w)))%Z →
  returns (swapTracks q i j) w (fun r w' =>
    r = true
    ∧ stored_tracks (q_guildId q) w'
      = swap_index (stored_tracks (q_guildId q) w) i j
    ∧ stored_previous (q_guildId q) w'
      = truncate (q_maxPreviousTracks q) (stored_previous (q_guildId q) w)
    ∧ saved_once (q_guildId q) w w'
    ∧ distinct_arrays (q_guildId q) w' = true).
Proof.
  intros Hs Hwf Hi Hj. unfold swapTracks. load_queue Hs Hwf.
  apply returns_bind, read_returns. rewrite Ht.
  destruct (Z.ltb_spec i 0); [lia |].
  destruct (Z.leb_spec (Z.of_nat (length (stored_tracks (q_guildId q) w))) i);
    [lia |].
  destruct (Z.ltb_spec j 0); [lia |].
  destruct (Z.leb_spec (Z.of_nat (length (stored_tracks (q_guildId q) w))) j);
    [lia |]. cbn [orb].
  apply returns_bind, array_swap_returns. apply returns_bind.
  eapply returns_weaken.
  { apply (save_lists q s Hs stored w); try done;
      rewrite ?heap_size_write; done. }
  intros u w' (E1 & E2 & E3 & E4 & _). apply returns_ret.
  rewrite array_at_written in E1 by done.
  rewrite array_at_other, Hp in E2 by done.
  rewrite Ht in E1. done.
Qed.

(** X8.  [replaceTrack] with an index inside the list returns [true] and
    overwrites that position only: the list keeps its length, every other
    position keeps its track, and a [getTrack] of the same index right
    after it returns the new track. *)
Theorem replaceTrack_then_getTrack (q : Queue) (s : QueueSaver) (w : World)
  (index : Z) (track : Track) :
  q_QueueSaver q = Some s →
  distinct_arrays (q_guildId q) w = true →
  (0 ≤ index < Z.of_nat (length (stored_tracks (q_guildId q) w)))%Z →
  returns (r <- replaceTrack q index track ;;
           t <- getTrack q index ;; ret (r, t)) w
    (fun rt w' =>
       rt = (true, Some track)
       ∧ length (stored_tracks (q_guildId q) w')
         = length (stored_tracks (q_guildId q) w)
       ∧ (∀ k, k ≠ index →
            at_index (stored_tracks (q_guildId q) w') k
            = at_index (stored_tracks (q_guildId q) w) k)
       ∧ saved_once (q_guildId q) w w').
Proof.
  intros Hs Hwf Hin. apply returns_bind.
  eapply returns_weaken; [by apply (replaceTrack_lists q s w) |].
  intros r w1 (-> & Ht1 & _ & Hs1 & _).
  apply returns_bind.
  eapply returns_weaken; [by apply (getTrack_returns q s w1) |].
  intros t w2 (-> & Ht2 & Hu2). apply returns_ret.
  rewrite Ht2, Ht1. split.
  { f_equal. f_equal. unfold at_index.
    destruct (Z.ltb_spec index 0); [lia |].
    apply list_lookup_insert_eq. lia. }
  split; [by rewrite length_insert |]. split.
  { intros k Hk. unfold at_index. destruct (Z.ltb_spec k 0); [done |].
    apply list_lookup_insert_ne. lia. }
  destruct Hs1 as (st & Hsv & Hdoc). exists st.
  destruct Hu2 as (Hd2 & Htr2 & _). by rewrite Hd2, Htr2.
Qed.

Lemma replaceTrack_then_getTrack_witness :
  let q := queue_with 25 None in
  let w := world_of [] [trackA; trackB; trackC] in
  returns (r <- replaceTrack q 1 trackD ;;
           t <- getTrack q 1 ;; ret (r, t)) w
    (fun rt w' =>
       rt = (true, Some trackD)
       ∧ length (stored_tracks "guild" w') = length (stored_tracks "guild" w)
       ∧ (∀ k, k ≠ 1%Z →
            at_index (stored_tracks "guild" w') k
            = at_index (stored_tracks "guild" w) k)
       ∧ saved_once "guild" w w').
Proof.
  apply (replaceTrack_then_getTrack (queue_with 25 None)
           {| saver_maxPreviousTracks := 25 |});
    [reflexivity | vm_compute; reflexivity | vm_compute; split; discriminate || reflexivity].
Defined.

(** X9.  [swapTracks] with both indices inside the list returns [true] and
    exchanges the two tracks, leaving every other position alone; swapping
    the same two positions again gives back the list as it was. *)
Theorem swapTracks_exchanges (q : Queue) (s : QueueSaver) (w : World)
  (i j : Z) (x y : Track) :
  q_QueueSaver q = Some s →
  distinct_arrays (q_guildId q) w = true →
  at_index (stored_tracks (q_guildId q) w) i = Some x →
  at_index (stored_tracks (q_guildId q) w) j = Some y →
  returns (swapTracks q i j) w (fun r w' =>
    r = true
    ∧ at_index (stored_tracks (q_guildId q) w') i = Some y
    ∧ at_index (stored_tracks (q_guildId q) w') j = Some x
    ∧ (∀ k, k ≠ i → k ≠ j →
         at_index (stored_tracks (q_guildId q) w') k
         = at_index (stored_tracks (q_guildId q) w) k)
    ∧ stored_tracks (q_guildId q) w' ≡ₚ stored_tracks (q_guildId q) w)
  ∧ returns (swapTracks q i j ;;; swapTracks q i j) w (fun r w' =>
      r = true
      ∧ stored_tracks (q_guildId q) w' = stored_tracks (q_guildId q) w).
Proof.
  intros Hs Hwf Hx Hy.
  assert (Hi : (0 ≤ i < Z.of_nat (length (stored_tracks (q_guildId q) w)))%Z).
  { unfold at_index in Hx. destruct (Z.ltb_spec i 0); [done |].
    apply lookup_lt_Some in Hx. lia. }
  assert (Hj : (0 ≤ j < Z.of_nat (length (stored_tracks (q_guildId q) w)))%Z).
  { unfold at_index in Hy. destruct (Z.ltb_spec j 0); [done |].
    apply lookup_lt_Some in Hy. lia. }
  split.
  - eapply returns_weaken; [by apply (swapTracks_lists q s w) |].
    intros r w' (-> & Ht1 & _). rewrite Ht1.
    split; [done |].
    rewrite (swap_index_inside _ i j x y Hx Hy).
    unfold at_index.
    destruct (Z.ltb_spec i 0); [lia |]. destruct (Z.ltb_spec j 0); [lia |].
    split.
    { destruct (decide (Z.to_nat j = Z.to_nat i)) as [He | Hne].
      - rewrite He. rewrite list_lookup_insert_eq by (rewrite length_insert; lia).
        unfold at_index in Hx, Hy.
        destruct (Z.ltb_spec i 0); [lia |]. destruct (Z.ltb_spec j 0); [lia |].
        rewrite He in Hy. congruence.
      - rewrite list_lookup_insert_ne by done.
        apply list_lookup_insert_eq. lia. }
    split.
    { apply list_lookup_insert_eq. rewrite length_insert. lia. }
    split.
    { intros k Hki Hkj. destruct (Z.ltb_spec k 0); [done |].
      rewrite !list_lookup_insert_ne by lia. done. }
    rewrite <- (swap_index_inside _ i j x y Hx Hy). apply swap_index_perm.
  - apply returns_bind.
    eapply returns_weaken; [by apply (swapTracks_lists q s w) |].
    intros r w1 (-> & Ht1 & _ & _ & Hwf1).
    eapply returns_weaken.
    { apply (swapTracks_lists q s w1 i j Hs Hwf1);
        rewrite Ht1; rewrite (swap_index_inside _ i j x y Hx Hy);
        rewrite !length_insert; done. }
    intros r w2 (-> & Ht2 & _). split; [done |].
    rewrite Ht2, Ht1. by apply swap_index_twice.
Qed.

Lemma swapTracks_exchanges_witness :
  let q := queue_with 25 None in
  let w := world_of [] [trackA; trackB; trackC] in
  returns (swapTracks q 0 2) w (fun r w' =>
    r = true
    ∧ at_index (stored_tracks "guild" w') 0 = Some trackC
    ∧ at_index (stored_tracks "guild" w') 2 = Some trackA
    ∧ (∀ k, k ≠ 0%Z → k ≠ 2%Z →
         at_index (stored_tracks "guild" w') k
         = at_index (stored_tracks "guild" w) k)
    ∧ stored_tracks "guild" w' ≡ₚ stored_tracks "guild" w)
  ∧ returns (swapTracks q 0 2 ;;; swapTracks q 0 2) w (fun r w' =>
      r = true ∧ stored_tracks "guild" w' = stored_tracks "guild" w).
Proof.
  apply (swapTracks_exchanges (queue_with 25 None)
           {| saver_maxPreviousTracks := 25 |});
    [reflexivity | vm_compute; reflexivity | reflexivity | reflexivity].
Defined.
(** ** The history of played tracks *)

Lemma truncate_twice_negative (cap : Z) (p : list Track) :
  (cap < 0)%Z →
  truncate cap (truncate cap p)
  = take (Z.to_nat (Z.of_nat (length p) + 2 * cap)) p.
Proof.
  intros Hneg. rewrite !truncate_negative by done.
  rewrite take_take, length_take. f_equal. lia.
Qed.

Lemma addToPrevious_lists (q : Queue) (s : QueueSaver) (w : World)
  (track : Track) :
  q_QueueSaver q = Some s →
  distinct_arrays (q_guildId q) w = true →
  returns (addToPrevious q track) w (fun _ w' =>
    stored_previous (q_guildId q) w'
    = truncate (q_maxPreviousTracks q)
        (track :: stored_previous (q_guildId q) w)
    ∧ stored_tracks (q_guildId q) w' = stored_tracks (q_guildId q) w
    ∧ saved_once (q_guildId q) w w'
    ∧ distinct_arrays (q_guildId q) w' = true).
Proof.
  intros Hs Hwf. unfold addToPrevious. load_queue Hs Hwf.
  apply returns_bind, array_unshift_returns.
  eapply returns_weaken.
  { apply (save_lists q s Hs stored w); try done;
      rewrite ?heap_size_write; done. }
  intros u w' (E1 & E2 & E3 & E4 & _).
  rewrite array_at_written, Hp in E2 by done.
  rewrite array_at_other, Ht in E1 by done. done.
Qed.

Lemma utils_save_lists (q : Queue) (s : QueueSaver) (w : World) :
  q_QueueSaver q = Some s →
  distinct_arrays (q_guildId q) w = true →
  returns (utils_save q) w (fun _ w' =>
    stored_previous (q_guildId q) w'
    = truncate (q_maxPreviousTracks q) (stored_previous (q_guildId q) w)
    ∧ stored_tracks (q_guildId q) w' = stored_tracks (q_guildId q) w
    ∧ saved_once (q_guildId q) w w'
    ∧ distinct_arrays (q_guildId q) w' = true).
Proof.
  intros Hs Hwf. unfold utils_save. load_queue Hs Hwf.
  eapply returns_weaken.
  { apply (save_lists q s Hs stored w); done. }
  intros u w' (E1 & E2 & E3 & E4 & _).
  rewrite Hp in E2. rewrite Ht in E1. done.
Qed.

(** X10.  [addToPrevious] puts the track at the head of the previous list
    and the save cuts the list to the cap: with a positive cap the new
    track is first and the oldest entries beyond the cap are gone; the
    track list is as before. *)
Theorem addToPrevious_newest_first (q : Queue) (s : QueueSaver) (w : World)
  (track : Track) :
  q_QueueSaver q = Some s →
  distinct_arrays (q_guildId q) w = true →
  (0 < q_maxPreviousTracks q)%Z →
  returns (addToPrevious q track) w (fun _ w' =>
    stored_previous (q_guildId q) w'
    = track :: take (Z.to_nat (q_maxPreviousTracks q - 1))
                 (stored_previous (q_guildId q) w)
    ∧ (Z.of_nat (length (stored_previous (q_guildId q) w'))
       ≤ q_maxPreviousTracks q)%Z
    ∧ stored_tracks (q_guildId q) w' = stored_tracks (q_guildId q) w
    ∧ saved_once (q_guildId q) w w').
Proof.
  intros Hs Hwf Hcap.
  eapply returns_weaken; [by apply (addToPrevious_lists q s w) |].
  intros u w' (E1 & E2 & E3 & _).
  rewrite truncate_nonneg in E1 by lia.
  replace (Z.to_nat (q_maxPreviousTracks q))
    with (S (Z.to_nat (q_maxPreviousTracks q - 1))) in E1 by lia.
  cbn [take] in E1. rewrite E1. split; [done |].
  split; [| done]. cbn [length]. rewrite length_take. lia.
Qed.

Lemma addToPrevious_newest_first_witness :
  let q := queue_with 2 None in
  let w := world_of [trackA; trackB] [trackC] in
  returns (addToPrevious q trackD) w (fun _ w' =>
    stored_previous "guild" w'
    = trackD :: take (Z.to_nat (2 - 1)) (stored_previous "guild" w)
    ∧ (Z.of_nat (length (stored_previous "guild" w')) ≤ 2)%Z
    ∧ stored_tracks "guild" w' = stored_tracks "guild" w
    ∧ saved_once "guild" w w').
Proof.
  apply (addToPrevious_newest_first (queue_with 2 None)
           {| saver_maxPreviousTracks := 2 |});
    [reflexivity | vm_compute; reflexivity | vm_compute; reflexivity].
Defined.

(** X11.  [utils.save] writes the document back with the previous list cut
    to the cap and the track list as it was; with a cap that is not
    negative a second [utils.save] finds nothing more to cut. *)
Theorem utils_save_applies_cap (q : Queue) (s : QueueSaver) (w : World) :
  q_QueueSaver q = Some s →
  distinct_arrays (q_guildId q) w = true →
  returns (utils_save q) w (fun _ w' =>
    stored_previous (q_guildId q) w'
    = truncate (q_maxPreviousTracks q) (stored_previous (q_guildId q) w)
    ∧ stored_tracks (q_guildId q) w' = stored_tracks (q_guildId q) w
    ∧ saved_once (q_guildId q) w w')
  ∧ ((0 ≤ q_maxPreviousTracks q)%Z →
     returns (utils_save q ;;; utils_save q) w (fun _ w' =>
       stored_previous (q_guildId q) w'
       = take (Z.to_nat (q_maxPreviousTracks q))
           (stored_previous (q_guildId q) w)
       ∧ stored_tracks (q_guildId q) w' = stored_tracks (q_guildId q) w)).
Proof.
  intros Hs Hwf. split.
  - eapply returns_weaken; [by apply (utils_save_lists q s w) |].
    intros u w' (E1 & E2 & E3 & _). done.
  - intros Hcap. apply returns_bind.
    eapply returns_weaken; [by apply (utils_save_lists q s w) |].
    intros u w1 (E1 & E2 & _ & Hwf1).
    eapply returns_weaken; [by apply (utils_save_lists q s w1) |].
    intros u' w2 (F1 & F2 & _).
    rewrite F1, E1, F2, E2, truncate_idempotent by done.
    by rewrite truncate_nonneg.
Qed.

Lemma utils_save_applies_cap_witness :
  let q := queue_with 1 None in
  let w := world_of [trackA; trackB] [trackC] in
  returns (utils_save q) w (fun _ w' =>
    stored_previous "guild" w' = truncate 1 (stored_previous "guild" w)
    ∧ stored_tracks "guild" w' = stored_tracks "guild" w
    ∧ saved_once "guild" w w')
  ∧ ((0 ≤ 1)%Z →
     returns (utils_save q ;;; utils_save q) w (fun _ w' =>
       stored_previous "guild" w'
       = take (Z.to_nat 1) (stored_previous "guild" w)
       ∧ stored_tracks "guild" w' = stored_tracks "guild" w)).
Proof.
  apply (utils_save_applies_cap (queue_with 1 None)
           {| saver_maxPreviousTracks := 1 |});
    [reflexivity | vm_compute; reflexivity].
Defined.

(** X12.  A negative [maxPreviousTracks] reaches the queue as it is, and
    then every save cuts that many entries from the end of the previous
    list, whatever its length: [utils.save] shortens the list each time it
    runs, and [addToPrevious] with a cap of [-1] never lets it grow. *)
Theorem negative_cap_shrinks_history (g : string) (n : Z)
  (watcher : option QueueChangesWatcher) (w : World) (track : Track) :
  (n < 0)%Z →
  distinct_arrays g w = true →
  ∃ q, queue_for g (options_of (Some n) watcher) = Ret q
       ∧ q_maxPreviousTracks q = n
       ∧ returns (utils_save q) w (fun _ w' =>
           stored_previous g w'
           = take (length (stored_previous g w) - Z.to_nat (- n))
               (stored_previous g w))
       ∧ returns (utils_save q ;;; utils_save q) w (fun _ w' =>
           stored_previous g w'
           = take (length (stored_previous g w) - 2 * Z.to_nat (- n))
               (stored_previous g w))
       ∧ returns (addToPrevious q track) w (fun _ w' =>
           stored_previous g w'
           = take (S (length (stored_previous g w)) - Z.to_nat (- n))
               (track :: stored_previous g w)).
Proof.
  intros Hn Hwf. eexists. split; [reflexivity |].
  assert (Hcap : or_default (Some n) 25 = n).
  { unfold or_default. destruct (Z.eqb_spec n 0); [lia | done]. }
  set (q := {| q_current := _ |}).
  assert (Hq : q_maxPreviousTracks q = n) by exact Hcap.
  assert (Hs : q_QueueSaver q = Some (QueueSaver_new (Some (options_of (Some n) watcher))))
    by reflexivity.
  change g with (q_guildId q) in Hwf |- *.
  split; [exact Hq |]. split; [| split].
  - eapply returns_weaken; [by eapply utils_save_lists |].
    intros u w' (E1 & _). rewrite E1, Hq, truncate_negative by done.
    f_equal. lia.
  - apply returns_bind.
    eapply returns_weaken; [by eapply utils_save_lists |].
    intros u w1 (E1 & _ & _ & Hwf1).
    eapply returns_weaken; [by eapply utils_save_lists |].
    intros u' w2 (F1 & _).
    rewrite F1, E1, Hq, truncate_twice_negative by done. f_equal. lia.
  - eapply returns_weaken; [by eapply addToPrevious_lists |].
    intros u w' (E1 & _). rewrite E1, Hq, truncate_negative by done.
    f_equal. cbn [length]. lia.
Qed.

Lemma negative_cap_shrinks_history_witness :
  let g := "guild" in
  let w := world_of [trackA; trackB; trackC] [] in
  ∃ q, queue_for g (options_of (Some (-1)%Z) None) = Ret q
       ∧ q_maxPreviousTracks q = (-1)%Z
       ∧ returns (utils_save q) w (fun _ w' =>
           stored_previous g w'
           = take (length (stored_previous g w) - Z.to_nat (- (-1)))
               (stored_previous g w))
       ∧ returns (utils_save q ;;; utils_save q) w (fun _ w' =>
           stored_previous g w'
           = take (length (stored_previous g w) - 2 * Z.to_nat (- (-1)))
               (stored_previous g w))
       ∧ returns (addToPrevious q trackD) w (fun _ w' =>
           stored_previous g w'
           = take (S (length (stored_previous g w)) - Z.to_nat (- (-1)))
               (trackD :: stored_previous g w)).
Proof.
  apply (negative_cap_shrinks_history "guild" (-1) None
           (world_of [trackA; trackB; trackC] []) trackD);
    [reflexivity | vm_compute; reflexivity].
Defined.
(** ** utils.toJSON *)

Lemma truncate_nil (cap : Z) : truncate cap [] = [].
Proof.
  unfold truncate. destruct (_ >? _)%Z; [| done].
  unfold js_splice. cbn [snd]. by rewrite take_nil, drop_nil.
Qed.

(** X13.  [utils.toJSON] returns new arrays that hold the track list and
    the previous list cut to the cap.  It calls no [set] and no watcher,
    and the store's documents are the same objects as before; but the cut
    is made in the stored previous array itself, so what the store holds
    as previous list is cut as well. *)
Theorem toJSON_cuts_the_stored_history (q : Queue) (s : QueueSaver)
  (w : World) :
  q_QueueSaver q = Some s →
  distinct_arrays (q_guildId q) w = true →
  returns (utils_toJSON q) w (fun r w' =>
    sq_current r = q_current q
    ∧ array_at w' (sq_tracks r) = stored_tracks (q_guildId q) w
    ∧ array_at w' (sq_previous r)
      = truncate (q_maxPreviousTracks q) (stored_previous (q_guildId q) w)
    ∧ heap_size w ≤ sq_previous r ∧ heap_size w ≤ sq_tracks r
    ∧ sq_previous r ≠ sq_tracks r
    ∧ w_data w' = w_data w ∧ w_trace w' = w_trace w
    ∧ stored_tracks (q_guildId q) w' = stored_tracks (q_guildId q) w
    ∧ stored_previous (q_guildId q) w'
      = truncate (q_maxPreviousTracks q) (stored_previous (q_guildId q) w)).
Proof.
  intros Hs Hwf. unfold utils_toJSON. load_queue_from Hs Hwf.
  assert (Hsz : heap_size w ≤ heap_size w1) by apply Hg.
  destruct Hun as (Hdata & Htrace & _).
  assert (Hfin : ∀ w2,
    array_at w2 (sq_previous stored)
    = truncate (q_maxPreviousTracks q) (array_at w1 (sq_previous stored)) →
    (∀ l, l ≠ sq_previous stored → array_at w2 l = array_at w1 l) →
    heap_size w2 = heap_size w1 →
    w_data w2 = w_data w1 → w_trace w2 = w_trace w1 →
    returns (_snapshot stored) w2 (fun r w' =>
      sq_current r = q_current q
      ∧ array_at w' (sq_tracks r) = stored_tracks (q_guildId q) w
      ∧ array_at w' (sq_previous r)
        = truncate (q_maxPreviousTracks q) (stored_previous (q_guildId q) w)
      ∧ heap_size w ≤ sq_previous r ∧ heap_size w ≤ sq_tracks r
      ∧ sq_previous r ≠ sq_tracks r
      ∧ w_data w' = w_data w ∧ w_trace w' = w_trace w
      ∧ stored_tracks (q_guildId q) w' = stored_tracks (q_guildId q) w
      ∧ stored_previous (q_guildId q) w'
        = truncate (q_maxPreviousTracks q) (stored_previous (q_guildId q) w))).
  { intros w2 Hcut Hrest Hh Hd2 Ht2.
    eapply returns_weaken; [apply snapshot_returns |].
    intros r w3 (Hg3 & Htr3 & Hc3 & Hp3 & Ht3 & Hh3 & Hap & Hat).
    destruct Hg3 as (Hd3 & _ & _ & _ & _ & Hold3).
    rewrite Hap, Hat, Hcut, Hrest, Hp, Ht by (congruence || lia).
    split; [congruence |]. do 2 (split; [done |]).
    split; [lia |]. split; [lia |]. split; [lia |].
    split; [congruence |]. split; [congruence |].
    unfold stored_tracks, stored_previous. rewrite Hd3, Hd2, Hdata.
    fold (tracks_array (q_guildId q) w). fold (previous_array (q_guildId q) w).
    split.
    - revert Hft.
      destruct (tracks_array (q_guildId q) w); simpl; intros HA; [| done].
      subst. rewrite Hold3 by lia. rewrite Hrest by congruence. apply Hall.
    - revert Hfp.
      destruct (previous_array (q_guildId q) w); simpl; intros HA.
      + subst. rewrite Hold3 by lia. rewrite Hcut. by rewrite Hall.
      + by rewrite truncate_nil. }
  apply returns_bind, read_returns.
  apply returns_bind, returns_when.
  - intros Hgt. apply returns_bind, array_splice_returns. apply returns_ret.
    apply Hfin.
    + rewrite array_at_written by done. unfold truncate. by rewrite Hgt.
    + intros l Hl. by apply array_at_other.
    + apply heap_size_write.
    + done.
    + done.
  - intros Hle. apply Hfin; try done.
    unfold truncate. by rewrite Hle.
Qed.

Lemma toJSON_cuts_the_stored_history_witness :
  let q := queue_with 1 None in
  let w := world_of [trackA; trackB] [trackC] in
  returns (utils_toJSON q) w (fun r w' =>
    sq_current r = q_current q
    ∧ array_at w' (sq_tracks r) = stored_tracks "guild" w
    ∧ array_at w' (sq_previous r) = truncate 1 (stored_previous "guild" w)
    ∧ heap_size w ≤ sq_previous r ∧ heap_size w ≤ sq_tracks r
    ∧ sq_previous r ≠ sq_tracks r
    ∧ w_data w' = w_data w ∧ w_trace w' = w_trace w
    ∧ stored_tracks "guild" w' = stored_tracks "guild" w
    ∧ stored_previous "guild" w' = truncate 1 (stored_previous "guild" w)).
Proof.
  apply (toJSON_cuts_the_stored_history (queue_with 1 None)
           {| saver_maxPreviousTracks := 1 |});
    [reflexivity | vm_compute; reflexivity].
Defined.
(** ** utils.destroy, utils.sync and utils.totalDuration *)

Lemma utils_destroy_run (q : Queue) (s : QueueSaver) (w : World) :
  q_QueueSaver q = Some s →
  utils_destroy q w
  = (Ret (bool_decide (is_Some (w_data w !! q_guildId q))),
     with_data (fun d => delete (q_guildId q) d) w).
Proof. intros Hs. unfold utils_destroy, with_saver. by rewrite Hs. Qed.

Lemma utils_sync_run (q : Queue) (s : QueueSaver) (w : World)
  (override dontSyncCurrent : option bool) :
  q_QueueSaver q = Some s →
  utils_sync q override dontSyncCurrent w
  = match w_data w !! q_guildId q with
    | None => (Throw NoDataError, w)
    | Some d =>
        (Ret (if negb (default true dontSyncCurrent)
                 && negb (is_object (q_current q))
                 && match p_current d with
                    | Some t => isTrack t
                    | None => false
                    end
              then with_current q (p_current d) else q), w)
    end.
Proof.
  intros Hs.
  unfold utils_sync, with_saver, QueueSaver_get, DefaultQueueStore_get,
    DefaultQueueStore_parse, bind, ret, throw.
  rewrite Hs. destruct (w_data w !! q_guildId q) as [d |]; [| done].
  by destruct (_ && _).
Qed.

(** X14.  [utils.destroy] removes the guild's document from the store and
    returns whether there was one.  Afterwards the queue reads as empty,
    [utils.sync] throws for lack of data, and a second [utils.destroy]
    returns [false]; the documents of other guilds and the arrays
    themselves are as before, and nothing is saved. *)
Theorem destroy_forgets_the_guild (q : Queue) (s : QueueSaver) (w : World)
  (override dontSyncCurrent : option bool) :
  q_QueueSaver q = Some s →
  returns (utils_destroy q) w (fun r w' =>
    (r = true ↔ is_Some (w_data w !! q_guildId q))
    ∧ w_data w' !! q_guildId q = None
    ∧ others_kept (q_guildId q) w w'
    ∧ stored_tracks (q_guildId q) w' = []
    ∧ stored_previous (q_guildId q) w' = []
    ∧ w_trace w' = w_trace w
    ∧ (∀ l, array_at w' l = array_at w l))
  ∧ returns (utils_destroy q ;;; getTrackCount q) w (fun n _ => n = 0)
  ∧ returns (utils_destroy q ;;; utils_destroy q) w (fun r _ => r = false)
  ∧ fst ((utils_destroy q ;;; utils_sync q override dontSyncCurrent) w)
    = Throw NoDataError.
Proof.
  intros Hs.
  assert (Hgone : w_data (with_data (fun d => delete (q_guildId q) d) w)
                    !! q_guildId q = None) by apply lookup_delete_eq.
  split; [| split; [| split]].
  - eexists _, _. split; [by apply (utils_destroy_run q s) |].
    split. { by rewrite bool_decide_eq_true. }
    split; [done |]. split.
    { intros g' Hg'. simpl. by apply lookup_delete_ne. }
    unfold stored_tracks, stored_previous. rewrite Hgone. done.
  - apply returns_bind.
    eexists _, _. split; [by apply (utils_destroy_run q s) |].
    unfold getTrackCount. apply returns_bind.
    eapply returns_weaken; [apply (load_returns _ _ Hs) |].
    intros stored w1 (_ & _ & _ & Ht & _).
    apply array_length_returns. rewrite Ht.
    unfold stored_tracks. by rewrite Hgone.
  - apply returns_bind.
    eexists _, _. split; [by apply (utils_destroy_run q s) |].
    eexists _, _. split; [by apply (utils_destroy_run q s) |].
    rewrite Hgone. apply bool_decide_eq_false. by intros [? ?].
  - unfold bind at 1. rewrite (utils_destroy_run q s w Hs).
    rewrite (utils_sync_run q s _ _ _ Hs), Hgone. done.
Qed.

Lemma destroy_forgets_the_guild_witness :
  let q := queue_with 25 None in
  let w := world_of [trackA] [trackB; trackC] in
  returns (utils_destroy q) w (fun r w' =>
    (r = true ↔ is_Some (w_data w !! "guild"))
    ∧ w_data w' !! "guild" = None
    ∧ others_kept "guild" w w'
    ∧ stored_tracks "guild" w' = []
    ∧ stored_previous "guild" w' = []
    ∧ w_trace w' = w_trace w
    ∧ (∀ l, array_at w' l = array_at w l))
  ∧ returns (utils_destroy q ;;; getTrackCount q) w (fun n _ => n = 0)
  ∧ returns (utils_destroy q ;;; utils_destroy q) w (fun r _ => r = false)
  ∧ fst ((utils_destroy q ;;; utils_sync q None (Some false)) w)
    = Throw NoDataError.
Proof.
  apply (destroy_forgets_the_guild (queue_with 25 None)
           {| saver_maxPreviousTracks := 25 |}); reflexivity.
Defined.

(** X15.  [utils.sync] throws when the store has no document for the guild
    and otherwise returns; either way store, arrays and trace are as
    before.  It never replaces a [current] the queue has, with
    [dontSyncCurrent] left out or [true] the queue is as it was, and with
    [dontSyncCurrent] [false] a queue without [current] takes the
    document's, if that is a resolved track.  [override] has no effect. *)
Theorem sync_only_fills_a_missing_current (q : Queue) (s : QueueSaver)
  (w : World) (override dontSyncCurrent : option bool) :
  q_QueueSaver q = Some s →
  snd (utils_sync q override dontSyncCurrent w) = w
  ∧ utils_sync q override dontSyncCurrent w
    = utils_sync q None dontSyncCurrent w
  ∧ (w_data w !! q_guildId q = None →
     fst (utils_sync q override dontSyncCurrent w) = Throw NoDataError)
  ∧ (∀ d, w_data w !! q_guildId q = Some d →
       ∃ q', fst (utils_sync q override dontSyncCurrent w) = Ret q'
         ∧ q_guildId q' = q_guildId q
         ∧ q_QueueSaver q' = q_QueueSaver q
         ∧ q_maxPreviousTracks q' = q_maxPreviousTracks q
         ∧ q_queueChanges q' = q_queueChanges q
         ∧ (is_Some (q_current q) → q' = q)
         ∧ (dontSyncCurrent ≠ Some false → q' = q)
         ∧ (dontSyncCurrent = Some false → q_current q = None →
            q_current q'
            = match p_current d with
              | Some t => if isTrack t then Some t else None
              | None => None
              end)).
Proof.
  intros Hs. rewrite !(utils_sync_run q s w _ _ Hs).
  split. { by destruct (w_data w !! q_guildId q). }
  split; [done |]. split. { by intros ->. }
  intros d ->. eexists. split; [reflexivity |].
  destruct dontSyncCurrent as [[|] |]; cbn [default negb andb];
    try (repeat split; done).
  destruct (q_current q) as [c |] eqn:Hc; cbn [is_object negb andb].
  { repeat split; done. }
  destruct (p_current d) as [t |]; [destruct (isTrack t) |];
    repeat split; try done; by intros [? ?].
Qed.

Lemma sync_only_fills_a_missing_current_witness :
  let q := queue_with 25 None in
  let w := world_of [] [trackA] in
  snd (utils_sync q (Some true) (Some false) w) = w
  ∧ utils_sync q (Some true) (Some false) w
    = utils_sync q None (Some false) w
  ∧ (w_data w !! "guild" = None →
     fst (utils_sync q (Some true) (Some false) w) = Throw NoDataError)
  ∧ (∀ d, w_data w !! "guild" = Some d →
       ∃ q', fst (utils_sync q (Some true) (Some false) w) = Ret q'
         ∧ q_guildId q' = "guild"
         ∧ q_QueueSaver q' = q_QueueSaver q
         ∧ q_maxPreviousTracks q' = 25%Z
         ∧ q_queueChanges q' = None
         ∧ (is_Some (q_current q) → q' = q)
         ∧ (Some false ≠ Some false → q' = q)
         ∧ (Some false = Some false → q_current q = None →
            q_current q'
            = match p_current d with
              | Some t => if isTrack t then Some t else None
              | None => None
              end)).
Proof.
  apply (sync_only_fills_a_missing_current (queue_with 25 None)
           {| saver_maxPreviousTracks := 25 |}); reflexivity.
Defined.

Lemma or_zero_counted (d : option JSNumber) :
  or_zero d = Num match d with Some (Num z) => z | _ => 0%Z end.
Proof.
  unfold or_zero. destruct d as [[| z] |]; simpl; try done.
  by destruct (Z.eqb_spec z 0) as [-> |].
Qed.

Lemma round_to_double_exact (z : Z) :
  (Z.abs z < 2 ^ 53)%Z → round_to_double z = DFin z.
Proof.
  intros Hz. unfold round_to_double.
  by destruct (Z.ltb_spec (Z.abs z) (2 ^ 53)); [| lia].
Qed.

Lemma total_from (a : list Track) (z : Z) :
  (0 ≤ z)%Z →
  forallb (fun t => (0 <=? counted_duration (Some t))%Z) a = true →
  (z + foldr (fun t acc => counted_duration (Some t) + acc) 0 a < 2 ^ 53)%Z →
  fold_left
    (fun acc cur => js_add acc (to_double (or_zero (info cur ≫= duration))))
    a (DFin z)
  = DFin (z + foldr (fun t acc => counted_duration (Some t) + acc) 0 a)%Z.
Proof.
  revert z. induction a as [| t a IH]; intros z Hz Hpos Hsum.
  - cbn [fold_left foldr]. f_equal. lia.
  - cbn [forallb] in Hpos. apply andb_prop in Hpos as [Ht Hpos].
    apply Z.leb_le in Ht. cbn [foldr] in Hsum.
    assert (Hrest : (0 ≤ foldr (fun t acc => counted_duration (Some t) + acc)
                           0 a)%Z).
    { clear -Hpos. induction a as [| u a IH]; cbn [foldr]; [lia |].
      cbn [forallb] in Hpos. apply andb_prop in Hpos as [Hu Hpos].
      apply Z.leb_le in Hu. specialize (IH Hpos). lia. }
    assert (Hc : or_zero (info t ≫= duration)
                 = Num (counted_duration (Some t))).
    { by rewrite or_zero_counted. }
    cbn [fold_left foldr]. rewrite Hc. cbn [to_double].
    rewrite round_to_double_exact by lia. cbn [js_add].
    rewrite round_to_double_exact by lia.
    rewrite IH by (done || lia). f_equal. lia.
Qed.

(** Where doubles stop adding integers exactly, so does the model: a track
    of duration [2^53] followed by one of duration [1] gives [2^53]. *)
Example totalDuration_rounds_like_a_double :
  fst (utils_totalDuration (queue_with 25 None)
         (world_of [] [track_of "L" "Long" (2 ^ 53); track_of "O" "One" 1]))
  = Ret (DFin (2 ^ 53)).
Proof. vm_compute. reflexivity. Qed.

(** X16.  For durations that are integers, none of them negative, with a
    total below [2^53] (the range in which doubles add integers without
    rounding), [utils.totalDuration] is the sum of the durations of
    [current] and of all tracks of the list, where a track without [info],
    without [duration] or with a NaN duration counts for zero.  It saves
    nothing. *)
Theorem totalDuration_sums_what_is_known (q : Queue) (s : QueueSaver)
  (w : World) :
  q_QueueSaver q = Some s →
  (0 ≤ counted_duration (q_current q))%Z →
  forallb (fun t => (0 <=? counted_duration (Some t))%Z)
    (stored_tracks (q_guildId q) w) = true →
  (counted_duration (q_current q)
   + foldr (fun t acc => counted_duration (Some t) + acc) 0
       (stored_tracks (q_guildId q) w) < 2 ^ 53)%Z →
  returns (utils_totalDuration q) w (fun n w' =>
    n = DFin (counted_duration (q_current q)
              + foldr (fun t acc => counted_duration (Some t) + acc) 0
                  (stored_tracks (q_guildId q) w))%Z
    ∧ untouched w w').
Proof.
  intros Hs Hcur Hpos Hsum. unfold utils_totalDuration. apply returns_bind.
  eapply returns_weaken; [apply (load_returns _ _ Hs) |].
  intros stored w1 Hl.
  pose proof (loaded_untouched _ _ _ _ Hl) as Hun.
  destruct Hl as (_ & _ & _ & Ht & _).
  apply returns_bind, read_returns. apply returns_ret.
  split; [| done].
  assert (Hrest : (0 ≤ foldr (fun t acc => counted_duration (Some t) + acc) 0
                         (stored_tracks (q_guildId q) w))%Z).
  { clear -Hpos. induction (stored_tracks (q_guildId q) w) as [| u a IH];
      cbn [foldr]; [lia |].
    cbn [forallb] in Hpos. apply andb_prop in Hpos as [Hu Hpos].
    apply Z.leb_le in Hu. specialize (IH Hpos). lia. }
  rewrite Ht, or_zero_counted. cbn [to_double].
  fold (counted_duration (q_current q)).
  rewrite round_to_double_exact by lia.
  by apply total_from.
Qed.

Lemma totalDuration_sums_what_is_known_witness :
  let q := queue_with 25 None in
  let w := world_of [] [trackA; unresolved_of "x"; trackB] in
  returns (utils_totalDuration q) w (fun n w' =>
    n = DFin (counted_duration (q_current q)
              + foldr (fun t acc => counted_duration (Some t) + acc) 0
                  (stored_tracks "guild" w))%Z
    ∧ untouched w w').
Proof.
  apply (totalDuration_sums_what_is_known (queue_with 25 None)
           {| saver_maxPreviousTracks := 25 |});
    [reflexivity | vm_compute; discriminate | reflexivity
    | vm_compute; reflexivity].
Defined.

(** ** splice and remove, list by list *)

(** Removing [n] elements from position [i] on, both inside the array. *)
Lemma splice_window {A} (a items : list A) (i n : Z) :
  (0 ≤ i ≤ Z.of_nat (length a))%Z → (0 ≤ n)%Z →
  js_splice a i n items
  = (take (Z.to_nat n) (drop (Z.to_nat i) a),
     take (Z.to_nat i) a ++ items ++ drop (Z.to_nat i + Z.to_nat n) a).
Proof.
  intros Hi Hn. unfold js_splice.
  assert (Hs : splice_start (Z.of_nat (length a)) i = i).
  { unfold splice_start. destruct (Z.ltb_spec i 0); lia. }
  rewrite Hs. unfold splice_count. rewrite Z.max_l by lia.
  destruct (Z.le_gt_cases n (Z.of_nat (length a) - i)) as [Hle | Hgt].
  { rewrite Z.min_l by lia. done. }
  rewrite Z.min_r by lia. f_equal.
  - rewrite !take_ge; [done | |]; rewrite length_drop; lia.
  - rewrite !(drop_ge a) by lia. done.
Qed.

(** X17.  [splice] loses no track and makes none up, whatever [index] and
    [amount] are: the tracks it returns and the tracks the queue holds
    afterwards are, together, the old list and the valid tracks that were
    handed in.  It returns [null] only for an empty queue with nothing to
    insert; for an empty queue with tracks to insert it returns the
    number of tracks now in the queue, not the removed tracks. *)
Theorem splice_loses_nothing (q : Queue) (s : QueueSaver) (w : World)
  (index amount : Z) (TrackOrTracks : option Value) :
  q_QueueSaver q = Some s →
  distinct_arrays (q_guildId q) w = true →
  returns (splice q index amount TrackOrTracks) w (fun r w' =>
    spliced r ++ stored_tracks (q_guildId q) w'
    ≡ₚ stored_tracks (q_guildId q) w ++ batch_of TrackOrTracks
    ∧ (r = SpliceNull
       ↔ stored_tracks (q_guildId q) w = [] ∧ TrackOrTracks = None)
    ∧ (stored_tracks (q_guildId q) w = [] → TrackOrTracks ≠ None →
       r = SpliceCount (length (batch_of TrackOrTracks)))).
Proof.
  intros Hs Hwf.
  eapply returns_weaken; [by apply (splice_returns q s Hs) |].
  intros r w'. cbn zeta.
  destruct (stored_tracks (q_guildId q) w) as [| t0 ts] eqn:Hold.
  - destruct TrackOrTracks as [x |].
    + intros (-> & Hnew & _). cbn [spliced batch_of app]. rewrite Hnew.
      split; [done |]. split; [| done]. split; [done | by intros [_ ?]].
    + intros (-> & Hg). cbn [spliced batch_of app].
      rewrite (stored_tracks_grows _ _ _ Hwf Hg), Hold. done.
  - intros (-> & Hnew & _). rewrite Hnew.
    fold (batch_of TrackOrTracks).
    pose proof (splice_conserves (t0 :: ts) (batch_of TrackOrTracks)
                  index amount) as Hcons.
    split.
    { rewrite <- Hcons. apply Permutation_app_tail.
      by destruct (fst (js_splice _ _ _ _)) as [| a [| b l]]. }
    split; [| done]. split; [| by intros [? _]].
    by destruct (fst (js_splice _ _ _ _)) as [| a [| b l]].
Qed.

Lemma splice_loses_nothing_witness :
  let q := queue_with 25 (Some myCustomWatcher) in
  let w := world_of [] [trackA; trackB; trackC] in
  returns (splice q (-2) 5 (Some (VTrack trackD))) w (fun r w' =>
    spliced r ++ stored_tracks "guild" w'
    ≡ₚ stored_tracks "guild" w ++ batch_of (Some (VTrack trackD))
    ∧ (r = SpliceNull
       ↔ stored_tracks "guild" w = [] ∧ Some (VTrack trackD) = None)
    ∧ (stored_tracks "guild" w = [] → Some (VTrack trackD) ≠ None →
       r = SpliceCount (length (batch_of (Some (VTrack trackD)))))).
Proof.
  apply (splice_loses_nothing (queue_with 25 (Some myCustomWatcher))
           {| saver_maxPreviousTracks := 25 |});
    [reflexivity | vm_compute; reflexivity].
Defined.

(** X18.  On a queue that is not empty, [splice(index, amount)] with
    [index] a position of the list or its length and [amount] not negative
    takes out the [amount] tracks from [index] on (fewer when the list ends
    before), puts the valid tracks handed in at that place, and saves once.
    It returns the removed tracks as an array, except when exactly one was
    removed: then it returns that track itself. *)
Theorem splice_takes_a_window (q : Queue) (s : QueueSaver) (w : World)
  (index amount : Z) (TrackOrTracks : option Value) :
  q_QueueSaver q = Some s →
  distinct_arrays (q_guildId q) w = true →
  stored_tracks (q_guildId q) w ≠ [] →
  (0 ≤ index ≤ Z.of_nat (length (stored_tracks (q_guildId q) w)))%Z →
  (0 ≤ amount)%Z →
  returns (splice q index amount TrackOrTracks) w (fun r w' =>
    let old := stored_tracks (q_guildId q) w in
    let removed := take (Z.to_nat amount) (drop (Z.to_nat index) old) in
    spliced r = removed
    ∧ (length removed = 1 ↔ ∃ t, r = SpliceOne t)
    ∧ stored_tracks (q_guildId q) w'
      = take (Z.to_nat index) old ++ batch_of TrackOrTracks
        ++ drop (Z.to_nat index + Z.to_nat amount) old
    ∧ saved_once (q_guildId q) w w').
Proof.
  intros Hs Hwf Hne Hi Hn.
  eapply returns_weaken; [by apply (splice_returns q s Hs) |].
  intros r w'. cbn zeta.
  destruct (stored_tracks (q_guildId q) w) as [| t0 ts] eqn:Hold; [done |].
  fold (batch_of TrackOrTracks).
  rewrite (splice_window (t0 :: ts) _ index amount Hi Hn). cbn [fst snd].
  set (removed := take (Z.to_nat amount) (drop (Z.to_nat index) (t0 :: ts))).
  intros (-> & Hnew & Hsaved).
  split; [| split; [| done]].
  - by destruct removed as [| a [| b l]].
  - destruct removed as [| a [| b l]]; cbn [length]; split;
      try done; try lia; try (by intros [? ?]).
    intros _. by exists a.
Qed.

Lemma splice_takes_a_window_witness :
  let q := queue_with 25 None in
  let w := world_of [] [trackA; trackB; trackC] in
  returns (splice q 1 1 (Some (VTrack trackD))) w (fun r w' =>
    let old := stored_tracks "guild" w in
    let removed := take (Z.to_nat 1) (drop (Z.to_nat 1) old) in
    spliced r = removed
    ∧ (length removed = 1 ↔ ∃ t, r = SpliceOne t)
    ∧ stored_tracks "guild" w'
      = take (Z.to_nat 1) old ++ batch_of (Some (VTrack trackD))
        ++ drop (Z.to_nat 1 + Z.to_nat 1) old
    ∧ saved_once "guild" w w').
Proof.
  apply (splice_takes_a_window (queue_with 25 None)
           {| saver_maxPreviousTracks := 25 |});
    [reflexivity | vm_compute; reflexivity | discriminate
    | vm_compute; split; discriminate | discriminate].
Defined.
(** ** The removal loop, in terms of positions of the original list *)

Lemma keep_from_nil (off : nat) (a : list Track) : keep_from off a [] = a.
Proof.
  revert off. induction a as [| x a IH]; intros off; simpl; [done |].
  by rewrite IH.
Qed.

Lemma keep_from_app (off : nat) (a b : list Track) (indices : list Z) :
  keep_from off (a ++ b) indices
  = keep_from off a indices ++ keep_from (off + length a) b indices.
Proof.
  revert off. induction a as [| x a IH]; intros off; simpl.
  - by rewrite Nat.add_0_r.
  - rewrite IH. replace (S off + length a) with (off + S (length a)) by lia.
    by destruct (existsb _ _).
Qed.

Lemma keep_from_cons_out (off : nat) (a : list Track) (i : Z)
  (indices : list Z) :
  (i < Z.of_nat off ∨ Z.of_nat (off + length a) ≤ i)%Z →
  keep_from off a (i :: indices) = keep_from off a indices.
Proof.
  revert off. induction a as [| x a IH]; intros off Hout; simpl; [done |].
  simpl in Hout.
  destruct (Z.eqb_spec (Z.of_nat off) i) as [He | Hne]; [lia |].
  cbn [orb]. rewrite IH by lia. done.
Qed.

Lemma keep_from_out (off : nat) (a : list Track) (indices : list Z) :
  Forall (fun i => (i < Z.of_nat off ∨ Z.of_nat (off + length a) ≤ i)%Z)
    indices →
  keep_from off a indices = a.
Proof.
  induction 1 as [| i indices Hi _ IH]; [apply keep_from_nil |].
  by rewrite keep_from_cons_out.
Qed.

Lemma existsb_shift (off : nat) (indices : list Z) :
  existsb (Z.eqb (Z.of_nat (S off))) (map Z.succ indices)
  = existsb (Z.eqb (Z.of_nat off)) indices.
Proof.
  induction indices as [| i indices IH]; cbn [existsb map]; [done |].
  rewrite IH. f_equal. rewrite Nat2Z.inj_succ.
  destruct (Z.eqb_spec (Z.succ (Z.of_nat off)) (Z.succ i)),
    (Z.eqb_spec (Z.of_nat off) i); try done; lia.
Qed.

Lemma keep_from_shift (off : nat) (a : list Track) (indices : list Z) :
  keep_from (S off) a (map Z.succ indices) = keep_from off a indices.
Proof.
  revert off. induction a as [| x a IH]; intros off; cbn [keep_from];
    [done |].
  by rewrite IH, existsb_shift.
Qed.

Lemma descending_cons (i : Z) (rest : list Z) :
  descending (i :: rest) = true →
  descending rest = true ∧ Forall (fun j => (j < i)%Z) rest.
Proof.
  revert i. induction rest as [| j rest IH]; intros i; [done |].
  cbn [descending]. intros [Hji Hrest]%andb_prop.
  apply Z.ltb_lt in Hji. split; [done |].
  constructor; [done |].
  destruct (IH j Hrest) as [_ Hall].
  eapply Forall_impl; [exact Hall |]. simpl. lia.
Qed.

Lemma ascending_cons (i : Z) (rest : list Z) :
  ascending (i :: rest) = true →
  ascending rest = true ∧ Forall (fun j => (i < j)%Z) rest.
Proof.
  revert i. induction rest as [| j rest IH]; intros i; [done |].
  cbn [ascending]. intros [Hij Hrest]%andb_prop.
  apply Z.ltb_lt in Hij. split; [done |].
  constructor; [done |].
  destruct (IH j Hrest) as [_ Hall].
  eapply Forall_impl; [exact Hall |]. simpl. lia.
Qed.

Lemma shifted_from_succ (k : Z) (indices : list Z) :
  shifted_from (k + 1) indices = map Z.succ (shifted_from k indices).
Proof.
  revert k. induction indices as [| p rest IH]; intros k; simpl; [done |].
  rewrite IH. f_equal. lia.
Qed.

Lemma shifted_from_above (lo k : Z) (indices : list Z) :
  (0 ≤ k)%Z → Forall (fun j => (lo ≤ j)%Z) indices →
  Forall (fun j => (lo ≤ j)%Z) (shifted_from k indices).
Proof.
  intros Hk Hall. revert k Hk.
  induction Hall as [| p rest Hp _ IH]; intros k Hk; simpl; [done |].
  constructor; [lia |]. apply IH. lia.
Qed.

Lemma omap_cons_eq {A B} (f : A → option B) (x : A) (l : list A) :
  omap f (x :: l)
  = match f x with Some y => y :: omap f l | None => omap f l end.
Proof. done. Qed.

Lemma omap_at_index_out {A} (a : list A) (indices : list Z) :
  Forall (fun j => (Z.of_nat (length a) ≤ j)%Z) indices →
  omap (at_index a) indices = [].
Proof.
  induction 1 as [| j rest Hj _ IH]; [done |]. rewrite omap_cons_eq.
  assert (Hn : at_index a j = None) by (apply at_index_None; lia).
  by rewrite Hn.
Qed.

Lemma omap_at_index_ext {A} (a b : list A) (f : Z → Z) (indices : list Z) :
  Forall (fun j => at_index a (f j) = at_index b j) indices →
  omap (at_index a) (map f indices) = omap (at_index b) indices.
Proof.
  induction 1 as [| j rest Hj _ IH]; [done |]. cbn [map].
  by rewrite !omap_cons_eq, Hj, IH.
Qed.

Lemma at_index_delete_lt {A} (a : list A) (i : nat) (k : Z) :
  (k < Z.of_nat i)%Z → i < length a →
  at_index (take i a ++ drop (S i) a) k = at_index a k.
Proof.
  intros Hk Hi. unfold at_index. destruct (Z.ltb_spec k 0); [done |].
  rewrite lookup_app_l by (rewrite length_take; lia).
  apply lookup_take_lt. lia.
Qed.

Lemma at_index_delete_ge {A} (a : list A) (i : nat) (k : Z) :
  (Z.of_nat i ≤ k)%Z → i < length a →
  at_index a (Z.succ k) = at_index (take i a ++ drop (S i) a) k.
Proof.
  intros Hk Hi. unfold at_index.
  destruct (Z.ltb_spec (Z.succ k) 0); [lia |].
  destruct (Z.ltb_spec k 0); [lia |].
  rewrite lookup_app_r by (rewrite length_take; lia).
  rewrite length_take, lookup_drop. f_equal. lia.
Qed.

Lemma at_index_Some_nat {A} (a : list A) (i : Z) (x : A) :
  at_index a i = Some x →
  (0 ≤ i)%Z ∧ a !! Z.to_nat i = Some x ∧ Z.to_nat i < length a.
Proof.
  unfold at_index. destruct (Z.ltb_spec i 0); [done |]. intros Hx.
  split; [done |]. split; [done |]. by eapply lookup_lt_Some.
Qed.

(** Indices in descending order take out the tracks that were at these
    positions when the loop began. *)
Lemma remove_each_from_descending (a : list Track) (indices : list Z) :
  descending indices = true →
  remove_each_from a indices
  = (omap (at_index a) indices, without_positions a indices).
Proof.
  unfold without_positions. revert a.
  induction indices as [| i rest IH]; intros a Hd.
  { cbn [remove_each_from]. by rewrite keep_from_nil. }
  apply descending_cons in Hd as [Hd Hlt].
  cbn [remove_each_from]. rewrite omap_cons_eq.
  destruct (at_index a i) as [x |] eqn:Hx.
  - destruct (at_index_Some_nat _ _ _ Hx) as (H0 & Hn & Hlen).
    rewrite (splice_delete_one _ _ _ Hx), (IH _ Hd).
    f_equal.
    + cbn [app]. f_equal.
      rewrite <- (map_id rest) at 1. apply omap_at_index_ext.
      eapply Forall_impl; [exact Hlt |]. simpl. intros j Hj.
      apply at_index_delete_lt; [lia | done].
    + rewrite <- (take_drop_middle a _ x Hn) at 3.
      rewrite !keep_from_app. cbn [Nat.add].
      rewrite length_take, Nat.min_l by lia.
      rewrite (keep_from_cons_out 0 (take (Z.to_nat i) a))
        by (rewrite length_take; lia).
      f_equal. cbn [keep_from existsb].
      destruct (Z.eqb_spec (Z.of_nat (Z.to_nat i)) i) as [_ | Hne]; [| lia].
      cbn [orb].
      rewrite !keep_from_out; [done | |].
      * constructor; [lia |].
        eapply Forall_impl; [exact Hlt |]. simpl. lia.
      * eapply Forall_impl; [exact Hlt |]. simpl. lia.
  - rewrite (IH _ Hd). f_equal.
    apply at_index_None in Hx.
    rewrite keep_from_cons_out; [done |]. simpl. lia.
Qed.

(** Indices in ascending order: the [n]-th of them takes out the track
    that was at position [index + n] when the loop began. *)
Lemma remove_each_from_ascending (a : list Track) (indices : list Z) :
  ascending indices = true → Forall (fun j => (0 ≤ j)%Z) indices →
  remove_each_from a indices
  = (omap (at_index a) (shifted indices),
     without_positions a (shifted indices)).
Proof.
  unfold without_positions, shifted. revert a.
  induction indices as [| p rest IH]; intros a Ha Hpos.
  { cbn [remove_each_from shifted_from]. by rewrite keep_from_nil. }
  apply ascending_cons in Ha as [Ha Hgt].
  apply Forall_cons in Hpos as [Hp Hpos].
  cbn [remove_each_from shifted_from].
  rewrite Z.add_0_r, shifted_from_succ, omap_cons_eq.
  assert (Hup : Forall (fun j => (p + 1 ≤ j)%Z) (shifted_from 0 rest)).
  { apply shifted_from_above; [lia |].
    eapply Forall_impl; [exact Hgt |]. simpl. lia. }
  destruct (at_index a p) as [x |] eqn:Hx.
  - destruct (at_index_Some_nat _ _ _ Hx) as (H0 & Hn & Hlen).
    rewrite (splice_delete_one _ _ _ Hx), (IH _ Ha Hpos).
    f_equal.
    + cbn [app]. f_equal. symmetry. apply omap_at_index_ext.
      eapply Forall_impl; [exact Hup |]. simpl. intros j Hj.
      apply at_index_delete_ge; [lia | done].
    + rewrite <- (take_drop_middle a _ x Hn) at 3.
      rewrite !keep_from_app. cbn [Nat.add].
      rewrite length_take, Nat.min_l by lia.
      rewrite (keep_from_out 0 (take (Z.to_nat p) a)).
      2: { rewrite length_take.
           eapply Forall_impl; [exact Hup |]. simpl. lia. }
      rewrite (keep_from_out 0 (take (Z.to_nat p) a)).
      2: { rewrite length_take. constructor; [lia |].
           apply Forall_fmap.
           eapply Forall_impl; [exact Hup |]. simpl. lia. }
      f_equal. cbn [keep_from existsb].
      destruct (Z.eqb_spec (Z.of_nat (Z.to_nat p)) p) as [_ | Hne]; [| lia].
      cbn [orb].
      rewrite keep_from_cons_out by lia.
      by rewrite keep_from_shift.
  - apply at_index_None in Hx.
    rewrite (IH _ Ha Hpos).
    rewrite !omap_at_index_out, !keep_from_out; [done | | | |].
    + constructor; [lia |]. apply Forall_fmap.
      eapply Forall_impl; [exact Hup |]. simpl. lia.
    + eapply Forall_impl; [exact Hup |]. simpl. lia.
    + apply Forall_fmap.
      eapply Forall_impl; [exact Hup |]. simpl. lia.
    + eapply Forall_impl; [exact Hup |]. simpl. lia.
Qed.

(** Whatever the indices, the loop only takes elements out. *)
Lemma remove_each_from_conserves (a : list Track) (indices : list Z) :
  fst (remove_each_from a indices) ++ snd (remove_each_from a indices) ≡ₚ a
  ∧ sublist (snd (remove_each_from a indices)) a.
Proof.
  revert a. induction indices as [| i rest IH]; intros a;
    cbn [remove_each_from]; [done |].
  destruct (at_index a i) as [x |] eqn:Hx; [| apply IH].
  destruct (at_index_Some_nat _ _ _ Hx) as (H0 & Hn & Hlen).
  rewrite (splice_delete_one _ _ _ Hx).
  destruct (IH (take (Z.to_nat i) a ++ drop (S (Z.to_nat i)) a)) as [Hp Hsub].
  destruct (remove_each_from _ rest) as [rs a2]. cbn [fst snd] in *.
  rewrite <- delete_take_drop in *. split.
  - cbn [app]. rewrite Hp. by apply delete_perm.
  - etransitivity; [exact Hsub |]. apply sublist_delete.
Qed.
(** ** remove, list by list *)

Lemma returns_and {A} (c : M A) (w : World) (P Q : A → World → Prop) :
  returns c w P → returns c w Q → returns c w (fun a w' => P a w' ∧ Q a w').
Proof.
  intros (a & w1 & Hc & HP) (b & w2 & Hc' & HQ).
  rewrite Hc in Hc'. injection Hc' as <- <-. by exists a, w1.
Qed.

(** [remove] in terms of the lists: what it returns and what it leaves. *)
Lemma remove_lists (q : Queue) (s : QueueSaver) (w : World)
  (query : RemoveQuery) :
  q_QueueSaver q = Some s →
  distinct_arrays (q_guildId q) w = true →
  returns (remove q query) w (fun r w' =>
    let result := removal (stored_tracks (q_guildId q) w) query in
    match r with
    | None => fst result = []
    | Some removed =>
        removed = fst result ∧ removed ≠ []
        ∧ stored_tracks (q_guildId q) w' = snd result
    end).
Proof.
  intros Hs Hwf. unfold remove. load_queue Hs Hwf.
  apply snapshot_if_then. intros old w2 Hg2 Htr2.
  assert (Hsv2 : saves (w_trace w2) = saves (w_trace w)) by congruence.
  destruct Hg2 as (_ & _ & _ & _ & Hsz2 & Harr2).
  assert (Hlt2 : sq_tracks stored < heap_size w2) by lia.
  assert (Ht2 : array_at w2 (sq_tracks stored) = stored_tracks (q_guildId q) w).
  { by rewrite Harr2. }
  destruct query as [i | items | t]; cbn [removal].
  - apply returns_bind, read_returns. rewrite Ht2.
    destruct (at_index (stored_tracks (q_guildId q) w) i) as [x |] eqn:Hx;
      [| by apply returns_ret].
    apply returns_bind, array_splice_returns. rewrite Ht2.
    apply (notify_guarded_then_save q s Hs stored w); try done.
    { by rewrite heap_size_write. }
    intros w' E1 _ _. apply returns_ret.
    rewrite array_at_written in E1 by done.
    rewrite (splice_delete_one _ _ _ Hx) in *. done.
  - destruct (forallb is_number items).
    + apply returns_bind.
      eapply returns_weaken; [by apply remove_each_returns |].
      intros removed w3 (Hrm & Harr & Hh & Hd3 & Ht3 & _).
      rewrite Ht2 in Hrm, Harr.
      destruct removed as [| x removed]; [by apply returns_ret |].
      apply (notify_guarded_then_save q s Hs stored w); try done.
      { lia. } { congruence. }
      intros w' E1 _ _. apply returns_ret. by rewrite E1, <- Hrm.
    + apply returns_bind, read_returns. rewrite Ht2.
      unfold positions_to_remove.
      destruct (List.filter _ _) as [| iv tracksToRemove] eqn:Hf.
      { by apply returns_ret. }
      apply returns_bind.
      eapply returns_weaken; [by apply remove_each_returns |].
      intros removed w3 (Hrm & Harr & Hh & Hd3 & Ht3 & _).
      rewrite Ht2 in Hrm, Harr.
      apply (notify_guarded_then_save q s Hs stored w); try done.
      { lia. } { congruence. }
      intros w' E1 _ _. apply returns_ret.
      split; [done |]. split; [| by rewrite E1].
      assert (Hin : iv ∈ imap (fun i v => (i, v))
                         (stored_tracks (q_guildId q) w)).
      { apply list_elem_of_In.
        eapply proj1, filter_In. rewrite Hf. by left. }
      apply elem_of_lookup_imap_1 in Hin as (i0 & v0 & -> & Hv0).
      rewrite Hrm. cbn [map fst remove_each_from].
      assert (Hat : at_index (stored_tracks (q_guildId q) w) (Z.of_nat i0)
                    = Some v0).
      { unfold at_index. destruct (Z.ltb_spec (Z.of_nat i0) 0); [lia |].
        by rewrite Nat2Z.id. }
      rewrite Hat, (splice_delete_one _ _ _ Hat).
      match goal with
      | |- context [remove_each_from ?a1 ?ps] =>
          destruct (remove_each_from a1 ps) as [rs a2]
      end.
      simpl. discriminate.
  - apply returns_bind, read_returns. rewrite Ht2.
    destruct (Z.ltb_spec (findIndex (matches t) (stored_tracks (q_guildId q) w)) 0)
      as [| Hpos]; [by apply returns_ret |].
    apply returns_bind, array_splice_returns. rewrite Ht2.
    apply (notify_guarded_then_save q s Hs stored w); try done.
    { by rewrite heap_size_write. }
    intros w' E1 _ _. apply returns_ret.
    rewrite array_at_written in E1 by done.
    destruct (findIndex_first (matches t) _ Hpos) as (v & Hv & _).
    rewrite (splice_delete_one _ _ _ Hv) in *. done.
Qed.

Lemma removal_conserves (a : list Track) (query : RemoveQuery) :
  fst (removal a query) ++ snd (removal a query) ≡ₚ a
  ∧ sublist (snd (removal a query)) a.
Proof.
  assert (Hone : ∀ i x, at_index a i = Some x →
            fst (js_splice a i 1 []) ++ snd (js_splice a i 1 []) ≡ₚ a
            ∧ sublist (snd (js_splice a i 1 [])) a).
  { intros i x Hx. rewrite (splice_delete_one _ _ _ Hx). cbn [fst snd app].
    destruct (at_index_Some_nat _ _ _ Hx) as (H0 & Hn & Hlen).
    rewrite <- delete_take_drop. split; [by apply delete_perm |].
    apply sublist_delete. }
  destruct query as [i | items | t]; cbn [removal].
  - destruct (at_index a i) as [x |] eqn:Hx; [by apply (Hone i x) | done].
  - destruct (forallb is_number items); apply remove_each_from_conserves.
  - destruct (Z.ltb_spec (findIndex (matches t) a) 0); [done |].
    destruct (findIndex_first (matches t) a) as (v & Hv & _); [done |].
    by apply (Hone _ v).
Qed.

(** X19.  [remove], whatever the query, only takes tracks out: the tracks
    it reports as removed and the tracks left in the queue are together the
    old list, and the tracks left are in the order they had.  When it
    returns [null] nothing was saved and the list is as it was; otherwise
    at least one track was removed and it saved once. *)
Theorem remove_only_takes_out (q : Queue) (s : QueueSaver) (w : World)
  (query : RemoveQuery) :
  q_QueueSaver q = Some s →
  distinct_arrays (q_guildId q) w = true →
  returns (remove q query) w (fun r w' =>
    default [] r ++ stored_tracks (q_guildId q) w'
    ≡ₚ stored_tracks (q_guildId q) w
    ∧ sublist (stored_tracks (q_guildId q) w')
        (stored_tracks (q_guildId q) w)
    ∧ match r with
      | None =>
          stored_tracks (q_guildId q) w' = stored_tracks (q_guildId q) w
          ∧ saves (w_trace w') = saves (w_trace w)
      | Some removed => removed ≠ [] ∧ saved_once (q_guildId q) w w'
      end).
Proof.
  intros Hs Hwf.
  eapply returns_weaken.
  { apply returns_and; [by apply (remove_lists q s) |
                        by apply (remove_returns q s Hs)]. }
  intros r w' [Hl Hn]. cbn zeta in Hl.
  destruct (removal_conserves (stored_tracks (q_guildId q) w) query)
    as [Hperm Hsub].
  destruct r as [removed |]; cbn [default].
  - destruct Hl as (Hr & Hne' & ->). subst removed. done.
  - cbn [null_or_saved] in Hn.
    rewrite (stored_tracks_grows _ _ _ Hwf Hn).
    split; [done |]. split; [done |]. split; [done |]. apply Hn.
Qed.

Lemma remove_only_takes_out_witness :
  let q := queue_with 25 (Some myCustomWatcher) in
  let w := world_of [] [trackA; trackB; trackC] in
  let query := QueryArray [ItemTrack trackC; ItemIndex 0] in
  returns (remove q query) w (fun r w' =>
    default [] r ++ stored_tracks "guild" w' ≡ₚ stored_tracks "guild" w
    ∧ sublist (stored_tracks "guild" w') (stored_tracks "guild" w)
    ∧ match r with
      | None =>
          stored_tracks "guild" w' = stored_tracks "guild" w
          ∧ saves (w_trace w') = saves (w_trace w)
      | Some removed => removed ≠ [] ∧ saved_once "guild" w w'
      end).
Proof.
  apply (remove_only_takes_out (queue_with 25 (Some myCustomWatcher))
           {| saver_maxPreviousTracks := 25 |});
    [reflexivity | vm_compute; reflexivity].
Defined.

(** X20.  [remove(index)] with the index of a track takes out that track
    and no other: it returns it alone, the tracks behind it move up by
    one, and the queue is saved once.  With any other number, a negative
    one included, it returns [null] and leaves the queue as it was. *)
Theorem remove_index_takes_that_track (q : Queue) (s : QueueSaver)
  (w : World) (i : Z) :
  q_QueueSaver q = Some s →
  distinct_arrays (q_guildId q) w = true →
  returns (remove q (QueryIndex i)) w (fun r w' =>
    let old := stored_tracks (q_guildId q) w in
    match at_index old i with
    | Some x =>
        r = Some [x]
        ∧ stored_tracks (q_guildId q) w' = delete (Z.to_nat i) old
        ∧ (∀ k, (0 ≤ k < i)%Z →
             at_index (stored_tracks (q_guildId q) w') k = at_index old k)
        ∧ (∀ k, (i ≤ k)%Z →
             at_index (stored_tracks (q_guildId q) w') k
             = at_index old (k + 1))
        ∧ saved_once (q_guildId q) w w'
    | None =>
        r = None
        ∧ stored_tracks (q_guildId q) w' = old
        ∧ saves (w_trace w') = saves (w_trace w)
    end).
Proof.
  intros Hs Hwf.
  eapply returns_weaken.
  { apply returns_and; [by apply (remove_lists q s) |
                        by apply (remove_returns q s Hs)]. }
  intros r w' [Hl Hn]. cbn zeta in *. cbn [removal] in Hl.
  destruct (at_index (stored_tracks (q_guildId q) w) i) as [x |] eqn:Hx.
  - rewrite (splice_delete_one _ _ _ Hx) in Hl. cbn [fst snd] in Hl.
    destruct r as [removed |]; [| done]. destruct Hl as (-> & _ & Hnew).
    destruct (at_index_Some_nat _ _ _ Hx) as (H0 & Hn' & Hlen).
    rewrite <- delete_take_drop in Hnew. rewrite Hnew.
    split; [done |]. split; [done |]. split; [| split; [| done]].
    + intros k Hk. unfold at_index. destruct (Z.ltb_spec k 0); [lia |].
      apply list_lookup_delete_lt. lia.
    + intros k Hk. unfold at_index.
      destruct (Z.ltb_spec k 0); [lia |].
      destruct (Z.ltb_spec (k + 1) 0); [lia |].
      rewrite list_lookup_delete_ge by lia. f_equal. lia.
  - destruct r as [removed |]; [by destruct Hl as (-> & ? & _) |].
    cbn [null_or_saved] in Hn.
    rewrite (stored_tracks_grows _ _ _ Hwf Hn).
    split; [done |]. split; [done |]. apply Hn.
Qed.

Lemma remove_index_takes_that_track_witness :
  let q := queue_with 25 None in
  let w := world_of [] [trackA; trackB; trackC] in
  returns (remove q (QueryIndex 1)) w (fun r w' =>
    let old := stored_tracks "guild" w in
    match at_index old 1 with
    | Some x =>
        r = Some [x]
        ∧ stored_tracks "guild" w' = delete (Z.to_nat 1) old
        ∧ (∀ k, (0 ≤ k < 1)%Z →
             at_index (stored_tracks "guild" w') k = at_index old k)
        ∧ (∀ k, (1 ≤ k)%Z →
             at_index (stored_tracks "guild" w') k = at_index old (k + 1))
        ∧ saved_once "guild" w w'
    | None =>
        r = None
        ∧ stored_tracks "guild" w' = old
        ∧ saves (w_trace w') = saves (w_trace w)
    end).
Proof.
  apply (remove_index_takes_that_track (queue_with 25 None)
           {| saver_maxPreviousTracks := 25 |});
    [reflexivity | vm_compute; reflexivity].
Defined.
(** ** remove with an array *)

Lemma removal_nil (a : list Track) (query : RemoveQuery) :
  fst (removal a query) = [] → snd (removal a query) = a.
Proof.
  destruct query as [i | items | t]; cbn [removal].
  - destruct (at_index a i) as [x |] eqn:Hx; [| done].
    by rewrite (splice_delete_one _ _ _ Hx).
  - destruct (forallb is_number items); apply remove_each_from_nil.
  - destruct (Z.ltb_spec (findIndex (matches t) a) 0) as [| Hpos]; [done |].
    destruct (findIndex_first (matches t) a Hpos) as (v & Hv & _).
    by rewrite (splice_delete_one _ _ _ Hv).
Qed.

(** What [remove] returns and leaves, in one piece. *)
Lemma remove_result (q : Queue) (s : QueueSaver) (w : World)
  (query : RemoveQuery) :
  q_QueueSaver q = Some s →
  distinct_arrays (q_guildId q) w = true →
  returns (remove q query) w (fun r w' =>
    let result := removal (stored_tracks (q_guildId q) w) query in
    default [] r = fst result
    ∧ stored_tracks (q_guildId q) w' = snd result
    ∧ (r = None ↔ fst result = [])).
Proof.
  intros Hs Hwf.
  eapply returns_weaken.
  { apply returns_and; [by apply (remove_lists q s) |
                        by apply (remove_returns q s Hs)]. }
  intros r w' [Hl Hn]. cbn zeta in *.
  destruct r as [removed |]; cbn [default].
  - destruct Hl as (Hr & Hne & Hnew). split; [done |]. split; [done |].
    split; [done |]. intros Hnil. by rewrite Hr in Hne.
  - cbn [null_or_saved] in Hn.
    rewrite (stored_tracks_grows _ _ _ Hwf Hn), removal_nil by done. done.
Qed.

Lemma forallb_is_number_indices (indices : list Z) :
  forallb is_number (map ItemIndex indices) = true.
Proof. by induction indices. Qed.

Lemma omap_item_number_indices (indices : list Z) :
  omap item_number (map ItemIndex indices) = indices.
Proof.
  induction indices as [| i rest IH]; [done |].
  cbn [map]. rewrite omap_cons_eq. cbn [item_number]. by rewrite IH.
Qed.

Lemma omap_nil_iff {A B} (f : A → option B) (l : list A) :
  omap f l = [] ↔ ∀ x, x ∈ l → f x = None.
Proof.
  induction l as [| x l IH].
  - split; [| done]. intros _ y Hy. by apply elem_of_nil in Hy.
  - rewrite omap_cons_eq. split.
    + destruct (f x) eqn:Hx; [done |]. intros Hnil y Hy.
      apply elem_of_cons in Hy as [-> | Hy]; [done |]. by apply IH.
    + intros Hall. rewrite (Hall x) by apply list_elem_of_here.
      apply IH. intros y Hy. apply Hall. by apply list_elem_of_further.
Qed.

(** X21.  [remove] with an array of indices in descending order takes out
    exactly the tracks at these positions and returns them in the order
    of the indices; indices that are no position of the list are skipped,
    and [null] is returned when all of them are. *)
Theorem remove_descending_indices_is_exact (q : Queue) (s : QueueSaver)
  (w : World) (indices : list Z) :
  q_QueueSaver q = Some s →
  distinct_arrays (q_guildId q) w = true →
  descending indices = true →
  returns (remove q (QueryArray (map ItemIndex indices))) w (fun r w' =>
    let old := stored_tracks (q_guildId q) w in
    default [] r = omap (at_index old) indices
    ∧ stored_tracks (q_guildId q) w' = without_positions old indices
    ∧ (r = None ↔ ∀ i, i ∈ indices → at_index old i = None)).
Proof.
  intros Hs Hwf Hd.
  eapply returns_weaken; [by apply (remove_result q s) |].
  intros r w'. cbn zeta. cbn [removal].
  rewrite forallb_is_number_indices, omap_item_number_indices.
  rewrite (remove_each_from_descending _ _ Hd). cbn [fst snd].
  intros (Hr & Hnew & Hnone). by rewrite Hnone, omap_nil_iff.
Qed.

Lemma remove_descending_indices_is_exact_witness :
  let q := queue_with 25 None in
  let w := world_of [] [trackA; trackB; trackC; trackD] in
  returns (remove q (QueryArray (map ItemIndex [2; 0; -1]%Z))) w (fun r w' =>
    let old := stored_tracks "guild" w in
    default [] r = omap (at_index old) [2; 0; -1]%Z
    ∧ stored_tracks "guild" w' = without_positions old [2; 0; -1]%Z
    ∧ (r = None ↔ ∀ i, i ∈ [2; 0; -1]%Z → at_index old i = None)).
Proof.
  apply (remove_descending_indices_is_exact (queue_with 25 None)
           {| saver_maxPreviousTracks := 25 |});
    [reflexivity | vm_compute; reflexivity | reflexivity].
Defined.

(** X22.  [remove] with an array of indices in ascending order, none of
    them negative, does not take out the tracks at these positions: each
    removal moves the tracks behind it up, so the [n]-th index (counted
    from zero) takes out the track that was at position [index + n],
    and nothing when the list was not that long. *)
Theorem remove_ascending_indices_shift (q : Queue) (s : QueueSaver)
  (w : World) (indices : list Z) :
  q_QueueSaver q = Some s →
  distinct_arrays (q_guildId q) w = true →
  ascending indices = true →
  forallb (Z.leb 0) indices = true →
  returns (remove q (QueryArray (map ItemIndex indices))) w (fun r w' =>
    let old := stored_tracks (q_guildId q) w in
    default [] r = omap (at_index old) (shifted indices)
    ∧ stored_tracks (q_guildId q) w' = without_positions old (shifted indices)
    ∧ (r = None ↔ ∀ i, i ∈ shifted indices → at_index old i = None)).
Proof.
  intros Hs Hwf Ha Hpos.
  assert (Hpos' : Forall (fun j => (0 ≤ j)%Z) indices).
  { apply Forall_forall. intros j Hj%list_elem_of_In.
    rewrite forallb_forall in Hpos. apply Z.leb_le. by apply Hpos. }
  eapply returns_weaken; [by apply (remove_result q s) |].
  intros r w'. cbn zeta. cbn [removal].
  rewrite forallb_is_number_indices, omap_item_number_indices.
  rewrite (remove_each_from_ascending _ _ Ha Hpos'). cbn [fst snd].
  intros (Hr & Hnew & Hnone). by rewrite Hnone, omap_nil_iff.
Qed.

Lemma remove_ascending_indices_shift_witness :
  let q := queue_with 25 None in
  let w := world_of [] [trackA; trackB; trackC; trackD] in
  returns (remove q (QueryArray (map ItemIndex [0; 1; 3]%Z))) w (fun r w' =>
    let old := stored_tracks "guild" w in
    default [] r = omap (at_index old) (shifted [0; 1; 3]%Z)
    ∧ stored_tracks "guild" w' = without_positions old (shifted [0; 1; 3]%Z)
    ∧ (r = None ↔ ∀ i, i ∈ shifted [0; 1; 3]%Z → at_index old i = None)).
Proof.
  apply (remove_ascending_indices_shift (queue_with 25 None)
           {| saver_maxPreviousTracks := 25 |});
    [reflexivity | vm_compute; reflexivity | reflexivity | reflexivity].
Defined.

(** *** An array of tracks *)

Lemma found_track_items (i : nat) (v : Track) (queries : list Track) :
  found (List.find (item_matches i v) (map ItemTrack queries))
  = existsb (fun t => matches t v) queries.
Proof.
  induction queries as [| t rest IH]; [done |].
  cbn [map List.find existsb item_matches].
  destruct (matches t v); [done |]. exact IH.
Qed.

Lemma positions_of_filter (off : nat) (p : Track → bool) (a : list Track) :
  map (fun iv : nat * Track => Z.of_nat (fst iv))
    (List.filter (fun '(_, v) => p v) (imap (fun i v => (off + i, v)) a))
  = positions_from off p a.
Proof.
  revert off. induction a as [| x a IH]; intros off; [done |].
  rewrite imap_cons. cbn [List.filter positions_from].
  rewrite (imap_ext _ (fun i v => (S off + i, v)))
    by (intros; unfold compose; f_equal; lia).
  destruct (p x); cbn [map fst]; rewrite IH; [| done].
  by rewrite Nat.add_0_r.
Qed.

Lemma positions_to_remove_tracks (queries a : list Track) :
  positions_to_remove (map ItemTrack queries) a
  = matching_positions queries a.
Proof.
  unfold positions_to_remove, matching_positions.
  rewrite <- (positions_of_filter 0). f_equal.
  apply filter_ext. intros [i v]. apply found_track_items.
Qed.

Lemma positions_from_spec (off : nat) (p : Track → bool) (a : list Track) :
  ascending (positions_from off p a) = true
  ∧ Forall (fun j => (Z.of_nat off ≤ j)%Z) (positions_from off p a)
  ∧ (positions_from off p a = [] ↔ ∀ v, v ∈ a → p v = false)
  ∧ ∀ j rest, positions_from off p a = j :: rest →
      ∃ v, at_index a (j - Z.of_nat off) = Some v.
Proof.
  revert off. induction a as [| x a IH]; intros off.
  { split; [done |]. split; [done |]. split; [| done].
    split; [| done]. intros _ v Hv. by apply elem_of_nil in Hv. }
  destruct (IH (S off)) as (Hasc & Hlow & Hnil & Hhead).
  cbn [positions_from]. destruct (p x) eqn:Hx.
  - split.
    { destruct (positions_from (S off) p a) as [| j rest] eqn:Hps; [done |].
      change (ascending (Z.of_nat off :: j :: rest))
        with ((Z.of_nat off <? j)%Z && ascending (j :: rest)).
      rewrite Hasc. apply Forall_cons in Hlow as [Hj _].
      destruct (Z.ltb_spec (Z.of_nat off) j); [done | lia]. }
    split.
    { constructor; [lia |]. eapply Forall_impl; [exact Hlow |]. simpl. lia. }
    split.
    { split; [done |]. intros Hall.
      rewrite (Hall x) in Hx by apply list_elem_of_here. done. }
    intros j rest [= <- _]. exists x. by rewrite Z.sub_diag.
  - split; [done |]. split.
    { eapply Forall_impl; [exact Hlow |]. simpl. lia. }
    split.
    { rewrite Hnil. split.
      - intros Hall v Hv. apply elem_of_cons in Hv as [-> | Hv]; [done |].
        by apply Hall.
      - intros Hall v Hv. apply Hall. by apply list_elem_of_further. }
    intros j rest Hps. destruct (Hhead j rest Hps) as (v & Hv).
    assert (Hj : (Z.of_nat (S off) ≤ j)%Z).
    { rewrite Hps in Hlow. by apply Forall_cons in Hlow as [? _]. }
    exists v. unfold at_index in *.
    destruct (Z.ltb_spec (j - Z.of_nat (S off)) 0); [lia |].
    destruct (Z.ltb_spec (j - Z.of_nat off) 0); [lia |].
    replace (Z.to_nat (j - Z.of_nat off))
      with (S (Z.to_nat (j - Z.of_nat (S off)))) by lia.
    exact Hv.
Qed.

(** X23.  [remove] with an array of track-like queries collects the
    positions of all tracks that match one of them and then removes at
    these positions from the front, one after the other: the first match
    is taken out, but the [n]-th position (counted from zero) then takes
    out the track that was [n] places behind that match, or nothing when
    the list has ended.  It returns [null] exactly when no track matches
    any query. *)
Theorem remove_tracks_takes_shifted_positions (q : Queue) (s : QueueSaver)
  (w : World) (queries : list Track) :
  q_QueueSaver q = Some s →
  distinct_arrays (q_guildId q) w = true →
  returns (remove q (QueryArray (map ItemTrack queries))) w (fun r w' =>
    let old := stored_tracks (q_guildId q) w in
    let positions := matching_positions queries old in
    default [] r = omap (at_index old) (shifted positions)
    ∧ stored_tracks (q_guildId q) w'
      = without_positions old (shifted positions)
    ∧ (r = None
       ↔ ∀ v t, v ∈ old → t ∈ queries → matches t v = false)).
Proof.
  intros Hs Hwf.
  eapply returns_weaken; [by apply (remove_result q s) |].
  intros r w'. cbn zeta. cbn [removal].
  set (old := stored_tracks (q_guildId q) w).
  pose proof (positions_from_spec 0
                (fun v => existsb (fun t => matches t v) queries) old)
    as (Hasc & Hlow & Hnil & Hhead).
  fold (matching_positions queries old) in Hasc, Hlow, Hnil, Hhead.
  assert (Hres : (if forallb is_number (map ItemTrack queries)
                  then remove_each_from old
                         (omap item_number (map ItemTrack queries))
                  else remove_each_from old
                         (positions_to_remove (map ItemTrack queries) old))
                 = (omap (at_index old)
                      (shifted (matching_positions queries old)),
                    without_positions old
                      (shifted (matching_positions queries old)))).
  { destruct queries as [| t queries].
    - cbn [map forallb].
      change (omap item_number []) with (@nil Z). cbn [remove_each_from].
      assert (Hm : matching_positions [] old = []).
      { apply Hnil. done. }
      rewrite Hm. unfold shifted, without_positions.
      cbn [shifted_from]. by rewrite keep_from_nil.
    - cbn [map forallb is_number andb].
      change (ItemTrack t :: map ItemTrack queries)
        with (map ItemTrack (t :: queries)).
      rewrite positions_to_remove_tracks.
      by apply remove_each_from_ascending. }
  rewrite Hres. cbn [fst snd].
  intros (Hr & Hnew & Hnone). split; [done |]. split; [done |].
  rewrite Hnone. clear Hres.
  transitivity (matching_positions queries old = []).
  - split.
    + intros Hom.
      destruct (matching_positions queries old) as [| j rest] eqn:Hps;
        [done |].
      destruct (Hhead j rest eq_refl) as (v & Hv).
      unfold shifted in Hom. cbn [shifted_from] in Hom.
      rewrite omap_cons_eq in Hom.
      rewrite Z.sub_0_r in Hv. rewrite Z.add_0_r, Hv in Hom. done.
    + by intros ->.
  - rewrite Hnil. split.
    + intros Hall v t Hv Ht.
      specialize (Hall v Hv).
      destruct (matches t v) eqn:Hm; [| done].
      assert (Hex : existsb (fun t => matches t v) queries = true).
      { apply existsb_exists. exists t. split; [| done].
        by apply list_elem_of_In. }
      by rewrite Hex in Hall.
    + intros Hall v Hv.
      destruct (existsb (fun t => matches t v) queries) eqn:Hex; [| done].
      apply existsb_exists in Hex as (t & Ht%list_elem_of_In & Hm).
      by rewrite (Hall v t Hv Ht) in Hm.
Qed.

Lemma remove_tracks_takes_shifted_positions_witness :
  let q := queue_with 25 None in
  let w := world_of [] [trackA; trackB; trackC] in
  returns (remove q (QueryArray (map ItemTrack [trackA; trackB]))) w
    (fun r w' =>
       let old := stored_tracks "guild" w in
       let positions := matching_positions [trackA; trackB] old in
       default [] r = omap (at_index old) (shifted positions)
       ∧ stored_tracks "guild" w' = without_positions old (shifted positions)
       ∧ (r = None
          ↔ ∀ v t, v ∈ old → t ∈ [trackA; trackB] → matches t v = false)).
Proof.
  apply (remove_tracks_takes_shifted_positions (queue_with 25 None)
           {| saver_maxPreviousTracks := 25 |});
    [reflexivity | vm_compute; reflexivity].
Defined.

(** ** A queue without a saver *)

Lemma bind_throws {A B} (c : M A) (k : A → M B) (w w' : World) (e : Error) :
  c w = (Throw e, w') → bind c k w = (Throw e, w').
Proof. intros Hc. unfold bind. by rewrite Hc. Qed.

Lemma load_detached (q : Queue) (w : World) :
  q_QueueSaver q = None → _load q w = (Throw TypeError, w).
Proof. intros Hs. unfold _load, with_saver. by rewrite Hs. Qed.

(** X25.  The constructor accepts a queue without a [QueueSaver].  On such
    a queue every method that reads or writes the lists throws a
    [TypeError] as soon as it is called, and store, arrays and trace are
    as before: nothing is half done. *)
Theorem queue_without_saver_only_throws (q : Queue) (w : World) :
  q_QueueSaver q = None →
  (∀ TrackOrTracks index,
     add q TrackOrTracks index w = (Throw TypeError, w))
  ∧ (∀ index amount TrackOrTracks,
       splice q index amount TrackOrTracks w = (Throw TypeError, w))
  ∧ (∀ query, remove q query w = (Throw TypeError, w))
  ∧ shuffle q w = (Throw TypeError, w)
  ∧ clearTracks q w = (Throw TypeError, w)
  ∧ (∀ tracks, setTracks q tracks w = (Throw TypeError, w))
  ∧ (∀ track, pushTrack q track w = (Throw TypeError, w))
  ∧ (∀ track, unshiftTrack q track w = (Throw TypeError, w))
  ∧ shiftTrack q w = (Throw TypeError, w)
  ∧ shiftPrevious q w = (Throw TypeError, w)
  ∧ (∀ track, addToPrevious q track w = (Throw TypeError, w))
  ∧ (∀ from to, moveTrack q from to w = (Throw TypeError, w))
  ∧ (∀ index track, replaceTrack q index track w = (Throw TypeError, w))
  ∧ (∀ i j, swapTracks q i j w = (Throw TypeError, w))
  ∧ (∀ index, getTrack q index w = (Throw TypeError, w))
  ∧ getTracks q w = (Throw TypeError, w)
  ∧ getTrackCount q w = (Throw TypeError, w)
  ∧ getPrevious q w = (Throw TypeError, w)
  ∧ getPreviousCount q w = (Throw TypeError, w)
  ∧ (∀ index, getPreviousTrack q index w = (Throw TypeError, w))
  ∧ (∀ start end_, getTracksSlice q start end_ w = (Throw TypeError, w))
  ∧ (∀ predicate, findTrackIndex q predicate w = (Throw TypeError, w))
  ∧ utils_save q w = (Throw TypeError, w)
  ∧ utils_destroy q w = (Throw TypeError, w)
  ∧ utils_toJSON q w = (Throw TypeError, w)
  ∧ utils_totalDuration q w = (Throw TypeError, w)
  ∧ (∀ override dontSyncCurrent,
       utils_sync q override dontSyncCurrent w = (Throw TypeError, w)).
Proof.
  intros Hs.
  repeat split; intros;
    try (apply bind_throws, load_detached, Hs).
  - unfold utils_destroy, with_saver. by rewrite Hs.
  - unfold utils_sync, with_saver, bind. by rewrite Hs.
Qed.

Lemma queue_without_saver_only_throws_witness :
  let q := detached_queue (Some myCustomWatcher) in
  let w := world_of [] [trackA; trackB] in
  Queue_new "guild" None None (Some (options_of None (Some myCustomWatcher)))
  = Ret q
  ∧ q_QueueSaver q = None
  ∧ add q (VTrack trackC) None w = (Throw TypeError, w)
  ∧ shuffle q w = (Throw TypeError, w)
  ∧ getTrackCount q w = (Throw TypeError, w)
  ∧ utils_destroy q w = (Throw TypeError, w).
Proof.
  split; [reflexivity |]. split; [reflexivity |].
  pose proof (queue_without_saver_only_throws
                (detached_queue (Some myCustomWatcher))
                (world_of [] [trackA; trackB]) eq_refl) as H.
  repeat split; apply H.
Defined.
(** ** add, by the numbers *)

(** X26.  [add] returns the size of the queue after the insertion: the old
    size plus the number of tracks that passed the filters.  The batch
    goes in front of the track at [index] when [index] is a position of
    the list, and to the end in every other case: no [index], a negative
    one, the length of the list or more.  The old tracks keep their order,
    and the queue is saved once even when no track passed. *)
Theorem add_counts_and_places (q : Queue) (s : QueueSaver) (w : World)
  (TrackOrTracks : Value) (index : option Z) :
  q_QueueSaver q = Some s →
  distinct_arrays (q_guildId q) w = true →
  returns (add q TrackOrTracks index) w (fun n w' =>
    let old := stored_tracks (q_guildId q) w in
    let batch := valid_tracks TrackOrTracks in
    n = length old + length batch
    ∧ n = length (stored_tracks (q_guildId q) w')
    ∧ (∀ i, index = Some i → (0 ≤ i < Z.of_nat (length old))%Z →
         stored_tracks (q_guildId q) w'
         = take (Z.to_nat i) old ++ batch ++ drop (Z.to_nat i) old)
    ∧ ((∀ i, index = Some i → ¬ (0 ≤ i < Z.of_nat (length old))%Z) →
       stored_tracks (q_guildId q) w' = old ++ batch)
    ∧ sublist old (stored_tracks (q_guildId q) w')
    ∧ (batch = [] → stored_tracks (q_guildId q) w' = old)
    ∧ saved_once (q_guildId q) w w').
Proof.
  intros Hs Hwf.
  eapply returns_weaken; [by apply (add_returns q s Hs) |].
  intros n w' (Hnew & Hn & Hsaved). cbn zeta.
  set (old := stored_tracks (q_guildId q) w) in *.
  set (batch := valid_tracks TrackOrTracks) in *.
  assert (Hcases :
    (∃ i, index = Some i ∧ (0 ≤ i < Z.of_nat (length old))%Z
          ∧ inserted old batch index
            = take (Z.to_nat i) old ++ batch ++ drop (Z.to_nat i) old)
    ∨ ((∀ i, index = Some i → ¬ (0 ≤ i < Z.of_nat (length old))%Z)
       ∧ inserted old batch index = old ++ batch)).
  { unfold inserted, insertion_index. destruct index as [i |].
    - destruct (Z.leb_spec 0 i); cbn [andb].
      + destruct (Z.ltb_spec i (Z.of_nat (length old))).
        * left. exists i. done.
        * right. split; [| done]. intros i' [= <-]. lia.
      + right. split; [| done]. intros i' [= <-]. lia.
    - right. split; [| done]. intros i' [=]. }
  rewrite Hn, Hnew.
  destruct Hcases as [(i & -> & Hi & ->) | [Hout ->]].
  - split.
    { rewrite !length_app, length_take, length_drop. lia. }
    split; [done |]. split.
    { intros i' [= <-] _. done. }
    split.
    { intros Hno. exfalso. by apply (Hno i). }
    split.
    { rewrite <- (take_drop (Z.to_nat i) old) at 1.
      apply sublist_app; [done |]. by apply sublist_inserts_l. }
    split; [| done]. intros ->. cbn [app]. apply take_drop.
  - split. { rewrite length_app. done. }
    split; [done |]. split.
    { intros i -> Hi. exfalso. by apply (Hout i). }
    split; [done |]. split.
    { by apply sublist_inserts_r. }
    split; [| done]. intros ->. apply app_nil_r.
Qed.

Lemma add_counts_and_places_witness :
  let q := queue_with 25 (Some myCustomWatcher) in
  let w := world_of [] [trackA; trackB] in
  let input := VArray [VTrack trackC; VTrack (track_of "S" "Short" 9999)] in
  returns (add q input (Some 1%Z)) w (fun n w' =>
    let old := stored_tracks "guild" w in
    let batch := valid_tracks input in
    n = length old + length batch
    ∧ n = length (stored_tracks "guild" w')
    ∧ (∀ i, Some 1%Z = Some i → (0 ≤ i < Z.of_nat (length old))%Z →
         stored_tracks "guild" w'
         = take (Z.to_nat i) old ++ batch ++ drop (Z.to_nat i) old)
    ∧ ((∀ i, Some 1%Z = Some i → ¬ (0 ≤ i < Z.of_nat (length old))%Z) →
       stored_tracks "guild" w' = old ++ batch)
    ∧ sublist old (stored_tracks "guild" w')
    ∧ (batch = [] → stored_tracks "guild" w' = old)
    ∧ saved_once "guild" w w').
Proof.
  apply (add_counts_and_places (queue_with 25 (Some myCustomWatcher))
           {| saver_maxPreviousTracks := 25 |});
    [reflexivity | vm_compute; reflexivity].
Defined.
(** ** What the watcher is told about a removal *)

Lemma notify_save_trace (q : Queue) (s : QueueSaver)
  (Hs : q_QueueSaver q = Some s) (stored : StoredQueue) (w : World)
  (cb : option (Notification → Completion))
  (event : StoredQueue → Notification) {A} (a : A) :
  sq_previous stored ≠ sq_tracks stored →
  sq_previous stored < heap_size w → sq_tracks stored < heap_size w →
  returns (notify_guarded cb event stored ;;; _save q stored ;;; ret a) w
    (fun r w' =>
       r = a
       ∧ (∀ l, l < heap_size w → l ≠ sq_previous stored →
            array_at w' l = array_at w l)
       ∧ stored_tracks (q_guildId q) w' = array_at w (sq_tracks stored)
       ∧ match cb with
         | Some _ =>
             ∃ new, w_trace w'
                    = w_trace w ++ [EvNotify (event new);
                                    EvSet (q_guildId q) stored]
                    ∧ heap_size w ≤ sq_tracks new
                    ∧ array_at w' (sq_tracks new)
                      = array_at w (sq_tracks stored)
         | None => w_trace w' = w_trace w ++ [EvSet (q_guildId q) stored]
         end).
Proof.
  intros Hne Hlp Hlt.
  assert (Hsave : ∀ w3, grows w w3 →
            returns (_save q stored ;;; ret a) w3 (fun r w' =>
              r = a
              ∧ (∀ l, l < heap_size w → l ≠ sq_previous stored →
                   array_at w' l = array_at w l)
              ∧ stored_tracks (q_guildId q) w' = array_at w (sq_tracks stored)
              ∧ w_trace w' = w_trace w3 ++ [EvSet (q_guildId q) stored]
              ∧ ∀ l, l ≠ sq_previous stored → array_at w' l = array_at w3 l)).
  { intros w3 (_ & _ & _ & _ & Hsz & Hold). apply returns_bind.
    eapply returns_weaken; [apply (save_effect q s Hs) |].
    intros u w' (Hd & Htr & Hh & Hf & Hp). apply returns_ret.
    split; [done |]. split.
    { intros l Hl Hnl. rewrite Hf by done. by apply Hold. }
    split; [| done].
    unfold stored_tracks. rewrite Hd, lookup_insert_eq. simpl.
    rewrite Hf by congruence. by apply Hold. }
  destruct cb as [f |].
  - apply returns_bind. eapply returns_weaken.
    { apply returns_and;
        [by apply notify_guarded_logs | apply notify_guarded_returns]. }
    intros u w3 [(new & Htr & Hnp & Hnt & Hap & Hat & Hc) Hg].
    eapply returns_weaken; [by apply Hsave |].
    intros r w' (-> & Hframe & Hst & Htr' & Hrest).
    split; [done |]. split; [done |]. split; [done |].
    exists new. split.
    { rewrite Htr', Htr, <- app_assoc. done. }
    split; [done |]. rewrite Hrest by lia. done.
  - apply returns_bind, returns_ret.
    eapply returns_weaken; [apply Hsave, grows_refl |].
    intros r w' (-> & Hframe & Hst & Htr' & Hrest). done.
Qed.

Lemma snapshot_if_old (cond : bool) (stored : StoredQueue) (w : World)
  {A} (k : option StoredQueue → M A) (post : A → World → Prop) :
  sq_tracks stored < heap_size w →
  (∀ old w1, grows w w1 → w_trace w1 = w_trace w →
     match old with
     | Some o =>
         cond = true ∧ heap_size w ≤ sq_tracks o ∧ sq_tracks o < heap_size w1
         ∧ array_at w1 (sq_tracks o) = array_at w (sq_tracks stored)
     | None => cond = false
     end →
     returns (k old) w1 post) →
  returns (old <- snapshot_if cond stored ;; k old) w post.
Proof.
  intros Hlt Hk. apply returns_bind. unfold snapshot_if. destruct cond.
  - apply returns_bind.
    eapply returns_weaken; [apply snapshot_returns |].
    intros snap w1 (Hg & Ht & Hc & Hp3 & Ht3 & Hh3 & Hap & Hat).
    apply returns_ret. apply Hk; [done | done |].
    split; [done |]. split; [lia |]. split; [lia |]. by apply Hat.
  - apply returns_ret. apply Hk; [apply grows_refl | done | done].
Qed.

(** X27.  When [remove] takes something out, a watcher with a
    [tracksRemoved] callback is called exactly once, before the document
    is saved, whether the callback throws or not.  It is handed the very
    tracks that [remove] returns, a copy of the lists as they were and a
    copy of the lists as they are after the removal; both copies are
    arrays of their own and still read so after the save.  Without that
    callback only the save happens, and when [remove] returns [null]
    neither. *)
Theorem remove_tells_the_watcher_once (q : Queue) (s : QueueSaver)
  (w : World) (query : RemoveQuery) :
  q_QueueSaver q = Some s →
  distinct_arrays (q_guildId q) w = true →
  returns (remove q query) w (fun r w' =>
    match r with
    | None => w_trace w' = w_trace w
    | Some removed =>
        match cb_tracksRemoved q with
        | Some _ =>
            ∃ position old new stored,
              w_trace w'
              = w_trace w
                ++ [EvNotify (TracksRemoved (q_guildId q) removed position
                                (Some old) new);
                    EvSet (q_guildId q) stored]
              ∧ array_at w' (sq_tracks old) = stored_tracks (q_guildId q) w
              ∧ array_at w' (sq_tracks new) = stored_tracks (q_guildId q) w'
              ∧ array_at w' (sq_tracks stored)
                = stored_tracks (q_guildId q) w'
              ∧ sq_tracks old ≠ sq_tracks stored
              ∧ sq_tracks new ≠ sq_tracks stored
              ∧ sq_tracks old ≠ sq_tracks new
        | None =>
            ∃ stored, w_trace w' = w_trace w ++ [EvSet (q_guildId q) stored]
        end
    end).
Proof.
  intros Hs Hwf. unfold remove. load_queue Hs Hwf.
  assert (Hsz : heap_size w ≤ heap_size w1) by apply Hg.
  apply snapshot_if_old; [done |]. intros old w2 Hg2 Htr2 Hold.
  destruct Hg2 as (_ & _ & _ & _ & Hsz2 & Harr2).
  assert (Hlt2 : sq_tracks stored < heap_size w2) by lia.
  assert (Hlp2 : sq_previous stored < heap_size w2) by lia.
  assert (Ht2 : array_at w2 (sq_tracks stored) = stored_tracks (q_guildId q) w).
  { by rewrite Harr2. }
  (* what remains to be shown once the list has been changed in [w3] *)
  assert (Htail : ∀ w3 removed position,
    heap_size w3 = heap_size w2 → w_trace w3 = w_trace w2 →
    (∀ l, l ≠ sq_tracks stored → array_at w3 l = array_at w2 l) →
    returns (notify_guarded (cb_tracksRemoved q)
               (fun new => TracksRemoved (q_guildId q) removed position
                             old new) stored ;;;
             _save q stored ;;; ret (Some removed)) w3
      (fun r w' =>
         match r with
         | None => w_trace w' = w_trace w
         | Some removed =>
             match cb_tracksRemoved q with
             | Some _ =>
                 ∃ position old new stored,
                   w_trace w'
                   = w_trace w
                     ++ [EvNotify (TracksRemoved (q_guildId q) removed
                                     position (Some old) new);
                         EvSet (q_guildId q) stored]
                   ∧ array_at w' (sq_tracks old)
                     = stored_tracks (q_guildId q) w
                   ∧ array_at w' (sq_tracks new)
                     = stored_tracks (q_guildId q) w'
                   ∧ array_at w' (sq_tracks stored)
                     = stored_tracks (q_guildId q) w'
                   ∧ sq_tracks old ≠ sq_tracks stored
                   ∧ sq_tracks new ≠ sq_tracks stored
                   ∧ sq_tracks old ≠ sq_tracks new
             | None =>
                 ∃ stored,
                   w_trace w' = w_trace w ++ [EvSet (q_guildId q) stored]
             end
         end)).
  { intros w3 removed position Hh3 Htr3 Hrest3.
    eapply returns_weaken.
    { apply (notify_save_trace q s Hs stored w3); [done | lia | lia]. }
    intros r w' (-> & Hframe & Hst & Hcb).
    destruct (cb_tracksRemoved q) as [f |] eqn:Hf.
    - destruct old as [o |]; [| cbv in Hold; discriminate].
      destruct Hold as (_ & Ho1 & Ho2 & Ho3).
      destruct Hcb as (new & Htr' & Hn1 & Hn2).
      exists position, o, new, stored.
      split. { rewrite Htr', Htr3, Htr2, Htr. done. }
      split.
      { rewrite Hframe by lia. rewrite Hrest3 by lia.
        by rewrite Ho3, Ht. }
      split; [congruence |]. split.
      { rewrite Hframe by (lia || congruence). done. }
      split; [lia |]. split; lia.
    - exists stored. rewrite Hcb, Htr3, Htr2, Htr. done. }
  assert (Hnone : w_trace w2 = w_trace w) by congruence.
  destruct query as [i | items | t].
  - apply returns_bind, read_returns.
    destruct (at_index (array_at w2 (sq_tracks stored)) i);
      [| by apply returns_ret].
    apply returns_bind, array_splice_returns.
    apply Htail; [apply heap_size_write | done |].
    intros l Hl. by apply array_at_other.
  - destruct (forallb is_number items).
    + apply returns_bind.
      eapply returns_weaken; [by apply remove_each_returns |].
      intros removed w3 (Hrm & Harr & Hh & Hd3 & Ht3 & _ & _ & Hf3).
      destruct removed as [| x removed].
      * apply returns_ret. congruence.
      * by apply Htail.
    + apply returns_bind, read_returns.
      destruct (List.filter _ _) as [| iv tracksToRemove];
        [by apply returns_ret |].
      apply returns_bind.
      eapply returns_weaken; [by apply remove_each_returns |].
      intros removed w3 (Hrm & Harr & Hh & Hd3 & Ht3 & _ & _ & Hf3).
      by apply Htail.
  - apply returns_bind, read_returns.
    destruct (_ <? 0)%Z; [by apply returns_ret |].
    apply returns_bind, array_splice_returns.
    apply Htail; [apply heap_size_write | done |].
    intros l Hl. by apply array_at_other.
Qed.

Lemma remove_tells_the_watcher_once_witness :
  let q := queue_with 25 (Some brokenWatcher) in
  let w := world_of [] [trackA; trackB; trackC] in
  returns (remove q (QueryTrack trackB)) w (fun r w' =>
    match r with
    | None => w_trace w' = w_trace w
    | Some removed =>
        match cb_tracksRemoved q with
        | Some _ =>
            ∃ position old new stored,
              w_trace w'
              = w_trace w
                ++ [EvNotify (TracksRemoved "guild" removed position
                                (Some old) new);
                    EvSet "guild" stored]
              ∧ array_at w' (sq_tracks old) = stored_tracks "guild" w
              ∧ array_at w' (sq_tracks new) = stored_tracks "guild" w'
              ∧ array_at w' (sq_tracks stored) = stored_tracks "guild" w'
              ∧ sq_tracks old ≠ sq_tracks stored
              ∧ sq_tracks new ≠ sq_tracks stored
              ∧ sq_tracks old ≠ sq_tracks new
        | None => ∃ stored, w_trace w' = w_trace w ++ [EvSet "guild" stored]
        end
    end).
Proof.
  apply (remove_tells_the_watcher_once (queue_with 25 (Some brokenWatcher))
           {| saver_maxPreviousTracks := 25 |});
    [reflexivity | vm_compute; reflexivity].
Defined.
(** ** Putting a track in front and taking it back *)

Lemma unshiftTrack_lists (q : Queue) (s : QueueSaver) (w : World)
  (track : Track) :
  q_QueueSaver q = Some s →
  distinct_arrays (q_guildId q) w = true →
  returns (unshiftTrack q track) w (fun _ w' =>
    stored_tracks (q_guildId q) w' = track :: stored_tracks (q_guildId q) w
    ∧ stored_previous (q_guildId q) w'
      = truncate (q_maxPreviousTracks q) (stored_previous (q_guildId q) w)
    ∧ distinct_arrays (q_guildId q) w' = true).
Proof.
  intros Hs Hwf. unfold unshiftTrack. load_queue Hs Hwf.
  apply returns_bind, array_unshift_returns.
  apply returns_bind.
  eapply returns_weaken.
  { apply (save_lists q s Hs stored w); try done;
      rewrite ?heap_size_write; done. }
  intros u w' (E1 & E2 & _ & E4 & _).
  apply array_length_returns.
  rewrite array_at_written, Ht in E1 by done.
  rewrite array_at_other, Hp in E2 by congruence. done.
Qed.

Lemma shiftTrack_lists (q : Queue) (s : QueueSaver) (w : World)
  (x : Track) (rest : list Track) :
  q_QueueSaver q = Some s →
  distinct_arrays (q_guildId q) w = true →
  stored_tracks (q_guildId q) w = x :: rest →
  returns (shiftTrack q) w (fun r w' =>
    r = Some x ∧ stored_tracks (q_guildId q) w' = rest
    ∧ stored_previous (q_guildId q) w'
      = truncate (q_maxPreviousTracks q) (stored_previous (q_guildId q) w)).
Proof.
  intros Hs Hwf Hold. unfold shiftTrack. load_queue Hs Hwf.
  apply returns_bind, array_shift_returns. rewrite Ht, Hold.
  apply returns_bind. cbn [is_object when].
  eapply returns_weaken.
  { apply (save_lists q s Hs stored w); try done;
      rewrite ?heap_size_write; done. }
  intros u w' (E1 & E2 & _). apply returns_ret.
  rewrite array_at_written in E1 by done.
  rewrite array_at_other, Hp in E2 by congruence. done.
Qed.

Lemma shiftPrevious_lists (q : Queue) (s : QueueSaver) (w : World)
  (x : Track) (rest : list Track) :
  q_QueueSaver q = Some s →
  distinct_arrays (q_guildId q) w = true →
  stored_previous (q_guildId q) w = x :: rest →
  returns (shiftPrevious q) w (fun r w' =>
    r = Some x
    ∧ stored_previous (q_guildId q) w'
      = truncate (q_maxPreviousTracks q) rest
    ∧ stored_tracks (q_guildId q) w' = stored_tracks (q_guildId q) w).
Proof.
  intros Hs Hwf Hold. unfold shiftPrevious. load_queue Hs Hwf.
  apply returns_bind, array_shift_returns. rewrite Hp, Hold.
  apply returns_bind. cbn [is_object when].
  eapply returns_weaken.
  { apply (save_lists q s Hs stored w); try done;
      rewrite ?heap_size_write; done. }
  intros u w' (E1 & E2 & _). apply returns_ret.
  rewrite array_at_written in E2 by done.
  rewrite array_at_other, Ht in E1 by done. done.
Qed.

(** X28.  What is put in front comes back first.  [unshiftTrack] followed
    by [shiftTrack] returns the track and leaves the track list as it was
    before the two calls; with a positive cap [addToPrevious] followed by
    [shiftPrevious] returns the track as well, and leaves of the old
    previous list what fits under the cap beside one more track. *)
Theorem front_round_trip (q : Queue) (s : QueueSaver) (w : World)
  (track : Track) :
  q_QueueSaver q = Some s →
  distinct_arrays (q_guildId q) w = true →
  (0 < q_maxPreviousTracks q)%Z →
  returns (unshiftTrack q track ;;; shiftTrack q) w (fun r w' =>
    r = Some track
    ∧ stored_tracks (q_guildId q) w' = stored_tracks (q_guildId q) w)
  ∧ returns (addToPrevious q track ;;; shiftPrevious q) w (fun r w' =>
      r = Some track
      ∧ stored_previous (q_guildId q) w'
        = take (Z.to_nat (q_maxPreviousTracks q - 1))
            (stored_previous (q_guildId q) w)
      ∧ stored_tracks (q_guildId q) w' = stored_tracks (q_guildId q) w).
Proof.
  intros Hs Hwf Hcap. split.
  - apply returns_bind.
    eapply returns_weaken; [by apply (unshiftTrack_lists q s w) |].
    intros n w1 (E1 & _ & Hwf1).
    eapply returns_weaken; [by apply (shiftTrack_lists q s w1 track) |].
    by intros r w2 (-> & E2 & _).
  - apply returns_bind.
    eapply returns_weaken; [by apply (addToPrevious_lists q s w) |].
    intros u w1 (E1 & E2 & _ & Hwf1).
    rewrite truncate_nonneg in E1 by lia.
    replace (Z.to_nat (q_maxPreviousTracks q))
      with (S (Z.to_nat (q_maxPreviousTracks q - 1))) in E1 by lia.
    cbn [take] in E1.
    eapply returns_weaken; [by apply (shiftPrevious_lists q s w1 track) |].
    intros r w2 (-> & F1 & F2). split; [done |]. split; [| congruence].
    rewrite F1, truncate_nonneg by lia.
    rewrite take_take. f_equal. lia.
Qed.

Lemma front_round_trip_witness :
  let q := queue_with 2 None in
  let w := world_of [trackA; trackB] [trackC] in
  returns (unshiftTrack q trackD ;;; shiftTrack q) w (fun r w' =>
    r = Some trackD ∧ stored_tracks "guild" w' = stored_tracks "guild" w)
  ∧ returns (addToPrevious q trackD ;;; shiftPrevious q) w (fun r w' =>
      r = Some trackD
      ∧ stored_previous "guild" w'
        = take (Z.to_nat (2 - 1)) (stored_previous "guild" w)
      ∧ stored_tracks "guild" w' = stored_tracks "guild" w).
Proof.
  apply (front_round_trip (queue_with 2 None)
           {| saver_maxPreviousTracks := 2 |});
    [reflexivity | vm_compute; reflexivity | vm_compute; reflexivity].
Defined.

(** ** One queue, one document *)

Section Frame.
Context (q : Queue) (w0 : World).

Lemma framed_refl : framed (q_guildId q) w0 w0.
Proof. by repeat split. Qed.

Lemma before_save_start : before_save (q_guildId q) w0 w0.
Proof. split; [apply framed_refl | done]. Qed.

Lemma framed_write (w : World) (l : loc) (a : list Track) :
  framed (q_guildId q) w0 w → allowed (q_guildId q) w0 l →
  framed (q_guildId q) w0 (with_heap (fun h => <[l := a]> h) w).
Proof.
  intros (Hd & Hh & Ha) Hl. split; [done |].
  split; [by rewrite heap_size_write |].
  intros l' Hl' Hown. rewrite array_at_other; [by apply Ha |].
  intros ->. by apply Hown, Hl.
Qed.

Lemma framed_alloc (w : World) (a : list Track) :
  framed (q_guildId q) w0 w →
  framed (q_guildId q) w0 (with_heap (fun h => h ++ [a]) w).
Proof.
  intros (Hd & Hh & Ha). split; [done |].
  split; [rewrite heap_size_alloc; lia |].
  intros l' Hl' Hown. rewrite array_at_alloc_old by lia. by apply Ha.
Qed.

Lemma framed_set (w : World) (v : PartialStoredQueue) :
  framed (q_guildId q) w0 w →
  framed (q_guildId q) w0 (with_data (fun d => <[q_guildId q := v]> d) w).
Proof.
  intros (Hd & Hh & Ha). split; [| done].
  intros g' Hg'. simpl. rewrite lookup_insert_ne by done. by apply Hd.
Qed.

Lemma framed_delete (w : World) :
  framed (q_guildId q) w0 w →
  framed (q_guildId q) w0 (with_data (fun d => delete (q_guildId q) d) w).
Proof.
  intros (Hd & Hh & Ha). split; [| done].
  intros g' Hg'. simpl. rewrite lookup_delete_ne by done. by apply Hd.
Qed.

Lemma allowed_new (w : World) :
  framed (q_guildId q) w0 w → allowed (q_guildId q) w0 (heap_size w).
Proof. intros (_ & Hh & _) Hl. lia. Qed.

(** *** Steps that return and save nothing *)

Lemma steady_ret {A} (a : A) : steady (q_guildId q) w0 (ret a).
Proof. intros w I. by exists a, w. Qed.

Lemma steady_bind {A B} (c : M A) (k : A → M B) :
  steady (q_guildId q) w0 c → (∀ a, steady (q_guildId q) w0 (k a)) →
  steady (q_guildId q) w0 (bind c k).
Proof.
  intros Hc Hk w I. destruct (Hc w I) as (a & w1 & Hrun & I1).
  destruct (Hk a w1 I1) as (b & w2 & Hrun' & I2).
  exists b, w2. split; [| done]. unfold bind. by rewrite Hrun.
Qed.

Lemma steady_read (l : loc) : steady (q_guildId q) w0 (read l).
Proof. intros w I. by eexists _, w. Qed.

Lemma steady_write (l : loc) (a : list Track) :
  allowed (q_guildId q) w0 l → steady (q_guildId q) w0 (write l a).
Proof.
  intros Hl w [Hf Hd]. eexists tt, _. split; [reflexivity |].
  split; [by apply framed_write | done].
Qed.

Lemma steady_alloc (a : list Track) : steady (q_guildId q) w0 (alloc a).
Proof.
  intros w [Hf Hd]. eexists _, _. split; [reflexivity |].
  split; [by apply framed_alloc | done].
Qed.

Lemma steady_random : steady (q_guildId q) w0 Math_random.
Proof. intros w I. eexists _, _. split; [reflexivity | done]. Qed.

Lemma steady_guarded_call (c : M unit) :
  (∀ w, before_save (q_guildId q) w0 w →
        before_save (q_guildId q) w0 (snd (c w))) →
  steady (q_guildId q) w0 (try_catch c).
Proof.
  intros Hc w I. specialize (Hc w I). exists tt, (snd (c w)).
  split; [| done]. unfold try_catch. by destruct (c w) as [[u | e] w1].
Qed.
End Frame.

Ltac steady_solve :=
  repeat lazymatch goal with
  | |- steady _ _ (bind _ _) => apply steady_bind; [| intros ?]
  | |- steady _ _ (ret _) => apply steady_ret
  | |- steady _ _ (read _) => apply steady_read
  | |- steady _ _ (write _ _) =>
      apply steady_write; cbn [sq_tracks sq_previous with_tracks]; assumption
  | |- steady _ _ (alloc _) => apply steady_alloc
  | |- steady _ _ Math_random => apply steady_random
  | |- steady _ _ (match ?x with _ => _ end) => destruct x
  | |- steady _ _ _ =>
      progress unfold when, snapshot_if, _snapshot, array_length,
        array_splice, array_swap, array_push, array_unshift, array_shift
  end.

Section Methods.
Context (q : Queue) (w0 : World).

Lemma steady_remove_each (l : loc) (indices : list Z) :
  allowed (q_guildId q) w0 l →
  steady (q_guildId q) w0 (remove_each l indices).
Proof.
  intros Hl. induction indices as [| i rest IH]; cbn [remove_each].
  - apply steady_ret.
  - apply steady_bind; [apply steady_read | intros a].
    apply steady_bind; [steady_solve | intros r].
    apply steady_bind; [exact IH | intros rs]. apply steady_ret.
Qed.

Lemma steady_shuffle_loop (l : loc) (i : nat) :
  allowed (q_guildId q) w0 l →
  steady (q_guildId q) w0 (shuffle_loop l i).
Proof.
  intros Hl. induction i as [| i IH]; cbn [shuffle_loop].
  - apply steady_ret.
  - apply steady_bind; [apply steady_random | intros r].
    apply steady_bind; [steady_solve | intros u]. exact IH.
Qed.

Lemma steady_snapshot (stored : StoredQueue) :
  steady (q_guildId q) w0 (_snapshot stored).
Proof. steady_solve. Qed.

Lemma steady_snapshot_if (cond : bool) (stored : StoredQueue) :
  steady (q_guildId q) w0 (snapshot_if cond stored).
Proof. steady_solve. Qed.

Lemma steady_notify_guarded (cb : option (Notification → Completion))
  (event : StoredQueue → Notification) (stored : StoredQueue) :
  steady (q_guildId q) w0 (notify_guarded cb event stored).
Proof.
  unfold notify_guarded. destruct cb as [f |]; [| apply steady_ret].
  apply steady_guarded_call. intros w I.
  destruct (steady_snapshot stored w I) as (new & w1 & Hrun & I1).
  unfold bind. rewrite Hrun. unfold call.
  by destruct (f (event new)).
Qed.

(** *** Loading, notifying and saving *)

Lemma load_steady (s : QueueSaver) (w : World) :
  q_QueueSaver q = Some s → before_save (q_guildId q) w0 w →
  ∃ stored w1, _load q w = (Ret stored, w1)
    ∧ before_save (q_guildId q) w0 w1
    ∧ allowed (q_guildId q) w0 (sq_previous stored)
    ∧ allowed (q_guildId q) w0 (sq_tracks stored).
Proof.
  intros Hs [Hf Hd].
  unfold _load, with_saver, QueueSaver_get, DefaultQueueStore_get,
    DefaultQueueStore_parse, bind, ret, alloc.
  rewrite Hs. cbn beta iota. rewrite Hd.
  assert (Hown : ∀ l, w_data w0 !! q_guildId q ≫= p_previous = Some l
                      ∨ w_data w0 !! q_guildId q ≫= p_tracks = Some l →
                      allowed (q_guildId q) w0 l).
  { intros l Hl _. exact Hl. }
  destruct (w_data w0 !! q_guildId q ≫= p_previous) as [lp |] eqn:Hp;
    destruct (w_data w0 !! q_guildId q ≫= p_tracks) as [lt |] eqn:Ht;
    cbn beta iota; eexists _, _; (split; [reflexivity |]);
    cbn [sq_previous sq_tracks].
  - split; [done |]. split; apply Hown; auto.
  - split; [split; [by apply framed_alloc | done] |].
    split; [apply Hown; auto | by apply allowed_new].
  - split; [split; [by apply framed_alloc | done] |].
    split; [by apply allowed_new | apply Hown; auto].
  - split; [split; [by do 2 apply framed_alloc | done] |].
    split; [by apply allowed_new |].
    apply (allowed_new q w0 (with_heap (fun h => h ++ [[]]) w)).
    by apply framed_alloc.
Qed.

Lemma settles_steady {A} (c : M A) (w : World) :
  steady (q_guildId q) w0 c → before_save (q_guildId q) w0 w →
  settles (q_guildId q) w0 c w.
Proof.
  intros Hc I. destruct (Hc w I) as (a & w1 & Hrun & [Hf _]).
  unfold settles. by rewrite Hrun.
Qed.

Lemma settles_bind_steady {A B} (c : M A) (k : A → M B) (w : World) :
  steady (q_guildId q) w0 c → before_save (q_guildId q) w0 w →
  (∀ a w1, before_save (q_guildId q) w0 w1 →
           settles (q_guildId q) w0 (k a) w1) →
  settles (q_guildId q) w0 (bind c k) w.
Proof.
  intros Hc I Hk. destruct (Hc w I) as (a & w1 & Hrun & I1).
  unfold settles, bind. rewrite Hrun. by apply Hk.
Qed.

Lemma settles_bind_inert {A B} (c : M A) (k : A → M B) (w : World) :
  settles (q_guildId q) w0 c w → (∀ a, inert (k a)) →
  settles (q_guildId q) w0 (bind c k) w.
Proof.
  unfold settles, bind. intros Hc Hk.
  destruct (c w) as [[a | e] w1]; cbn [snd] in *; [| done].
  by rewrite Hk.
Qed.

Lemma settles_bind_load {B} (k : StoredQueue → M B) (w : World) :
  before_save (q_guildId q) w0 w →
  (∀ stored w1, before_save (q_guildId q) w0 w1 →
                allowed (q_guildId q) w0 (sq_previous stored) →
                allowed (q_guildId q) w0 (sq_tracks stored) →
                settles (q_guildId q) w0 (k stored) w1) →
  settles (q_guildId q) w0 (bind (_load q) k) w.
Proof.
  intros I Hk. destruct (q_QueueSaver q) as [s |] eqn:Hs.
  - destruct (load_steady s w Hs I) as (stored & w1 & Hrun & I1 & Hp & Ht).
    unfold settles, bind. rewrite Hrun. by apply Hk.
  - unfold settles. rewrite (bind_throws _ _ _ _ _ (load_detached q w Hs)).
    apply I.
Qed.

Lemma settles_bind_notify {B}
  (cb : option (Notification → Completion))
  (event : StoredQueue → Notification) (stored : StoredQueue)
  (k : unit → M B) (w : World) :
  before_save (q_guildId q) w0 w →
  (∀ u w1, before_save (q_guildId q) w0 w1 →
           settles (q_guildId q) w0 (k u) w1) →
  settles (q_guildId q) w0 (bind (notify cb event stored) k) w.
Proof.
  intros I Hk. unfold notify. destruct cb as [f |].
  - destruct (steady_snapshot stored w I) as (new & w1 & Hrun & I1).
    unfold settles, bind. rewrite Hrun. unfold call.
    destruct (f (event new)); cbn [snd].
    + by apply Hk.
    + apply I1.
  - apply settles_bind_steady; [apply steady_ret | done | done].
Qed.

Lemma settles_save (stored : StoredQueue) (w : World) :
  before_save (q_guildId q) w0 w →
  allowed (q_guildId q) w0 (sq_previous stored) →
  settles (q_guildId q) w0 (_save q stored) w.
Proof.
  intros I Hp. unfold _save.
  apply settles_bind_steady; [apply steady_read | done |].
  intros previous w1 I1.
  apply settles_bind_steady; [steady_solve | done |].
  intros u w2 [Hf2 Hd2].
  unfold settles, with_saver, bind.
  destruct (q_QueueSaver q); cbn [snd]; [| done].
  by apply framed_set.
Qed.
End Methods.

Ltac steady_all :=
  repeat lazymatch goal with
  | |- steady _ _ (bind _ _) => apply steady_bind; [| intros ?]
  | |- steady _ _ (ret _) => apply steady_ret
  | |- steady _ _ (read _) => apply steady_read
  | |- steady _ _ (write _ _) =>
      apply steady_write; cbn [sq_tracks sq_previous with_tracks]; assumption
  | |- steady _ _ (alloc _) => apply steady_alloc
  | |- steady _ _ (remove_each _ _) =>
      apply steady_remove_each; cbn [sq_tracks sq_previous with_tracks];
      assumption
  | |- steady _ _ (shuffle_loop _ _) =>
      apply steady_shuffle_loop; cbn [sq_tracks sq_previous with_tracks];
      assumption
  | |- steady _ _ (notify_guarded _ _ _) => apply steady_notify_guarded
  | |- steady _ _ (snapshot_if _ _) => apply steady_snapshot_if
  | |- steady _ _ (_snapshot _) => apply steady_snapshot
  | |- steady _ _ (match ?x with _ => _ end) => destruct x
  | |- steady _ _ _ =>
      progress unfold when, array_length, array_splice, array_swap,
        array_push, array_unshift, array_shift
  end.

Ltac settle_with add_lemma :=
  repeat lazymatch goal with
  | |- settles _ _ (bind (_load _) _) _ =>
      apply settles_bind_load; [assumption | intros ? ? ? ? ?]
  | |- settles _ _ (bind (_save _ _) _) _ =>
      apply settles_bind_inert;
      [ apply settles_save;
        [assumption | cbn [sq_tracks sq_previous with_tracks]; assumption]
      | intros ? ?; reflexivity ]
  | |- settles _ _ (_save _ _) _ =>
      apply settles_save;
      [assumption | cbn [sq_tracks sq_previous with_tracks]; assumption]
  | |- settles _ _ (bind (notify _ _ _) _) _ =>
      apply settles_bind_notify; [assumption | intros ? ? ?]
  | |- settles _ _ (bind (when ?b (_save _ _)) _) _ =>
      destruct b; unfold when
  | |- settles _ _ (bind (add _ _ _) _) _ =>
      apply settles_bind_inert;
      [apply add_lemma; assumption | intros ? ?; reflexivity]
  | |- settles _ _ (bind _ _) _ =>
      apply settles_bind_steady; [steady_all | assumption | intros ? ? ?]
  | |- settles _ _ (match ?x with _ => _ end) _ => destruct x
  | |- settles _ _ _ _ => apply settles_steady; [steady_all | assumption]
  end.

Ltac settle := settle_with I.

Lemma settles_add (q : Queue) (w0 w : World) (TrackOrTracks : Value)
  (index : option Z) :
  before_save (q_guildId q) w0 w →
  settles (q_guildId q) w0 (add q TrackOrTracks index) w.
Proof. intros I. unfold add. settle. Qed.

Lemma settles_splice (q : Queue) (w0 w : World) (index amount : Z)
  (TrackOrTracks : option Value) :
  before_save (q_guildId q) w0 w →
  settles (q_guildId q) w0 (splice q index amount TrackOrTracks) w.
Proof. intros I. unfold splice. settle_with settles_add. Qed.

Lemma settles_destroy (q : Queue) (w : World) :
  settles (q_guildId q) w (utils_destroy q) w.
Proof.
  unfold settles, utils_destroy, with_saver.
  destruct (q_QueueSaver q); cbn [snd]; [| apply framed_refl].
  apply framed_delete, framed_refl.
Qed.

Lemma inert_sync (q : Queue) (override dontSyncCurrent : option bool) :
  inert (utils_sync q override dontSyncCurrent).
Proof.
  intros w.
  unfold utils_sync, with_saver, QueueSaver_get, DefaultQueueStore_get,
    DefaultQueueStore_parse, bind, ret, throw.
  destruct (q_QueueSaver q); [| done].
  destruct (w_data w !! q_guildId q) as [d |]; [| done].
  by destruct (_ && _).
Qed.

(** What [framed] means for the lists of another guild: they read as
    before, as long as that guild's arrays are arrays of the start world
    that the queue's own document does not hold as well. *)
Lemma framed_other_guild (g g' : string) (w w' : World) :
  framed g w w' → g' ≠ g →
  (∀ l, tracks_array g' w = Some l ∨ previous_array g' w = Some l →
        l < heap_size w ∧ ¬ own_array g w l) →
  w_data w' !! g' = w_data w !! g'
  ∧ stored_tracks g' w' = stored_tracks g' w
  ∧ stored_previous g' w' = stored_previous g' w.
Proof.
  intros (Hd & Hh & Ha) Hg' Hsep.
  split; [by apply Hd |].
  unfold stored_tracks, stored_previous. rewrite (Hd g' Hg').
  fold (tracks_array g' w) (previous_array g' w).
  split.
  - destruct (tracks_array g' w) as [l |] eqn:Hl; [| done].
    destruct (Hsep l) as [Hlt Hown]; [by left |]. by apply Ha.
  - destruct (previous_array g' w) as [l |] eqn:Hl; [| done].
    destruct (Hsep l) as [Hlt Hown]; [by right |]. by apply Ha.
Qed.

(** X24.  A method of a queue changes nothing but the queue's own document
    and the two arrays that document holds: whatever the arguments, the
    watcher and the state of the store, and whether the call returns or
    throws, the documents of the other guilds are the same afterwards and
    every other array that existed reads as before.  So the lists of
    another guild read as before, unless that guild shares an array with
    this queue. *)
Theorem queue_only_writes_its_own_document (q : Queue) :
  (∀ TrackOrTracks index, isolated q (add q TrackOrTracks index))
  ∧ (∀ index amount TrackOrTracks,
       isolated q (splice q index amount TrackOrTracks))
  ∧ (∀ query, isolated q (remove q query))
  ∧ isolated q (shuffle q)
  ∧ isolated q (clearTracks q)
  ∧ (∀ tracks, isolated q (setTracks q tracks))
  ∧ (∀ track, isolated q (pushTrack q track))
  ∧ (∀ track, isolated q (unshiftTrack q track))
  ∧ isolated q (shiftTrack q)
  ∧ isolated q (shiftPrevious q)
  ∧ (∀ track, isolated q (addToPrevious q track))
  ∧ (∀ from to, isolated q (moveTrack q from to))
  ∧ (∀ index track, isolated q (replaceTrack q index track))
  ∧ (∀ i j, isolated q (swapTracks q i j))
  ∧ isolated q (utils_save q)
  ∧ isolated q (utils_destroy q)
  ∧ isolated q (utils_toJSON q)
  ∧ isolated q (utils_totalDuration q)
  ∧ (∀ override dontSyncCurrent,
       isolated q (utils_sync q override dontSyncCurrent))
  ∧ isolated q (getTracks q) ∧ isolated q (getPrevious q)
  ∧ (∀ start end_, isolated q (getTracksSlice q start end_))
  ∧ (∀ {A} (c : M A) w g',
       isolated q c → g' ≠ q_guildId q →
       (∀ l, tracks_array g' w = Some l ∨ previous_array g' w = Some l →
             l < heap_size w ∧ ¬ own_array (q_guildId q) w l) →
       w_data (snd (c w)) !! g' = w_data w !! g'
       ∧ stored_tracks g' (snd (c w)) = stored_tracks g' w
       ∧ stored_previous g' (snd (c w)) = stored_previous g' w).
Proof.
  assert (Hstart : ∀ {A} (c : M A),
            (∀ w, before_save (q_guildId q) w w →
                  settles (q_guildId q) w c w) →
            isolated q c).
  { intros A c Hc w. apply Hc, before_save_start. }
  repeat lazymatch goal with |- _ ∧ _ => split end;
    repeat lazymatch goal with |- ∀ _, _ => intro end;
    lazymatch goal with
    | |- isolated _ (utils_destroy _) => intros w; apply settles_destroy
    | |- isolated _ (utils_sync _ _ _) =>
        intros w; rewrite inert_sync; apply framed_refl
    | |- isolated _ (add _ _ _) =>
        apply Hstart; intros w I; by apply settles_add
    | |- isolated _ (splice _ _ _ _) =>
        apply Hstart; intros w I; by apply settles_splice
    | |- isolated _ _ =>
        apply Hstart; intros w I;
        unfold remove, shuffle, clearTracks, setTracks, pushTrack,
          unshiftTrack, shiftTrack, shiftPrevious, addToPrevious,
          moveTrack, replaceTrack, swapTracks, utils_save,
          utils_toJSON, utils_totalDuration, getTracks, getPrevious,
          getTracksSlice;
        settle
    | |- _ => by apply (framed_other_guild (q_guildId q))
    end.
Qed.

(** Two guilds with arrays of their own: what the queue of ["guild"] adds
    does not show in the lists of ["other"]; once ["other"] has been given
    the track array of ["guild"], it does. *)
Example other_guild_is_left_alone :
  let q := queue_with 25 None in
  let other := {| q_current := None; q_maxPreviousTracks := 25;
                  q_guildId := "other";
                  q_QueueSaver := Some {| saver_maxPreviousTracks := 25 |};
                  q_queueChanges := None |} in
  let w := snd (pushTrack other trackA (world_of [] [trackB])) in
  let shared := snd ((l <- getTracks q ;; setTracks other l) w) in
  stored_tracks "other" w = [trackA]
  ∧ stored_tracks "other" (snd (pushTrack q trackD w)) = [trackA]
  ∧ stored_tracks "guild" (snd (pushTrack q trackD w)) = [trackB; trackD]
  ∧ stored_tracks "other" shared = [trackB]
  ∧ stored_tracks "other" (snd (pushTrack q trackD shared))
    = [trackB; trackD].
Proof. vm_compute. repeat split. Qed.
